(** * SandiKita: the [.skita] container engine

    A shallow embedding of [src/lib/crypto-utils.ts] and
    [src/lib/crypto-worker.ts] (the hashing variant of the worker, the one
    that returns [verified]), followed by the properties of the container
    format and of the encrypt / decrypt pipeline.

    Conventions of the embedding.
    - A [Uint8Array], an [ArrayBuffer] and the contents of a [Blob] or [File]
      are lists of bytes; offsets, lengths and JavaScript numbers are
      integers in [Z], and every fixed-width store writes out its wrap.
    - A JavaScript string is the list of its code points.
    - Code that can throw returns a [result]; [try]/[catch] is a match on it.
    - The browser's cryptography (SHA-256, Argon2id, the AEAD) is not part of
      the repository: it is a parameter, the class [Platform].
    - [crypto.getRandomValues] reads from an explicit random source.
    - The worker is embedded twice. First on a platform that reads every
      slice of a file and seals every chunk, and without its progress
      callbacks, which have no effect on a value returned. Then, in the
      module [Reporting] and in the batch functions, with reads and seals
      that the platform can refuse and with the callbacks: a callback
      returns or throws, and what it throws ends the call that made it.
      The pause that shows the detected algorithm is left out. *)

From Stdlib Require Import ZArith List Lia String Ascii Bool.
From Stdlib Require Floats.PrimFloat Numbers.Cyclic.Int63.Uint63.
From coqutil Require Import Byte.
Import ListNotations.
Local Open Scope Z_scope.

(* ================================================================= *)
(** ** Exceptions *)

(** The exceptions the two source files can raise. *)
Inductive error : Type :=
| RangeError           (* DataView / TypedArray access outside the buffer *)
| OperationError       (* crypto.subtle.decrypt: the tag does not verify *)
| KdfFailure           (* argon2id rejected its parameters *)
| InvalidFileFormat    (* thrown by deserializeHeader *)
| DecryptionFailed     (* thrown by decryptFile's catch block *)
| VerificationFailed.  (* thrown by decryptFile's integrity check *)

(** The text of the exceptions the source files construct themselves; the
    others are raised by the platform, with a text of its own. *)
Definition message (e : error) : option string :=
  match e with
  | InvalidFileFormat => Some "Invalid file format: not a .skita file"
  | DecryptionFailed => Some "Dekripsi gagal: Password salah atau file rusak"
  | VerificationFailed =>
      Some "Verifikasi gagal: File mungkin rusak atau telah dimodifikasi"
  | RangeError | OperationError | KdfFailure => None
  end%string.

Inductive result (A : Type) : Type :=
| Ok (a : A)
| Err (e : error).
Arguments Ok {A} a.
Arguments Err {A} e.

Definition bind {A B : Type} (c : result A) (k : A -> result B) : result B :=
  match c with
  | Ok a => k a
  | Err e => Err e
  end.

Notation "'do' x <- c ; k" := (bind c (fun x => k))
  (at level 10, x name, c at level 100, k at level 200,
   format "'[v' 'do'  x  <-  c ; '/' k ']'").

(* ================================================================= *)
(** ** Typed arrays and data views *)

Definition bytes : Type := list Init.Byte.byte.

Definition len {A : Type} (l : list A) : Z := Z.of_nat (List.length l).

(** [new Uint8Array(n)]: [n] zero bytes. *)
Definition Uint8Array (n : Z) : bytes := repeat Byte.x00 (Z.to_nat n).

(** The buffer [buf] with [src] copied over it from index [off]. *)
Definition splice (buf src : bytes) (off : Z) : bytes :=
  firstn (Z.to_nat off) buf ++ src ++ skipn (Z.to_nat (off + len src)) buf.

(** [buf.set(src, off)]: a RangeError when the source does not fit. *)
Definition Uint8Array_set (buf src : bytes) (off : Z) : result bytes :=
  if (0 <=? off) && (off + len src <=? len buf)
  then Ok (splice buf src off)
  else Err RangeError.

(** An index argument of [slice], made relative to a length [n]. *)
Definition relative_index (n i : Z) : Z :=
  if i <? 0 then Z.max (n + i) 0 else Z.min i n.

(** [data.slice(s, e)], also [Blob.prototype.slice]: clamped, never throws. *)
Definition Uint8Array_slice (data : bytes) (s e : Z) : bytes :=
  let k := relative_index (len data) s in
  let final := relative_index (len data) e in
  firstn (Z.to_nat (final - k)) (skipn (Z.to_nat k) data).

Definition in_view (data : bytes) (off n : Z) : bool :=
  (0 <=? off) && (off + n <=? len data).

Definition byte_at (data : bytes) (i : Z) : Z :=
  byte.unsigned (nth (Z.to_nat i) data Byte.x00).

(** Big-endian stores. [byte.of_Z] keeps the low eight bits, so the value
    is reduced modulo 2^16 (resp. 2^32, 2^8) as ToUint16 (ToUint32, ToUint8)
    does. *)
Definition be16 (v : Z) : bytes := [byte.of_Z (v / 2 ^ 8); byte.of_Z v].

Definition be32 (v : Z) : bytes :=
  [byte.of_Z (v / 2 ^ 24); byte.of_Z (v / 2 ^ 16); byte.of_Z (v / 2 ^ 8);
   byte.of_Z v].

Definition getUint8 (data : bytes) (off : Z) : result Z :=
  if in_view data off 1 then Ok (byte_at data off) else Err RangeError.

Definition getUint16 (data : bytes) (off : Z) : result Z :=
  if in_view data off 2
  then Ok (byte_at data off * 2 ^ 8 + byte_at data (off + 1))
  else Err RangeError.

Definition getUint32 (data : bytes) (off : Z) : result Z :=
  if in_view data off 4
  then Ok (byte_at data off * 2 ^ 24 + byte_at data (off + 1) * 2 ^ 16
           + byte_at data (off + 2) * 2 ^ 8 + byte_at data (off + 3))
  else Err RangeError.

Definition setUint8 (buf : bytes) (off v : Z) : result bytes :=
  if in_view buf off 1 then Ok (splice buf [byte.of_Z v] off)
  else Err RangeError.

Definition setUint16 (buf : bytes) (off v : Z) : result bytes :=
  if in_view buf off 2 then Ok (splice buf (be16 v) off) else Err RangeError.

Definition setUint32 (buf : bytes) (off v : Z) : result bytes :=
  if in_view buf off 4 then Ok (splice buf (be32 v) off) else Err RangeError.

(** The value a byte sequence denotes when read as a big-endian number. *)
Definition big_endian (bs : bytes) : Z :=
  fold_left (fun acc b => acc * 2 ^ 8 + byte.unsigned b) bs 0.

(** [arr.every((b, i) => p(b, i))]. *)
Definition every {A : Type} (p : A -> Z -> bool) (l : list A) : bool :=
  forallb (fun bi => p (fst bi) (Z.of_nat (snd bi)))
          (combine l (seq 0 (List.length l))).

(* ================================================================= *)
(** ** Strings: TextEncoder, TextDecoder, number formatting *)

(** A string, as the sequence of its code points. *)
Definition ustring : Type := list Z.

Definition of_ascii (s : string) : ustring :=
  map (fun c => Z.of_N (N_of_ascii c)) (list_ascii_of_string s).

Definition REPLACEMENT : Z := 0xFFFD.
Definition BOM : Z := 0xFEFF.

(** Unicode scalar values: code points that are not surrogates. *)
Definition is_scalar (c : Z) : bool :=
  ((0 <=? c) && (c <? 0xD800)) || ((0xE000 <=? c) && (c <=? 0x10FFFF)).

Definition well_formed (s : ustring) : Prop :=
  Forall (fun c => is_scalar c = true) s.

Definition utf8_encode_scalar (c : Z) : bytes :=
  if c <? 0x80 then [byte.of_Z c]
  else if c <? 0x800 then
    [byte.of_Z (0xC0 + c / 2 ^ 6); byte.of_Z (0x80 + c mod 2 ^ 6)]
  else if c <? 0x10000 then
    [byte.of_Z (0xE0 + c / 2 ^ 12); byte.of_Z (0x80 + (c / 2 ^ 6) mod 2 ^ 6);
     byte.of_Z (0x80 + c mod 2 ^ 6)]
  else
    [byte.of_Z (0xF0 + c / 2 ^ 18); byte.of_Z (0x80 + (c / 2 ^ 12) mod 2 ^ 6);
     byte.of_Z (0x80 + (c / 2 ^ 6) mod 2 ^ 6); byte.of_Z (0x80 + c mod 2 ^ 6)].

(** [new TextEncoder().encode(s)]: a lone surrogate is encoded as U+FFFD. *)
Definition TextEncoder_encode (s : ustring) : bytes :=
  flat_map (fun c => utf8_encode_scalar (if is_scalar c then c else REPLACEMENT))
           s.

(** The state of the UTF-8 decoder between two bytes: the code point being
    assembled, the continuation bytes still expected, and the bounds the
    next byte has to respect. *)
Record utf8_state : Type := {
  code_point : Z;
  expected : Z;
  lower : Z;
  upper : Z
}.

Definition utf8_initial : utf8_state :=
  {| code_point := 0; expected := 0; lower := 0x80; upper := 0xBF |}.

(** What the decoder does with byte [v] when no continuation is expected. *)
Definition utf8_lead (v : Z) : ustring * utf8_state :=
  if v <=? 0x7F then ([v], utf8_initial)
  else if (0xC2 <=? v) && (v <=? 0xDF) then
    ([], {| code_point := v mod 2 ^ 5; expected := 1;
            lower := 0x80; upper := 0xBF |})
  else if (0xE0 <=? v) && (v <=? 0xEF) then
    ([], {| code_point := v mod 2 ^ 4; expected := 2;
            lower := if v =? 0xE0 then 0xA0 else 0x80;
            upper := if v =? 0xED then 0x9F else 0xBF |})
  else if (0xF0 <=? v) && (v <=? 0xF4) then
    ([], {| code_point := v mod 2 ^ 3; expected := 3;
            lower := if v =? 0xF0 then 0x90 else 0x80;
            upper := if v =? 0xF4 then 0x8F else 0xBF |})
  else ([REPLACEMENT], utf8_initial).

Fixpoint utf8_decode (st : utf8_state) (bs : bytes) : ustring :=
  match bs with
  | [] => if expected st =? 0 then [] else [REPLACEMENT]
  | b :: rest =>
      let v := byte.unsigned b in
      if expected st =? 0 then
        fst (utf8_lead v) ++ utf8_decode (snd (utf8_lead v)) rest
      else if (lower st <=? v) && (v <=? upper st) then
        let c := code_point st * 2 ^ 6 + v mod 2 ^ 6 in
        if expected st =? 1 then c :: utf8_decode utf8_initial rest
        else utf8_decode {| code_point := c; expected := expected st - 1;
                            lower := 0x80; upper := 0xBF |} rest
      else
        (* an ill-formed sequence: U+FFFD, and the byte is read again *)
        REPLACEMENT :: fst (utf8_lead v) ++ utf8_decode (snd (utf8_lead v)) rest
  end.

(** [new TextDecoder().decode(bs)]: UTF-8, errors replaced, and (ignoreBOM
    being false by default) a leading byte order mark dropped. *)
Definition TextDecoder_decode (bs : bytes) : ustring :=
  match utf8_decode utf8_initial bs with
  | c :: s => if c =? BOM then s else c :: s
  | [] => []
  end.

(** The decimal digits of a positive number, most significant first. *)
Fixpoint digits (fuel : nat) (n : Z) (acc : ustring) : ustring :=
  match fuel with
  | O => acc
  | S fuel' =>
      let acc' := (48 + n mod 10) :: acc in
      if n / 10 =? 0 then acc' else digits fuel' (n / 10) acc'
  end.

(** Number::toString as a template literal applies it, on a safe integer
    (one of absolute value below 2^53): its decimal digits. Larger Numbers
    are printed with the shortest digits that read back, and from 10^21 on
    with an exponent; they are outside this definition. *)
Definition Number_toString (n : Z) : ustring :=
  if n <? 0 then 45 :: digits (S (Z.to_nat (Z.log2 (- n)))) (- n) []
  else digits (S (Z.to_nat (Z.log2 n))) n [].

Definition hex_digit (n : Z) : ascii :=
  ascii_of_N (Z.to_N (if n <? 10 then 48 + n else 87 + n)).

Definition hex (bs : bytes) : string :=
  string_of_list_ascii
    (flat_map (fun b => [hex_digit (byte.unsigned b / 16);
                         hex_digit (byte.unsigned b mod 16)]) bs).

(* ================================================================= *)
(** ** The platform *)

Inductive Algorithm : Type := AES_GCM | ChaCha20_Poly1305.

Inductive KDF : Type := Argon2id.

(** The cryptography the engine calls and does not implement.
    - [sha256] is [crypto.subtle.digest('SHA-256', data)].
    - [argon2id password salt iterations memorySize parallelism] is
      hash-wasm's [argon2id] with [hashLength: 32]; [None] when it throws.
    - [seal] and [unseal] are the AEAD with a 128-bit tag and no associated
      data, [unseal] giving [None] when the tag does not verify. The source's
      [encryptChunk] and [decryptChunk] are AES-GCM whatever the header says;
      the worker hands them the algorithm as a further argument, so the
      cipher is indexed by it here and both readings are instances. *)
Class Platform : Type := {
  sha256 : bytes -> bytes;
  argon2id : string -> bytes -> Z -> Z -> Z -> option bytes;
  seal : Algorithm -> bytes -> bytes -> bytes -> bytes;
  unseal : Algorithm -> bytes -> bytes -> bytes -> option bytes
}.

(** The random source behind [crypto.getRandomValues]: an unbounded stream
    of bytes and the position of the next unread one. *)
Record rng : Type := {
  stream : nat -> Init.Byte.byte;
  cursor : nat
}.

(* ================================================================= *)
(** ** crypto-utils.ts *)

Definition MAGIC_BYTES : bytes := [Byte.x53; Byte.x4b; Byte.x54; Byte.x41].
Definition FORMAT_VERSION : Z := 0x0001.
Definition CHUNK_SIZE : Z := 4 * 1024 * 1024.

Record FileHeader : Type := {
  magic : bytes;
  version : Z;
  algorithm : Algorithm;
  kdf : KDF;
  kdfMemory : Z;
  kdfIterations : Z;
  kdfParallelism : Z;
  salt : bytes;
  chunkSize : Z;
  originalFilename : ustring;
  originalSize : Z;
  totalChunks : Z
}.

(** The worker's header type: a [FileHeader] that also carries the hash of
    the plaintext. Only its use is under [src/]; the field list is taken from
    the object literal in [encryptFile]. *)
Record FileHeaderV2 : Type := {
  base :> FileHeader;
  originalHash : string
}.

Definition generateRandomBytes (length : Z) (g : rng) : bytes * rng :=
  (map (stream g) (seq (cursor g) (Z.to_nat length)),
   {| stream := stream g; cursor := (cursor g + Z.to_nat length)%nat |}).

Definition generateSalt (g : rng) : bytes * rng := generateRandomBytes 32 g.

Definition generateNonce (g : rng) : bytes * rng := generateRandomBytes 12 g.

Definition deriveChunkNonce (masterNonce : bytes) (chunkIndex : Z)
  : result bytes :=
  let nonce := Uint8Array 12 in
  do nonce <- Uint8Array_set nonce (Uint8Array_slice masterNonce 0 8) 0;
  do nonce <- setUint32 nonce 8 chunkIndex;
  Ok nonce.

Section Engine.

Context {platform : Platform}.

(** A [CryptoKey] is modelled by its raw bytes, which is what [exportKey]
    returns and [importKey] wraps. The worker's [deriveChunkKeyBytes] and
    [deriveKeyArgon2Bytes] are these two functions without the wrapping. *)
Definition deriveChunkKey (masterKey : bytes) (chunkIndex : Z) : result bytes :=
  let masterKeyBytes := masterKey in
  let info :=
    TextEncoder_encode (of_ascii "chunk-" ++ Number_toString chunkIndex) in
  let combined := Uint8Array (len masterKeyBytes + len info) in
  do combined <- Uint8Array_set combined masterKeyBytes 0;
  do combined <- Uint8Array_set combined info (len masterKeyBytes);
  let chunkKeyBytes := sha256 combined in
  Ok chunkKeyBytes.

Definition deriveKeyArgon2 (password : string) (salt : bytes)
    (memory iterations parallelism : Z) : result bytes :=
  match argon2id password salt iterations memory parallelism with
  | Some hash => Ok hash
  | None => Err KdfFailure
  end.

Definition encryptChunk (data key nonce : bytes) (algorithm : Algorithm)
  : result bytes :=
  Ok (seal algorithm key nonce data).

Definition decryptChunk (data key nonce : bytes) (algorithm : Algorithm)
  : result bytes :=
  match unseal algorithm key nonce data with
  | Some decrypted => Ok decrypted
  | None => Err OperationError
  end.

(** Modelled from the spec: [calculateHash], which the worker imports from
    crypto-utils and is not under [src/]. The spec (4.3.3) has the plaintext
    hash as SHA-256 of the bytes, given to callers as 64 lowercase
    hexadecimal characters. *)
Definition calculateHash (data : bytes) : string := hex (sha256 data).

End Engine.

Definition serializeHeader (header : FileHeader) : result bytes :=
  let filenameBytes := TextEncoder_encode (originalFilename header) in
  let headerSize :=
    4 + 2 + 1 + 1 + 4 + 4 + 1 + 32 + 4 + 4 + 4 + 2 + len filenameBytes in
  let bytes := Uint8Array headerSize in
  let offset := 0 in
  do bytes <- Uint8Array_set bytes (magic header) offset;
  let offset := offset + 4 in
  do bytes <- setUint16 bytes offset (version header);
  let offset := offset + 2 in
  do bytes <- setUint8 bytes offset
                (match algorithm header with AES_GCM => 0 | _ => 1 end);
  let offset := offset + 1 in
  do bytes <- setUint8 bytes offset 0;
  let offset := offset + 1 in
  do bytes <- setUint32 bytes offset (kdfMemory header);
  let offset := offset + 4 in
  do bytes <- setUint32 bytes offset (kdfIterations header);
  let offset := offset + 4 in
  do bytes <- setUint8 bytes offset (kdfParallelism header);
  let offset := offset + 1 in
  do bytes <- Uint8Array_set bytes (salt header) offset;
  let offset := offset + 32 in
  do bytes <- setUint32 bytes offset (chunkSize header);
  let offset := offset + 4 in
  do bytes <- setUint32 bytes offset (originalSize header);
  let offset := offset + 4 in
  do bytes <- setUint32 bytes offset (totalChunks header);
  let offset := offset + 4 in
  do bytes <- setUint16 bytes offset (len filenameBytes);
  let offset := offset + 2 in
  do bytes <- Uint8Array_set bytes filenameBytes offset;
  Ok bytes.

Definition deserializeHeader (data : bytes) : result FileHeader :=
  let offset := 0 in
  let magic := Uint8Array_slice data offset (offset + 4) in
  let offset := offset + 4 in
  if negb (every (fun b i =>
                    match nth_error MAGIC_BYTES (Z.to_nat i) with
                    | Some m => Byte.eqb b m
                    | None => false
                    end) magic)
  then Err InvalidFileFormat
  else
    do version <- getUint16 data offset;
    let offset := offset + 2 in
    do algoId <- getUint8 data offset;
    let algorithm := if algoId =? 0 then AES_GCM else ChaCha20_Poly1305 in
    let offset := offset + 1 in
    do kdfId <- getUint8 data offset;
    let kdf := Argon2id in
    let offset := offset + 1 in
    do kdfMemory <- getUint32 data offset;
    let offset := offset + 4 in
    do kdfIterations <- getUint32 data offset;
    let offset := offset + 4 in
    do kdfParallelism <- getUint8 data offset;
    let offset := offset + 1 in
    let salt := Uint8Array_slice data offset (offset + 32) in
    let offset := offset + 32 in
    do chunkSize <- getUint32 data offset;
    let offset := offset + 4 in
    do originalSize <- getUint32 data offset;
    let offset := offset + 4 in
    do totalChunks <- getUint32 data offset;
    let offset := offset + 4 in
    do filenameLength <- getUint16 data offset;
    let offset := offset + 2 in
    let filenameBytes := Uint8Array_slice data offset (offset + filenameLength) in
    let originalFilename := TextDecoder_decode filenameBytes in
    Ok {| magic := magic; version := version; algorithm := algorithm;
          kdf := kdf; kdfMemory := kdfMemory; kdfIterations := kdfIterations;
          kdfParallelism := kdfParallelism; salt := salt;
          chunkSize := chunkSize; originalFilename := originalFilename;
          originalSize := originalSize; totalChunks := totalChunks |}.

Definition getHeaderSize (data : bytes) : result Z :=
  let fixedSize := 4 + 2 + 1 + 1 + 4 + 4 + 1 + 32 + 4 + 4 + 4 + 2 in
  do filenameLength <- getUint16 data 56;
  Ok (fixedSize + filenameLength).

(* ================================================================= *)
(** ** crypto-worker.ts *)

(** A [File]: its name and its bytes. *)
Record File : Type := {
  name : ustring;
  content : bytes
}.

Definition size (file : File) : Z := len (content file).

Definition File_slice (file : File) (s e : Z) : bytes :=
  Uint8Array_slice (content file) s e.

Module EncryptResult.
Record t : Type := {
  blob : bytes;
  filename : ustring;
  originalHash : string
}.
End EncryptResult.

Module DecryptResult.
Record t : Type := {
  blob : bytes;
  filename : ustring;
  verified : bool;
  originalHash : option string;
  decryptedHash : option string
}.
End DecryptResult.

(** [Math.ceil(a / b)] for integers [a >= 0] and [b > 0]. The quotient of the
    source is a double; it is exact here because [b] is [CHUNK_SIZE], a power
    of two, and sizes are below 2^53. *)
Definition Math_ceil_div (a b : Z) : Z :=
  if a mod b =? 0 then a / b else a / b + 1.

(** The reading loop of [hashFileData]: [fuel] iterations from index [i]. *)
Fixpoint read_chunks (file : File) (fuel : nat) (i : Z) : list bytes :=
  match fuel with
  | O => []
  | S fuel' =>
      let start := i * CHUNK_SIZE in
      let end_ := Z.min (start + CHUNK_SIZE) (size file) in
      let chunkData := File_slice file start end_ in
      chunkData :: read_chunks file fuel' (i + 1)
  end.

(** [for (const chunk of chunks) { combined.set(chunk, offset); offset +=
    chunk.length }]. *)
Fixpoint copy_chunks (chunks : list bytes) (combined : bytes) (offset : Z)
  : result bytes :=
  match chunks with
  | [] => Ok combined
  | chunk :: rest =>
      do combined <- Uint8Array_set combined chunk offset;
      copy_chunks rest combined (offset + len chunk)
  end.

Definition combine_chunks (chunks : list bytes) : result bytes :=
  let totalSize := fold_left (fun acc chunk => acc + len chunk) chunks 0 in
  copy_chunks chunks (Uint8Array totalSize) 0.

(** The object [deserializeHeader] returns has no [originalHash] property:
    reading it gives [undefined]. *)
Definition property_originalHash (header : FileHeader) : option string := None.

(** A chunk record: [4 bytes length][12 bytes nonce][ciphertext with tag]. *)
Definition chunk_record (chunkNonce encryptedChunk : bytes) : result bytes :=
  let chunkRecord := Uint8Array (4 + 12 + len encryptedChunk) in
  do chunkRecord <- setUint32 chunkRecord 0 (len encryptedChunk);
  do chunkRecord <- Uint8Array_set chunkRecord chunkNonce 4;
  do chunkRecord <- Uint8Array_set chunkRecord encryptedChunk 16;
  Ok chunkRecord.

Section Worker.

Context {platform : Platform}.

Definition hashFileData (file : File) : result (string * list bytes) :=
  let totalChunks := Math_ceil_div (size file) CHUNK_SIZE in
  let chunks := read_chunks file (Z.to_nat totalChunks) 0 in
  do combined <- combine_chunks chunks;
  let hash := calculateHash combined in
  Ok (hash, chunks).

(** The encryption loop of [encryptFile]. It visits [fileChunks[i]] for [i]
    from 0 to [fileChunks.length - 1]; [fileChunks] below is what is left to
    visit, [i] the index of its head, [chunks] the records pushed so far. *)
Fixpoint encrypt_chunks (masterKeyBytes masterNonce : bytes)
    (algorithm : Algorithm) (i : Z) (fileChunks chunks : list bytes)
  : result (list bytes) :=
  match fileChunks with
  | [] => Ok chunks
  | chunkData :: rest =>
      do chunkKeyBytes <- deriveChunkKey masterKeyBytes i;
      do chunkNonce <- deriveChunkNonce masterNonce i;
      do encryptedChunk <-
         encryptChunk chunkData chunkKeyBytes chunkNonce algorithm;
      do chunkRecord <- chunk_record chunkNonce encryptedChunk;
      encrypt_chunks masterKeyBytes masterNonce algorithm (i + 1) rest
                     (chunks ++ [chunkRecord])
  end.

Definition default (d : Z) (o : option Z) : Z :=
  match o with
  | Some v => v
  | None => d
  end.

(** The array [chunks] of [encryptFile] when its loop ends (the serialized
    header, then one record per chunk), with the hash of the plaintext. *)
Definition encryptFile_chunks (file : File) (password : string)
    (algorithm : Algorithm) (kdfMemory kdfIterations kdfParallelism : option Z)
    (g : rng) : result (list bytes * string) :=
  let kdfMemory := default 65536 kdfMemory in
  let kdfIterations := default 3 kdfIterations in
  let kdfParallelism := default 4 kdfParallelism in
  do hashed <- hashFileData file;
  let originalHash := fst hashed in
  let fileChunks := snd hashed in
  let salt := fst (generateSalt g) in
  let masterNonce := fst (generateNonce (snd (generateSalt g))) in
  do masterKeyBytes <-
     deriveKeyArgon2 password salt kdfMemory kdfIterations kdfParallelism;
  let totalChunks := len fileChunks in
  let header :=
    {| base := {| magic := MAGIC_BYTES; version := FORMAT_VERSION;
                  algorithm := algorithm; kdf := Argon2id;
                  kdfMemory := kdfMemory; kdfIterations := kdfIterations;
                  kdfParallelism := kdfParallelism; salt := salt;
                  chunkSize := CHUNK_SIZE; originalFilename := name file;
                  originalSize := size file; totalChunks := totalChunks |};
       originalHash := originalHash |} in
  do headerBytes <- serializeHeader header;
  do chunks <-
     encrypt_chunks masterKeyBytes masterNonce algorithm 0 fileChunks
                    [headerBytes];
  Ok (chunks, originalHash).

Definition encryptFile (file : File) (password : string)
    (algorithm : Algorithm) (kdfMemory kdfIterations kdfParallelism : option Z)
    (g : rng) : result EncryptResult.t :=
  do r <- encryptFile_chunks file password algorithm kdfMemory kdfIterations
                             kdfParallelism g;
  Ok {| EncryptResult.blob := List.concat (fst r);
        EncryptResult.filename := name file ++ of_ascii ".skita";
        EncryptResult.originalHash := snd r |}.

(** The decryption loop of [decryptFile]: [fuel] iterations are left, the
    next one has index [i] and reads its record at [offset]. *)
Fixpoint decrypt_chunks (file : File) (masterKeyBytes : bytes)
    (algorithm : Algorithm) (fuel : nat) (i offset : Z)
    (decryptedChunks : list bytes) : result (list bytes) :=
  match fuel with
  | O => Ok decryptedChunks
  | S fuel' =>
      let chunkHeaderData := File_slice file offset (offset + 16) in
      do encryptedLength <- getUint32 chunkHeaderData 0;
      let chunkNonce := Uint8Array_slice chunkHeaderData 4 16 in
      let encryptedData :=
        File_slice file (offset + 16) (offset + 16 + encryptedLength) in
      do chunkKeyBytes <- deriveChunkKey masterKeyBytes i;
      match decryptChunk encryptedData chunkKeyBytes chunkNonce algorithm with
      | Ok decryptedChunk =>
          decrypt_chunks file masterKeyBytes algorithm fuel' (i + 1)
                         (offset + 16 + encryptedLength)
                         (decryptedChunks ++ [decryptedChunk])
      | Err _ => Err DecryptionFailed
      end
  end.

Definition decryptFile (file : File) (password : string)
  : result DecryptResult.t :=
  let headerData := File_slice file 0 2048 in
  do header <- deserializeHeader headerData;
  do headerSize <- getHeaderSize headerData;
  do masterKeyBytes <-
     deriveKeyArgon2 password (salt header) (kdfMemory header)
                     (kdfIterations header) (kdfParallelism header);
  do decryptedChunks <-
     decrypt_chunks file masterKeyBytes (algorithm header)
                    (Z.to_nat (totalChunks header)) 0 headerSize [];
  match property_originalHash header with
  | Some expected =>
      if String.eqb expected "" then
        Ok {| DecryptResult.blob := List.concat decryptedChunks;
              DecryptResult.filename := originalFilename header;
              DecryptResult.verified := false;
              DecryptResult.originalHash := Some expected;
              DecryptResult.decryptedHash := None |}
      else
        do combined <- combine_chunks decryptedChunks;
        let decryptedHash := calculateHash combined in
        let verified := String.eqb decryptedHash expected in
        if negb verified then Err VerificationFailed
        else
          Ok {| DecryptResult.blob := List.concat decryptedChunks;
                DecryptResult.filename := originalFilename header;
                DecryptResult.verified := verified;
                DecryptResult.originalHash := Some expected;
                DecryptResult.decryptedHash := Some decryptedHash |}
  | None =>
      Ok {| DecryptResult.blob := List.concat decryptedChunks;
            DecryptResult.filename := originalFilename header;
            DecryptResult.verified := false;
            DecryptResult.originalHash := None;
            DecryptResult.decryptedHash := None |}
  end.

End Worker.

(* ================================================================= *)
(** ** A platform to run the model on

    A transparent stand-in for the browser's cryptography, with the shape of
    the real one (32-byte digests and keys, a 16-byte tag after the
    ciphertext, a tag that depends on the key) and none of its security. *)

Definition checksum (data : bytes) : bytes :=
  repeat (byte.of_Z (fold_left (fun acc b => acc + byte.unsigned b) data 0)) 32.

Definition stand_in_tag (key : bytes) : bytes :=
  firstn 16 (key ++ repeat Byte.x00 16).

Definition stand_in_unseal (key data : bytes) : option bytes :=
  let n := (List.length data - 16)%nat in
  if (16 <=? len data)
     && forallb (fun p => Byte.eqb (fst p) (snd p))
                (combine (skipn n data) (stand_in_tag key))
  then Some (firstn n data)
  else None.

#[local] Instance stand_in : Platform := {|
  sha256 := checksum;
  argon2id := fun password salt iterations memory parallelism =>
    if (1 <=? iterations) && (8 <=? memory) && (1 <=? parallelism)
    then Some (checksum (list_byte_of_string password ++ salt))
    else None;
  seal := fun _ key _ data => data ++ stand_in_tag key;
  unseal := fun _ key _ data => stand_in_unseal key data
|}.

Definition zero_rng : rng := {| stream := fun _ => Byte.x00; cursor := 0 |}.

Definition hello : File :=
  {| name := of_ascii "hello.txt";
     content := list_byte_of_string "hello" |}.

(* ================================================================= *)
(** ** crypto-utils.ts: password strength and passphrases *)

(** [s.length]: the number of UTF-16 code units of [s], two for a code
    point outside the basic plane. *)
Fixpoint String_length (s : ustring) : Z :=
  match s with
  | [] => 0
  | c :: rest => (if 0x10000 <=? c then 2 else 1) + String_length rest
  end.

(** [/[...]/.test(s)] for a character class given by its predicate. The
    expressions of the source have no [u] flag and so look at code units;
    for their classes that makes no difference, the two surrogates of a
    code point outside the basic plane being, like that code point, no
    ASCII letter and no digit. *)
Definition RegExp_test (class : Z -> bool) (s : ustring) : bool :=
  existsb class s.

Definition lowercase (c : Z) : bool := (97 <=? c) && (c <=? 122).
Definition uppercase (c : Z) : bool := (65 <=? c) && (c <=? 90).
Definition digit (c : Z) : bool := (48 <=? c) && (c <=? 57).
Definition symbol (c : Z) : bool :=
  negb (lowercase c || uppercase c || digit c).

(** [s.includes(' ')] and [s.split(' ').length]. *)
Definition includes_space (s : ustring) : bool := existsb (Z.eqb 32) s.

Definition split_space_length (s : ustring) : Z :=
  1 + len (filter (Z.eqb 32) s).

Inductive Label : Type :=
| Sangat_Lemah
| Lemah
| Sedang
| Kuat
| Sangat_Kuat.

(** The suggestions [checkPasswordStrength] can push, in the order of the
    source: 'Minimal 8 karakter', 'Tambahkan huruf kecil', 'Tambahkan huruf
    besar', 'Tambahkan angka', 'Tambahkan simbol (!@#$%...)' and the one
    that starts 'Coba passphrase:'. *)
Inductive Suggestion : Type :=
| Minimal_8_karakter
| Tambahkan_huruf_kecil
| Tambahkan_huruf_besar
| Tambahkan_angka
| Tambahkan_simbol
| Coba_passphrase.

Record PasswordStrength : Type := {
  score : Z;
  label : Label;
  suggestions : list Suggestion
}.

Definition checkPasswordStrength (password : ustring) : PasswordStrength :=
  let score := 0 in
  let suggestions := [] in
  (* Length score *)
  let suggestions :=
    if 8 <=? String_length password then suggestions
    else suggestions ++ [Minimal_8_karakter] in
  let score := if 8 <=? String_length password then score + 20 else score in
  let score := if 12 <=? String_length password then score + 10 else score in
  let score := if 16 <=? String_length password then score + 10 else score in
  let score := if 20 <=? String_length password then score + 10 else score in
  (* Character variety *)
  let suggestions :=
    if RegExp_test lowercase password then suggestions
    else suggestions ++ [Tambahkan_huruf_kecil] in
  let score := if RegExp_test lowercase password then score + 10 else score in
  let suggestions :=
    if RegExp_test uppercase password then suggestions
    else suggestions ++ [Tambahkan_huruf_besar] in
  let score := if RegExp_test uppercase password then score + 10 else score in
  let suggestions :=
    if RegExp_test digit password then suggestions
    else suggestions ++ [Tambahkan_angka] in
  let score := if RegExp_test digit password then score + 10 else score in
  let suggestions :=
    if RegExp_test symbol password then suggestions
    else suggestions ++ [Tambahkan_simbol] in
  let score := if RegExp_test symbol password then score + 10 else score in
  (* Bonus for passphrase-like patterns (multiple words) *)
  let bonus :=
    includes_space password && (3 <=? split_space_length password) in
  let suggestions :=
    if bonus then suggestions
    else if String_length password <? 16
         then suggestions ++ [Coba_passphrase]
         else suggestions in
  let score := if bonus then score + 10 else score in
  (* Cap at 100 *)
  let score := Z.min 100 score in
  let label :=
    if score <? 30 then Sangat_Lemah
    else if score <? 50 then Lemah
    else if score <? 70 then Sedang
    else if score <? 90 then Kuat
    else Sangat_Kuat in
  {| score := score; label := label; suggestions := firstn 3 suggestions |}.

Definition WORD_LIST : list string :=
  ["apel"; "buku"; "cinta"; "daun"; "elang"; "foto"; "gitar"; "hujan";
   "ikan"; "jeruk"; "kopi"; "langit"; "malam"; "naga"; "ombak"; "pantai";
   "raja"; "sinar"; "taman"; "udara"; "violet"; "warna"; "yakin"; "zebra";
   "awan"; "bunga"; "cahaya"; "danau"; "embun"; "fajar"; "gunung"; "harum";
   "indah"; "jalan"; "kupu"; "laut"; "mentari"; "nyala"; "oasis";
   "pelangi"]%string.

(** [words.join(sep)]. *)
Fixpoint join (sep : ustring) (words : list ustring) : ustring :=
  match words with
  | [] => []
  | word :: rest =>
      match rest with
      | [] => word
      | _ :: _ => word ++ sep ++ join sep rest
      end
  end.

(** [generatePassphrase(wordCount)], for a count from 0 to 65536 (beyond
    it [crypto.getRandomValues] refuses the request): the passphrase, and
    the random source after the draw. *)
Definition generatePassphrase (wordCount : Z) (g : rng) : ustring * rng :=
  let randomValues := fst (generateRandomBytes wordCount g) in
  let words :=
    map (fun value =>
           let index := byte.unsigned value mod len WORD_LIST in
           of_ascii (nth (Z.to_nat index) WORD_LIST ""%string))
        randomValues in
  (join (of_ascii " ") words, snd (generateRandomBytes wordCount g)).

(* ================================================================= *)
(** ** crypto-worker.ts with its callbacks

    The embedding of [hashFileData], [encryptFile] and [decryptFile] above
    leaves their progress callback out and takes every read of the file and
    every call of the AEAD on a chunk to go through. Here they are with the
    callback, with reads that can be refused and an AEAD that can refuse to
    seal, followed by the batch functions with their three callbacks. A
    callback returns or throws; it is given what the source computes,
    progress values included. These are Numbers: the arithmetic that makes
    them is the platform's. *)

(** What can be thrown: an error of the engine, another [Error] object
    (by its message), or a value that is not an [Error] (by the string
    [String(value)] makes of it). *)
Inductive exception : Type :=
| engine (e : error)
| an_Error (message : ustring)
| not_an_Error (text : ustring).

Inductive outcome (A : Type) : Type :=
| Returned (a : A)
| Threw (x : exception).
Arguments Returned {A} a.
Arguments Threw {A} x.

Definition and_then {A B : Type} (c : outcome A) (k : A -> outcome B)
  : outcome B :=
  match c with
  | Returned a => k a
  | Threw x => Threw x
  end.

Notation "'run' x <- c ; k" := (and_then c (fun x => k))
  (at level 10, x name, c at level 100, k at level 200,
   format "'[v' 'run'  x  <-  c ; '/' k ']'").

(** A step of the engine, inside code that can also throw other things. *)
Definition lift {A : Type} (c : result A) : outcome A :=
  match c with
  | Ok a => Returned a
  | Err e => Threw (engine e)
  end.

(** [error instanceof Error ? error : new Error(String(error))]. *)
Definition as_Error (error : exception) : exception :=
  match error with
  | not_an_Error text => an_Error text
  | engine _ | an_Error _ => error
  end.

(** [callback?.(a)], [callback?.(a, b)] and [callback?.(a, b, c)]. *)
Definition call1 {A : Type} (callback : option (A -> outcome unit)) (a : A)
  : outcome unit :=
  match callback with
  | Some f => f a
  | None => Returned tt
  end.

Definition call2 {A B : Type} (callback : option (A -> B -> outcome unit))
    (a : A) (b : B) : outcome unit :=
  match callback with
  | Some f => f a b
  | None => Returned tt
  end.

Definition call3 {A B C : Type}
    (callback : option (A -> B -> C -> outcome unit)) (a : A) (b : B) (c : C)
  : outcome unit :=
  match callback with
  | Some f => f a b c
  | None => Returned tt
  end.

(** The arithmetic of Numbers, IEEE 754 binary64 in a browser: the Number
    an integer denotes, [+], [*], [/], and the literal [0.1]. *)
Class Arithmetic : Type := {
  Number : Type;
  Number_of_Z : Z -> Number;
  Number_add : Number -> Number -> Number;
  Number_mul : Number -> Number -> Number;
  Number_div : Number -> Number -> Number;
  Number_0_1 : Number
}.

(** Binary64 with rounding to nearest, on the primitive floats of Rocq. The
    literal [0.1] is the double nearest to one tenth, which is what the
    division of 1 by 10 rounds to. *)
#[local] Instance binary64 : Arithmetic := {|
  Number := PrimFloat.float;
  Number_of_Z := fun z => PrimFloat.of_uint63 (Uint63.of_Z z);
  Number_add := PrimFloat.add;
  Number_mul := PrimFloat.mul;
  Number_div := PrimFloat.div;
  Number_0_1 :=
    PrimFloat.div (PrimFloat.of_uint63 (Uint63.of_Z 1))
                  (PrimFloat.of_uint63 (Uint63.of_Z 10))
|}.

(** [header.algorithm], a string in the source. *)
Definition Algorithm_name (a : Algorithm) : ustring :=
  match a with
  | AES_GCM => of_ascii "AES-GCM"
  | ChaCha20_Poly1305 => of_ascii "ChaCha20-Poly1305"
  end.

(** What the platform can refuse, and what it then throws. The promise of
    [slice.arrayBuffer()] is rejected when the file can no longer be read,
    and that of [crypto.subtle.encrypt] when the data cannot be sealed;
    [None] stands for an operation that goes through. *)
Class Refusals : Type := {
  arrayBuffer_rejects : File -> Z -> Z -> option exception;
  encrypt_rejects : Algorithm -> bytes -> bytes -> bytes -> option exception
}.

(** A platform that refuses nothing. *)
#[local] Instance no_refusal : Refusals := {|
  arrayBuffer_rejects := fun _ _ _ => None;
  encrypt_rejects := fun _ _ _ _ => None
|}.

(** The random source once [encryptFile] has drawn its salt and its master
    nonce. *)
Definition rng_after_encryptFile (g : rng) : rng :=
  snd (generateNonce (snd (generateSalt g))).

Module Reporting.

Section Worker.

Context {platform : Platform} {arithmetic : Arithmetic}.
Context {refusals : Refusals}.

(** [new Uint8Array(await file.slice(s, e).arrayBuffer())]. *)
Definition arrayBuffer (file : File) (s e : Z) : outcome bytes :=
  match arrayBuffer_rejects file s e with
  | Some x => Threw x
  | None => Returned (File_slice file s e)
  end.

(** [encryptChunk], whose promise is that of [crypto.subtle.encrypt]. *)
Definition encryptChunk (data key nonce : bytes) (algorithm : Algorithm)
  : outcome bytes :=
  match encrypt_rejects algorithm key nonce data with
  | Some x => Threw x
  | None => lift (encryptChunk data key nonce algorithm)
  end.

(** The reading loop of [hashFileData], with the call of [onProgress] that
    ends each iteration. *)
Fixpoint read_chunks (file : File) (totalChunks : Z)
    (onProgress : option (Number -> outcome unit)) (fuel : nat) (i : Z)
    (chunks : list bytes) : outcome (list bytes) :=
  match fuel with
  | O => Returned chunks
  | S fuel' =>
      let start := i * CHUNK_SIZE in
      let end_ := Z.min (start + CHUNK_SIZE) (size file) in
      run chunkData <- arrayBuffer file start end_;
      let chunks := chunks ++ [chunkData] in
      run _ <- call1 onProgress
                 (Number_mul (Number_div (Number_of_Z (i + 1))
                                         (Number_of_Z totalChunks))
                             (Number_of_Z 100));
      read_chunks file totalChunks onProgress fuel' (i + 1) chunks
  end.

Definition hashFileData (file : File)
    (onProgress : option (Number -> outcome unit))
  : outcome (string * list bytes) :=
  let totalChunks := Math_ceil_div (size file) CHUNK_SIZE in
  run chunks <- read_chunks file totalChunks onProgress
                            (Z.to_nat totalChunks) 0 [];
  run combined <- lift (combine_chunks chunks);
  let hash := calculateHash combined in
  Returned (hash, chunks).

(** The encryption loop of [encryptFile], with the call of [onProgress]
    that ends each iteration. *)
Fixpoint encrypt_chunks (masterKeyBytes masterNonce : bytes)
    (algorithm : Algorithm) (totalChunks : Z)
    (onProgress : option (Number -> ustring -> outcome unit)) (i : Z)
    (fileChunks chunks : list bytes) : outcome (list bytes) :=
  match fileChunks with
  | [] => Returned chunks
  | chunkData :: rest =>
      run chunkKeyBytes <- lift (deriveChunkKey masterKeyBytes i);
      run chunkNonce <- lift (deriveChunkNonce masterNonce i);
      run encryptedChunk <-
         encryptChunk chunkData chunkKeyBytes chunkNonce algorithm;
      run chunkRecord <- lift (chunk_record chunkNonce encryptedChunk);
      let chunks := chunks ++ [chunkRecord] in
      let progress :=
        Number_add (Number_of_Z 20)
                   (Number_div (Number_mul (Number_of_Z 80)
                                           (Number_of_Z (i + 1)))
                               (Number_of_Z totalChunks)) in
      run _ <- call2 onProgress progress
                 (of_ascii "Encrypting chunk " ++ Number_toString (i + 1)
                  ++ of_ascii "/" ++ Number_toString totalChunks
                  ++ of_ascii "...");
      encrypt_chunks masterKeyBytes masterNonce algorithm totalChunks
                     onProgress (i + 1) rest chunks
  end.

(** [encryptFile]: what the call returns or throws, and the random source
    after it. Salt and master nonce are drawn once the file is read and the
    callback has returned from the calls made until then. *)
Definition encryptFile (file : File) (password : string)
    (algorithm : Algorithm) (kdfMemory kdfIterations kdfParallelism : option Z)
    (onProgress : option (Number -> ustring -> outcome unit)) (g : rng)
  : outcome EncryptResult.t * rng :=
  let kdfMemory := default 65536 kdfMemory in
  let kdfIterations := default 3 kdfIterations in
  let kdfParallelism := default 4 kdfParallelism in
  let reading :=
    run _ <- call2 onProgress (Number_of_Z 0)
               (of_ascii "Menghitung hash file asli...");
    run hashed <-
       hashFileData file
         (Some (fun p => call2 onProgress (Number_mul p Number_0_1)
                               (of_ascii "Menghitung hash file asli...")));
    run _ <- call2 onProgress (Number_of_Z 10) (of_ascii "Generating salt...");
    Returned hashed in
  match reading with
  | Threw x => (Threw x, g)
  | Returned hashed =>
      let originalHash := fst hashed in
      let fileChunks := snd hashed in
      let salt := fst (generateSalt g) in
      let masterNonce := fst (generateNonce (snd (generateSalt g))) in
      (run _ <- call2 onProgress (Number_of_Z 12)
                  (of_ascii "Deriving key with Argon2id...");
       run masterKeyBytes <-
          lift (deriveKeyArgon2 password salt kdfMemory kdfIterations
                                kdfParallelism);
       run _ <- call2 onProgress (Number_of_Z 20)
                  (of_ascii "Preparing encryption...");
       let totalChunks := len fileChunks in
       let header :=
         {| base := {| magic := MAGIC_BYTES; version := FORMAT_VERSION;
                       algorithm := algorithm; kdf := Argon2id;
                       kdfMemory := kdfMemory;
                       kdfIterations := kdfIterations;
                       kdfParallelism := kdfParallelism; salt := salt;
                       chunkSize := CHUNK_SIZE;
                       originalFilename := name file;
                       originalSize := size file;
                       totalChunks := totalChunks |};
            originalHash := originalHash |} in
       run headerBytes <- lift (serializeHeader header);
       run chunks <-
          encrypt_chunks masterKeyBytes masterNonce algorithm totalChunks
                         onProgress 0 fileChunks [headerBytes];
       run _ <- call2 onProgress (Number_of_Z 100) (of_ascii "Complete!");
       Returned {| EncryptResult.blob := List.concat chunks;
                   EncryptResult.filename := name file ++ of_ascii ".skita";
                   EncryptResult.originalHash := originalHash |},
       rng_after_encryptFile g)
  end.

(** The decryption loop of [decryptFile], with the call of [onProgress]
    that ends each iteration, outside the [try]. *)
Fixpoint decrypt_chunks (file : File) (masterKeyBytes : bytes)
    (algorithm : Algorithm) (totalChunks : Z)
    (onProgress : option (Number -> ustring -> outcome unit))
    (fuel : nat) (i offset : Z) (decryptedChunks : list bytes)
  : outcome (list bytes) :=
  match fuel with
  | O => Returned decryptedChunks
  | S fuel' =>
      run chunkHeaderData <- arrayBuffer file offset (offset + 16);
      run encryptedLength <- lift (getUint32 chunkHeaderData 0);
      let chunkNonce := Uint8Array_slice chunkHeaderData 4 16 in
      run encryptedData <-
         arrayBuffer file (offset + 16) (offset + 16 + encryptedLength);
      run chunkKeyBytes <- lift (deriveChunkKey masterKeyBytes i);
      match decryptChunk encryptedData chunkKeyBytes chunkNonce algorithm with
      | Ok decryptedChunk =>
          let decryptedChunks := decryptedChunks ++ [decryptedChunk] in
          let offset := offset + 16 + encryptedLength in
          let progress :=
            Number_add (Number_of_Z 15)
                       (Number_div (Number_mul (Number_of_Z 75)
                                               (Number_of_Z (i + 1)))
                                   (Number_of_Z totalChunks)) in
          run _ <- call2 onProgress progress
                     (of_ascii "Decrypting chunk " ++ Number_toString (i + 1)
                      ++ of_ascii "/" ++ Number_toString totalChunks
                      ++ of_ascii "...");
          decrypt_chunks file masterKeyBytes algorithm totalChunks onProgress
                         fuel' (i + 1) offset decryptedChunks
      | Err _ => Threw (engine DecryptionFailed)
      end
  end.

Definition decryptFile (file : File) (password : string)
    (onProgress : option (Number -> ustring -> outcome unit))
  : outcome DecryptResult.t :=
  run _ <- call2 onProgress (Number_of_Z 0) (of_ascii "Reading file header...");
  run headerData <- arrayBuffer file 0 2048;
  run header <- lift (deserializeHeader headerData);
  run headerSize <- lift (getHeaderSize headerData);
  run _ <- call2 onProgress (Number_of_Z 5)
             (of_ascii "Detected: " ++ Algorithm_name (algorithm header));
  run _ <- call2 onProgress (Number_of_Z 6)
             (of_ascii "Deriving key with Argon2id...");
  run masterKeyBytes <-
     lift (deriveKeyArgon2 password (salt header) (kdfMemory header)
                           (kdfIterations header) (kdfParallelism header));
  run _ <- call2 onProgress (Number_of_Z 15)
             (of_ascii "Preparing decryption...");
  run decryptedChunks <-
     decrypt_chunks file masterKeyBytes (algorithm header)
                    (totalChunks header) onProgress
                    (Z.to_nat (totalChunks header)) 0 headerSize [];
  match property_originalHash header with
  | Some expected =>
      if String.eqb expected "" then
        run _ <- call2 onProgress (Number_of_Z 100) (of_ascii "Complete!");
        Returned {| DecryptResult.blob := List.concat decryptedChunks;
                    DecryptResult.filename := originalFilename header;
                    DecryptResult.verified := false;
                    DecryptResult.originalHash := Some expected;
                    DecryptResult.decryptedHash := None |}
      else
        run _ <- call2 onProgress (Number_of_Z 92)
                   (of_ascii "Verifikasi integritas file...");
        run combined <- lift (combine_chunks decryptedChunks);
        let decryptedHash := calculateHash combined in
        let verified := String.eqb decryptedHash expected in
        if negb verified then Threw (engine VerificationFailed)
        else
          run _ <- call2 onProgress (Number_of_Z 98)
                     (of_ascii "Integritas terverifikasi " ++ [0x2713]);
          run _ <- call2 onProgress (Number_of_Z 100) (of_ascii "Complete!");
          Returned {| DecryptResult.blob := List.concat decryptedChunks;
                      DecryptResult.filename := originalFilename header;
                      DecryptResult.verified := verified;
                      DecryptResult.originalHash := Some expected;
                      DecryptResult.decryptedHash := Some decryptedHash |}
  | None =>
      run _ <- call2 onProgress (Number_of_Z 100) (of_ascii "Complete!");
      Returned {| DecryptResult.blob := List.concat decryptedChunks;
                  DecryptResult.filename := originalFilename header;
                  DecryptResult.verified := false;
                  DecryptResult.originalHash := None;
                  DecryptResult.decryptedHash := None |}
  end.

End Worker.

End Reporting.

(* ================================================================= *)
(** ** crypto-worker.ts: batches *)

Module BatchEncryptResult.
Record t : Type := {
  results : list (option EncryptResult.t);
  errors : list (option exception);
  totalSuccess : Z;
  totalFailed : Z
}.
End BatchEncryptResult.

Module BatchDecryptResult.
Record t : Type := {
  results : list (option DecryptResult.t);
  errors : list (option exception);
  totalSuccess : Z;
  totalFailed : Z
}.
End BatchDecryptResult.

Section Batch.

Context {platform : Platform} {arithmetic : Arithmetic}.
Context {refusals : Refusals}.

(** The loop of [batchEncryptFiles] from the file of index [i] on, [files]
    being the files still to do and [acc] what has been accumulated. The
    body of the [try] is the call of [encryptFile], the pushes and the call
    of [onFileComplete]; whatever one of them throws is caught, recorded and
    handed to [onFileError], and what [onFileError] throws ends the batch. *)
Fixpoint batch_encrypt (files : list File) (i : Z) (password : string)
    (algorithm : Algorithm) (kdfMemory kdfIterations kdfParallelism : option Z)
    (onFileProgress : option (Z -> Number -> ustring -> outcome unit))
    (onFileComplete : option (Z -> EncryptResult.t -> outcome unit))
    (onFileError : option (Z -> exception -> outcome unit))
    (g : rng) (acc : BatchEncryptResult.t) : outcome BatchEncryptResult.t :=
  match files with
  | [] => Returned acc
  | file :: rest =>
      let call :=
        Reporting.encryptFile file password algorithm kdfMemory kdfIterations
          kdfParallelism
          (Some (fun progress stage => call3 onFileProgress i progress stage))
          g in
      let tried :=
        match fst call with
        | Returned result =>
            let acc :=
              {| BatchEncryptResult.results :=
                   BatchEncryptResult.results acc ++ [Some result];
                 BatchEncryptResult.errors :=
                   BatchEncryptResult.errors acc ++ [None];
                 BatchEncryptResult.totalSuccess :=
                   BatchEncryptResult.totalSuccess acc + 1;
                 BatchEncryptResult.totalFailed :=
                   BatchEncryptResult.totalFailed acc |} in
            match call2 onFileComplete i result with
            | Returned _ => (acc, None)
            | Threw error => (acc, Some error)
            end
        | Threw error => (acc, Some error)
        end in
      match snd tried with
      | None =>
          batch_encrypt rest (i + 1) password algorithm kdfMemory
                        kdfIterations kdfParallelism onFileProgress
                        onFileComplete onFileError (snd call) (fst tried)
      | Some error =>
          let acc := fst tried in
          let acc :=
            {| BatchEncryptResult.results :=
                 BatchEncryptResult.results acc ++ [None];
               BatchEncryptResult.errors :=
                 BatchEncryptResult.errors acc ++ [Some (as_Error error)];
               BatchEncryptResult.totalSuccess :=
                 BatchEncryptResult.totalSuccess acc;
               BatchEncryptResult.totalFailed :=
                 BatchEncryptResult.totalFailed acc + 1 |} in
          run _ <- call2 onFileError i (as_Error error);
          batch_encrypt rest (i + 1) password algorithm kdfMemory
                        kdfIterations kdfParallelism onFileProgress
                        onFileComplete onFileError (snd call) acc
      end
  end.

Definition batchEncryptFiles (files : list File) (password : string)
    (algorithm : Algorithm) (kdfMemory kdfIterations kdfParallelism : option Z)
    (onFileProgress : option (Z -> Number -> ustring -> outcome unit))
    (onFileComplete : option (Z -> EncryptResult.t -> outcome unit))
    (onFileError : option (Z -> exception -> outcome unit))
    (g : rng) : outcome BatchEncryptResult.t :=
  batch_encrypt files 0 password algorithm kdfMemory kdfIterations
                kdfParallelism onFileProgress onFileComplete onFileError g
                {| BatchEncryptResult.results := [];
                   BatchEncryptResult.errors := [];
                   BatchEncryptResult.totalSuccess := 0;
                   BatchEncryptResult.totalFailed := 0 |}.



End Batch.

(* ================================================================= *)
(** ** crypto-worker.ts, the variant without the hash

    The second version of the worker under [src/]: it does not read the
    file beforehand, slices it inside the encryption loop, and reads 1024
    bytes for the header. Its results have a blob and a filename. *)

Module WorkerV1.

Record Result : Type := {
  blob : bytes;
  filename : ustring
}.

Section Worker.

Context {platform : Platform}.

(** The encryption loop: [fuel] iterations are left, the next has index
    [i]; [chunks] is what has been pushed. *)
Fixpoint encrypt_chunks (file : File) (masterKeyBytes masterNonce : bytes)
    (algorithm : Algorithm) (fuel : nat) (i : Z) (chunks : list bytes)
  : result (list bytes) :=
  match fuel with
  | O => Ok chunks
  | S fuel' =>
      let start := i * CHUNK_SIZE in
      let end_ := Z.min (start + CHUNK_SIZE) (size file) in
      let chunkData := File_slice file start end_ in
      do chunkKeyBytes <- deriveChunkKey masterKeyBytes i;
      do chunkNonce <- deriveChunkNonce masterNonce i;
      do encryptedChunk <-
         encryptChunk chunkData chunkKeyBytes chunkNonce algorithm;
      do chunkRecord <- chunk_record chunkNonce encryptedChunk;
      encrypt_chunks file masterKeyBytes masterNonce algorithm fuel' (i + 1)
                     (chunks ++ [chunkRecord])
  end.

Definition encryptFile (file : File) (password : string)
    (algorithm : Algorithm) (kdfMemory kdfIterations kdfParallelism : option Z)
    (g : rng) : result Result :=
  let kdfMemory := default 65536 kdfMemory in
  let kdfIterations := default 3 kdfIterations in
  let kdfParallelism := default 4 kdfParallelism in
  let salt := fst (generateSalt g) in
  let masterNonce := fst (generateNonce (snd (generateSalt g))) in
  do masterKeyBytes <-
     deriveKeyArgon2 password salt kdfMemory kdfIterations kdfParallelism;
  let totalChunks := Math_ceil_div (size file) CHUNK_SIZE in
  let header :=
    {| magic := MAGIC_BYTES; version := FORMAT_VERSION;
       algorithm := algorithm; kdf := Argon2id;
       kdfMemory := kdfMemory; kdfIterations := kdfIterations;
       kdfParallelism := kdfParallelism; salt := salt;
       chunkSize := CHUNK_SIZE; originalFilename := name file;
       originalSize := size file; totalChunks := totalChunks |} in
  do headerBytes <- serializeHeader header;
  do chunks <-
     encrypt_chunks file masterKeyBytes masterNonce algorithm
                    (Z.to_nat totalChunks) 0 [headerBytes];
  Ok {| blob := List.concat chunks;
        filename := name file ++ of_ascii ".skita" |}.

Definition decryptFile (file : File) (password : string) : result Result :=
  let headerData := File_slice file 0 1024 in
  do header <- deserializeHeader headerData;
  do headerSize <- getHeaderSize headerData;
  do masterKeyBytes <-
     deriveKeyArgon2 password (salt header) (kdfMemory header)
                     (kdfIterations header) (kdfParallelism header);
  do decryptedChunks <-
     decrypt_chunks file masterKeyBytes (algorithm header)
                    (Z.to_nat (totalChunks header)) 0 headerSize [];
  Ok {| blob := List.concat decryptedChunks;
        filename := originalFilename header |}.

End Worker.

End WorkerV1.

(* ================================================================= *)
(** ** Vocabulary of the statements *)

(** The number a string of ASCII decimal digits denotes. *)
Definition decimal_value (ds : ustring) : Z :=
  fold_left (fun acc d => acc * 10 + (d - 48)) ds 0.

(** [ds] is the minimal decimal rendering of [n]: digits only, denoting [n],
    at least one digit, and no leading zero except for the number zero. *)
Definition minimal_decimal (ds : ustring) (n : Z) : Prop :=
  Forall (fun d => 48 <= d <= 57) ds
  /\ decimal_value ds = n
  /\ ds <> []
  /\ (hd 0 ds = 48 -> ds = [48]).

(** The algorithm identifier of the format: 0 = AES-GCM, 1 = ChaCha20. *)
Definition algorithm_id (a : Algorithm) : Z :=
  match a with
  | AES_GCM => 0
  | ChaCha20_Poly1305 => 1
  end.

(** The header as the format lays it out: the fields one after the other,
    multi-byte integers big-endian, the filename last. *)
Definition header_layout (h : FileHeader) : bytes :=
  magic h
  ++ be16 (version h)
  ++ [byte.of_Z (algorithm_id (algorithm h))]
  ++ [byte.of_Z 0]
  ++ be32 (kdfMemory h)
  ++ be32 (kdfIterations h)
  ++ [byte.of_Z (kdfParallelism h)]
  ++ salt h
  ++ be32 (chunkSize h)
  ++ be32 (originalSize h)
  ++ be32 (totalChunks h)
  ++ be16 (len (TextEncoder_encode (originalFilename h)))
  ++ TextEncoder_encode (originalFilename h).

(** Every numeric field of the header fits the width the format gives it. *)
Definition within_field_widths (h : FileHeader) : Prop :=
  0 <= version h < 2 ^ 16
  /\ 0 <= kdfMemory h < 2 ^ 32
  /\ 0 <= kdfIterations h < 2 ^ 32
  /\ 0 <= kdfParallelism h < 2 ^ 8
  /\ 0 <= chunkSize h < 2 ^ 32
  /\ 0 <= originalSize h < 2 ^ 32
  /\ 0 <= totalChunks h < 2 ^ 32.

Section Records.

Context {platform : Platform}.

(** The key of chunk [i] under the master secret [ms], as the format
    defines it. *)
Definition chunk_key (ms : bytes) (i : Z) : bytes :=
  sha256 (ms ++ TextEncoder_encode (of_ascii "chunk-" ++ Number_toString i)).

(** The nonce of chunk [i] under the master nonce [mn]. *)
Definition chunk_nonce (mn : bytes) (i : Z) : bytes := firstn 8 mn ++ be32 i.

(** The record of the format for chunk [i] with cleartext [chunk]: the
    length of the sealed chunk on four bytes, the nonce, the sealed chunk. *)
Definition record_of (ms mn : bytes) (a : Algorithm) (i : Z) (chunk : bytes)
  : bytes :=
  let sealed := seal a (chunk_key ms i) (chunk_nonce mn i) chunk in
  be32 (len sealed) ++ chunk_nonce mn i ++ sealed.

Fixpoint records_from (ms mn : bytes) (a : Algorithm) (i : Z)
    (chunks : list bytes) : list bytes :=
  match chunks with
  | [] => []
  | chunk :: rest => record_of ms mn a i chunk :: records_from ms mn a (i + 1) rest
  end.

(** The AEAD appends a 16-byte tag to the ciphertext. *)
Definition tag_appended : Prop :=
  forall a key nonce data, len (seal a key nonce data) = len data + 16.

End Records.

(** The header [encryptFile] builds for the file [hello] when the random
    source yields [salt]. *)
Definition hello_header (salt : bytes) : FileHeader :=
  {| magic := MAGIC_BYTES; version := FORMAT_VERSION; algorithm := AES_GCM;
     kdf := Argon2id; kdfMemory := 65536; kdfIterations := 3;
     kdfParallelism := 4; salt := salt; chunkSize := CHUNK_SIZE;
     originalFilename := name hello; originalSize := size hello;
     totalChunks := 1 |}.

Section Failure.

Context {platform : Platform}.

(** The decryption loop, run for [fuel] chunks from the chunk of index [i]
    whose record starts at [offset], reaches a chunk whose tag does not
    verify: the records before it are read and opened, and opening that one
    fails. *)
Inductive tag_fails (file : File) (masterKey : bytes) (a : Algorithm)
  : nat -> Z -> Z -> Prop :=
| tag_fails_here (fuel : nat) (i offset encryptedLength : Z) :
    getUint32 (File_slice file offset (offset + 16)) 0 = Ok encryptedLength ->
    unseal a (chunk_key masterKey i)
           (Uint8Array_slice (File_slice file offset (offset + 16)) 4 16)
           (File_slice file (offset + 16) (offset + 16 + encryptedLength))
    = None ->
    tag_fails file masterKey a (S fuel) i offset
| tag_fails_later (fuel : nat) (i offset encryptedLength : Z)
    (decrypted : bytes) :
    getUint32 (File_slice file offset (offset + 16)) 0 = Ok encryptedLength ->
    unseal a (chunk_key masterKey i)
           (Uint8Array_slice (File_slice file offset (offset + 16)) 4 16)
           (File_slice file (offset + 16) (offset + 16 + encryptedLength))
    = Some decrypted ->
    tag_fails file masterKey a fuel (i + 1) (offset + 16 + encryptedLength) ->
    tag_fails file masterKey a (S fuel) i offset.

End Failure.

(** What [encryptFile] returns, seen as the file handed to [decryptFile]. *)
Definition as_file (r : EncryptResult.t) : File :=
  {| name := EncryptResult.filename r; content := EncryptResult.blob r |}.

(** A container that holds no chunk and whose algorithm byte is 7, an
    identifier the format does not define. *)
Definition unknown_algorithm_container : File :=
  {| name := of_ascii "unknown.skita";
     content :=
       MAGIC_BYTES ++ be16 FORMAT_VERSION ++ [byte.of_Z 7] ++ [byte.of_Z 0]
       ++ be32 65536 ++ be32 3 ++ [byte.of_Z 4] ++ Uint8Array 32
       ++ be32 CHUNK_SIZE ++ be32 0 ++ be32 0 ++ be16 0 |}.

(** A file of 256 zero bytes with an empty name: a case in which
    [getHeaderSize] happens to return the length of the header. *)
Definition zeroes256 : File := {| name := []; content := Uint8Array 256 |}.

(** An empty file whose name is 1986 times the letter a. *)
Definition long_name : File := {| name := repeat 97 1986; content := [] |}.

(** A header whose filename starts with a byte order mark, and one whose
    salt has sixteen bytes. Every other field is as in [hello_header]. *)
Definition bom_header : FileHeader :=
  {| magic := MAGIC_BYTES; version := FORMAT_VERSION; algorithm := AES_GCM;
     kdf := Argon2id; kdfMemory := 65536; kdfIterations := 3;
     kdfParallelism := 4; salt := Uint8Array 32; chunkSize := CHUNK_SIZE;
     originalFilename := BOM :: of_ascii "a.txt"; originalSize := 5;
     totalChunks := 1 |}.

Definition short_salt_header : FileHeader :=
  {| magic := MAGIC_BYTES; version := FORMAT_VERSION; algorithm := AES_GCM;
     kdf := Argon2id; kdfMemory := 65536; kdfIterations := 3;
     kdfParallelism := 4; salt := repeat Byte.x01 16; chunkSize := CHUNK_SIZE;
     originalFilename := of_ascii "a.txt"; originalSize := 5;
     totalChunks := 1 |}.

(** A header whose numbers exceed their fields, and whose filename, 65537
    times the letter a, is one byte longer than the length field can say. *)
Definition overflowing_header : FileHeader :=
  {| magic := MAGIC_BYTES; version := 65537; algorithm := ChaCha20_Poly1305;
     kdf := Argon2id; kdfMemory := 2 ^ 32 + 65536; kdfIterations := 3;
     kdfParallelism := 260; salt := Uint8Array 32; chunkSize := CHUNK_SIZE;
     originalFilename := repeat 97 (Z.to_nat 65537); originalSize := 2 ^ 32 + 5;
     totalChunks := 1 |}.

Section Cipher.

Context {platform : Platform}.

(** The AEAD opens what it sealed, under the same key and nonce. *)
Definition opens_what_it_sealed : Prop :=
  forall a key nonce data,
    unseal a key nonce (seal a key nonce data) = Some data.

End Cipher.

(** The container [encryptFile] makes of [zeroes256] under the password
    alpha, on the stand-in platform with the all-zero random source. *)
Definition zeroes256_container : File :=
  match encryptFile (platform := stand_in) zeroes256 "alpha" AES_GCM
                    None None None zero_rng with
  | Ok r => as_file r
  | Err _ => zeroes256
  end.

(** That container without its last byte. *)
Definition zeroes256_container_cut : File :=
  {| name := name zeroes256_container;
     content := removelast (content zeroes256_container) |}.




(** A platform that reads every slice and seals every chunk; a read of
    [file] refused with [x], and a chunk the AEAD refused with [x]. *)
Definition reads_succeed {refusals : Refusals} : Prop :=
  forall file s e, arrayBuffer_rejects file s e = None.


Definition read_refused {refusals : Refusals} (file : File) (x : exception)
  : Prop :=
  exists s e, arrayBuffer_rejects file s e = Some x.

Definition seal_refused {refusals : Refusals} (x : exception) : Prop :=
  exists a key nonce data, encrypt_rejects a key nonce data = Some x.

(** A callback that is not given, or that returns from every call. *)
Definition returns1 {A : Type} (callback : option (A -> outcome unit))
  : Prop :=
  forall a, call1 callback a = Returned tt.

Definition returns2 {A B : Type} (callback : option (A -> B -> outcome unit))
  : Prop :=
  forall a b, call2 callback a b = Returned tt.


Section Calls.

Context {platform : Platform}.


End Calls.

(** [arr.length === 0]. *)
Definition is_nil {A : Type} (l : list A) : bool :=
  match l with
  | [] => true
  | _ :: _ => false
  end.

(** A word of the passphrase list: four to seven lowercase letters. *)
Definition is_short_lowercase_word (word : ustring) : bool :=
  forallb lowercase word && (4 <=? len word) && (len word <=? 7).

(** A random source that yields the byte [b] for ever. *)
Definition constant_rng (b : Init.Byte.byte) : rng :=
  {| stream := fun _ => b; cursor := 0 |}.

(** The 256 values of a byte. *)
Definition all_bytes : bytes :=
  map (fun n => byte.of_Z (Z.of_nat n)) (seq 0 256).

(** [s === t] on strings. *)
Fixpoint ustring_eqb (s t : ustring) : bool :=
  match s, t with
  | [], [] => true
  | c :: s', d :: t' => (c =? d) && ustring_eqb s' t'
  | _, _ => false
  end.




(* ================================================================= *)
(** * Properties *)

(** ** Lists, bytes and buffers *)

Lemma len_nil {A : Type} : len (@nil A) = 0.
Proof. reflexivity. Qed.

Lemma len_cons {A : Type} (x : A) (l : list A) : len (x :: l) = 1 + len l.
Proof. unfold len. cbn [List.length]. lia. Qed.

Lemma len_app {A : Type} (l1 l2 : list A) : len (l1 ++ l2) = len l1 + len l2.
Proof. unfold len. rewrite length_app. lia. Qed.

Lemma len_nonneg {A : Type} (l : list A) : 0 <= len l.
Proof. unfold len. lia. Qed.

Lemma len_Uint8Array (n : Z) : 0 <= n -> len (Uint8Array n) = n.
Proof. intros H. unfold len, Uint8Array. rewrite repeat_length. lia. Qed.

Lemma len_be16 (v : Z) : len (be16 v) = 2.
Proof. reflexivity. Qed.

Lemma len_be32 (v : Z) : len (be32 v) = 4.
Proof. reflexivity. Qed.

Lemma len_firstn {A : Type} (n : Z) (l : list A) :
  0 <= n <= len l -> len (firstn (Z.to_nat n) l) = n.
Proof. unfold len. intros H. rewrite length_firstn. lia. Qed.

Lemma len_zero_nil {A : Type} (l : list A) : len l = 0 -> l = [].
Proof.
  destruct l; [reflexivity | rewrite len_cons].
  pose proof (len_nonneg l). lia.
Qed.

Create Rewrite HintDb len.
#[local] Hint Rewrite @len_cons @len_app len_be16 len_be32 : len.

Ltac len_simpl :=
  autorewrite with len in *; change (len (@nil Init.Byte.byte)) with 0 in *.

Lemma Uint8Array_split (n k : Z) :
  0 <= k <= n -> Uint8Array n = Uint8Array k ++ Uint8Array (n - k).
Proof.
  intros H. unfold Uint8Array. rewrite <- repeat_app. f_equal. lia.
Qed.

Lemma firstn_len_app {A : Type} (pre l : list A) (off : Z) :
  off = len pre -> firstn (Z.to_nat off) (pre ++ l) = pre.
Proof.
  intros ->. unfold len. rewrite Nat2Z.id, firstn_app, Nat.sub_diag.
  rewrite firstn_all. cbn [firstn]. apply app_nil_r.
Qed.

Lemma skipn_len_app {A : Type} (pre l : list A) (off : Z) :
  len pre <= off ->
  skipn (Z.to_nat off) (pre ++ l) = skipn (Z.to_nat (off - len pre)) l.
Proof.
  unfold len. intros H. rewrite skipn_app.
  rewrite skipn_all2 by lia. cbn [app]. f_equal. lia.
Qed.

(** A store at the frontier between the written prefix of a fresh buffer and
    its zeroes extends the prefix. *)
Lemma splice_frontier (pre src : bytes) (n off : Z) :
  off = len pre -> len src <= n ->
  splice (pre ++ Uint8Array n) src off = (pre ++ src) ++ Uint8Array (n - len src).
Proof.
  intros Hoff Hn. unfold splice. pose proof (len_nonneg src) as Hs.
  rewrite firstn_len_app by assumption.
  rewrite skipn_len_app by lia.
  replace (off + len src - len pre) with (len src) by lia.
  rewrite (Uint8Array_split n (len src)) by lia.
  rewrite <- (len_Uint8Array (len src)) at 1 by lia.
  rewrite skipn_len_app by lia. rewrite Z.sub_diag. cbn [Z.to_nat skipn].
  rewrite <- app_assoc. reflexivity.
Qed.

Lemma in_view_frontier (pre : bytes) (n off k : Z) :
  off = len pre -> 0 <= k <= n -> in_view (pre ++ Uint8Array n) off k = true.
Proof.
  intros -> H. unfold in_view. rewrite len_app, len_Uint8Array by lia.
  pose proof (len_nonneg pre). apply andb_true_intro; split; apply Z.leb_le; lia.
Qed.

Lemma set_frontier (pre src : bytes) (n off : Z) :
  off = len pre -> len src <= n ->
  Uint8Array_set (pre ++ Uint8Array n) src off
  = Ok ((pre ++ src) ++ Uint8Array (n - len src)).
Proof.
  intros Hoff Hn. unfold Uint8Array_set. pose proof (len_nonneg src).
  fold (in_view (pre ++ Uint8Array n) off (len src)).
  rewrite in_view_frontier by lia. f_equal. now apply splice_frontier.
Qed.

Lemma setUint8_frontier (pre : bytes) (n off v : Z) :
  off = len pre -> 1 <= n ->
  setUint8 (pre ++ Uint8Array n) off v
  = Ok ((pre ++ [byte.of_Z v]) ++ Uint8Array (n - 1)).
Proof.
  intros Hoff Hn. unfold setUint8. rewrite in_view_frontier by lia.
  f_equal. now apply splice_frontier.
Qed.

Lemma setUint16_frontier (pre : bytes) (n off v : Z) :
  off = len pre -> 2 <= n ->
  setUint16 (pre ++ Uint8Array n) off v
  = Ok ((pre ++ be16 v) ++ Uint8Array (n - 2)).
Proof.
  intros Hoff Hn. unfold setUint16. rewrite in_view_frontier by lia.
  f_equal. now apply splice_frontier.
Qed.

Lemma setUint32_frontier (pre : bytes) (n off v : Z) :
  off = len pre -> 4 <= n ->
  setUint32 (pre ++ Uint8Array n) off v
  = Ok ((pre ++ be32 v) ++ Uint8Array (n - 4)).
Proof.
  intros Hoff Hn. unfold setUint32. rewrite in_view_frontier by lia.
  f_equal. now apply splice_frontier.
Qed.

(** Slices. *)

Lemma slice_within (data : bytes) (s e : Z) :
  0 <= s <= e -> e <= len data ->
  Uint8Array_slice data s e
  = firstn (Z.to_nat (e - s)) (skipn (Z.to_nat s) data).
Proof.
  intros Hs He. unfold Uint8Array_slice, relative_index.
  destruct (Z.ltb_spec s 0); [lia|]. destruct (Z.ltb_spec e 0); [lia|].
  rewrite !Z.min_l by lia. reflexivity.
Qed.

Lemma slice_app_skip (a l : bytes) (s e : Z) :
  len a <= s -> s <= e ->
  Uint8Array_slice (a ++ l) s e = Uint8Array_slice l (s - len a) (e - len a).
Proof.
  intros Hs He. pose proof (len_nonneg a). pose proof (len_nonneg l).
  unfold Uint8Array_slice, relative_index. rewrite len_app.
  destruct (Z.ltb_spec s 0); [lia|]. destruct (Z.ltb_spec e 0); [lia|].
  destruct (Z.ltb_spec (s - len a) 0); [lia|].
  destruct (Z.ltb_spec (e - len a) 0); [lia|].
  rewrite skipn_len_app by lia. f_equal; [|f_equal]; lia.
Qed.

Lemma slice_app_here (a l : bytes) (s e : Z) :
  s = 0 -> e = len a -> Uint8Array_slice (a ++ l) s e = a.
Proof.
  intros -> ->. pose proof (len_nonneg a). pose proof (len_nonneg l).
  rewrite slice_within by (rewrite ?len_app; lia).
  cbn [Z.to_nat skipn]. rewrite Z.sub_0_r. now apply firstn_len_app.
Qed.

Lemma slice_beyond (data : bytes) (s e : Z) :
  len data <= s -> s <= e -> Uint8Array_slice data s e = [].
Proof.
  intros Hs He. pose proof (len_nonneg data).
  unfold Uint8Array_slice, relative_index.
  destruct (Z.ltb_spec s 0); [lia|]. destruct (Z.ltb_spec e 0); [lia|].
  rewrite !Z.min_r by lia. rewrite Z.sub_diag. reflexivity.
Qed.

Lemma slice_prefix (data : bytes) (e : Z) :
  0 <= e -> Uint8Array_slice data 0 e = firstn (Z.to_nat e) data.
Proof.
  intros He. pose proof (len_nonneg data).
  unfold Uint8Array_slice, relative_index. cbn [Z.ltb Z.compare].
  destruct (Z.ltb_spec e 0); [lia|].
  rewrite (Z.min_l 0) by lia. cbn [Z.to_nat skipn]. rewrite Z.sub_0_r.
  destruct (Z.le_ge_cases e (len data)).
  - now rewrite Z.min_l by lia.
  - rewrite Z.min_r by lia. unfold len in *.
    rewrite Nat2Z.id, firstn_all. symmetry. apply firstn_all2. lia.
Qed.

Lemma slice_all (data : bytes) (e : Z) :
  len data <= e -> Uint8Array_slice data 0 e = data.
Proof.
  intros He. pose proof (len_nonneg data). rewrite slice_prefix by lia.
  apply firstn_all2. unfold len in *. lia.
Qed.

(** Big-endian loads. *)

Lemma byte_at_app_skip (a l : bytes) (i : Z) :
  len a <= i -> byte_at (a ++ l) i = byte_at l (i - len a).
Proof.
  unfold byte_at, len. intros H. rewrite app_nth2 by lia.
  do 2 f_equal. lia.
Qed.

Lemma in_view_app_skip (a l : bytes) (off k : Z) :
  len a <= off -> in_view (a ++ l) off k = in_view l (off - len a) k.
Proof.
  intros H. pose proof (len_nonneg a). unfold in_view. rewrite len_app.
  destruct (Z.leb_spec 0 off), (Z.leb_spec 0 (off - len a)),
           (Z.leb_spec (off + k) (len a + len l)),
           (Z.leb_spec (off - len a + k) (len l)); try lia; reflexivity.
Qed.

Lemma getUint8_app_skip (a l : bytes) (off : Z) :
  len a <= off -> getUint8 (a ++ l) off = getUint8 l (off - len a).
Proof.
  intros H. unfold getUint8. rewrite in_view_app_skip, !byte_at_app_skip by lia.
  reflexivity.
Qed.

Lemma getUint16_app_skip (a l : bytes) (off : Z) :
  len a <= off -> getUint16 (a ++ l) off = getUint16 l (off - len a).
Proof.
  intros H. unfold getUint16. rewrite in_view_app_skip, !byte_at_app_skip by lia.
  replace (off + 1 - len a) with (off - len a + 1) by lia. reflexivity.
Qed.

Lemma getUint32_app_skip (a l : bytes) (off : Z) :
  len a <= off -> getUint32 (a ++ l) off = getUint32 l (off - len a).
Proof.
  intros H. unfold getUint32. rewrite in_view_app_skip, !byte_at_app_skip by lia.
  replace (off + 1 - len a) with (off - len a + 1) by lia.
  replace (off + 2 - len a) with (off - len a + 2) by lia.
  replace (off + 3 - len a) with (off - len a + 3) by lia. reflexivity.
Qed.

Lemma in_view_here (l : bytes) (off k : Z) :
  off = 0 -> 0 <= k <= len l -> in_view l off k = true.
Proof.
  intros -> H. unfold in_view. apply andb_true_intro; split; apply Z.leb_le; lia.
Qed.

Lemma getUint8_here (v : Z) (l : bytes) (off : Z) :
  off = 0 -> getUint8 (byte.of_Z v :: l) off = Ok (v mod 2 ^ 8).
Proof.
  intros ->. unfold getUint8.
  rewrite in_view_here by (len_simpl; pose proof (len_nonneg l); lia).
  unfold byte_at. cbn [Z.to_nat nth]. now rewrite byte.unsigned_of_Z.
Qed.

Lemma getUint16_here (v : Z) (l : bytes) (off : Z) :
  off = 0 -> getUint16 (be16 v ++ l) off = Ok (v mod 2 ^ 16).
Proof.
  intros ->. unfold getUint16.
  rewrite in_view_here by (len_simpl; pose proof (len_nonneg l); lia).
  f_equal. unfold byte_at, be16.
  change (Z.to_nat 0) with 0%nat. change (Z.to_nat (0 + 1)) with 1%nat.
  cbn [app nth].
  rewrite !byte.unsigned_of_Z. unfold byte.wrap.
  change (2 ^ 8) with 256. change (2 ^ 16) with 65536.
  Z.div_mod_to_equations. lia.
Qed.

Lemma getUint32_here (v : Z) (l : bytes) (off : Z) :
  off = 0 -> getUint32 (be32 v ++ l) off = Ok (v mod 2 ^ 32).
Proof.
  intros ->. unfold getUint32.
  rewrite in_view_here by (len_simpl; pose proof (len_nonneg l); lia).
  f_equal. unfold byte_at, be32.
  change (Z.to_nat 0) with 0%nat. change (Z.to_nat (0 + 1)) with 1%nat.
  change (Z.to_nat (0 + 2)) with 2%nat. change (Z.to_nat (0 + 3)) with 3%nat.
  cbn [app nth].
  rewrite !byte.unsigned_of_Z. unfold byte.wrap.
  change (2 ^ 8) with 256. change (2 ^ 16) with 65536.
  change (2 ^ 24) with 16777216. change (2 ^ 32) with 4294967296.
  Z.div_mod_to_equations. lia.
Qed.

Lemma big_endian_be32 (v : Z) : big_endian (be32 v) = v mod 2 ^ 32.
Proof.
  unfold big_endian, be32. cbn [fold_left].
  rewrite !byte.unsigned_of_Z. unfold byte.wrap.
  change (2 ^ 8) with 256. change (2 ^ 16) with 65536.
  change (2 ^ 24) with 16777216. change (2 ^ 32) with 4294967296.
  Z.div_mod_to_equations. lia.
Qed.

Lemma in_view_true (l : bytes) (off k : Z) :
  0 <= off -> off + k <= len l -> in_view l off k = true.
Proof.
  intros H1 H2. unfold in_view. apply andb_true_intro; split; apply Z.leb_le; lia.
Qed.

Lemma getUint8_here_app (v : Z) (l : bytes) (off : Z) :
  off = 0 -> getUint8 ([byte.of_Z v] ++ l) off = Ok (v mod 2 ^ 8).
Proof. apply getUint8_here. Qed.

(** ** Chunk nonces *)

Lemma deriveChunkNonce_ok (masterNonce : bytes) (chunkIndex : Z) :
  8 <= len masterNonce ->
  deriveChunkNonce masterNonce chunkIndex
  = Ok (firstn 8 masterNonce ++ be32 chunkIndex).
Proof.
  intros Hlen. unfold deriveChunkNonce.
  rewrite slice_prefix by lia. change (Z.to_nat 8) with 8%nat.
  assert (Hpre : len (firstn 8 masterNonce) = 8)
    by (apply (len_firstn 8); lia).
  change (Uint8Array 12) with ([] ++ Uint8Array 12).
  rewrite set_frontier by (rewrite ?Hpre; reflexivity || lia).
  cbn [bind]. rewrite Hpre.
  rewrite setUint32_frontier by (len_simpl; lia).
  cbn [bind app]. rewrite app_nil_r. reflexivity.
Qed.

(** C8. For a 12-byte master nonce and a chunk index that fits 32 bits,
    [deriveChunkNonce] returns, without failing, the first eight bytes of the
    master nonce followed by four bytes that are the index as a big-endian
    number: twelve bytes in all. *)
Theorem deriveChunkNonce_spec (masterNonce : bytes) (chunkIndex : Z) :
  len masterNonce = 12 ->
  0 <= chunkIndex < 2 ^ 32 ->
  exists suffix : bytes,
    deriveChunkNonce masterNonce chunkIndex = Ok (firstn 8 masterNonce ++ suffix)
    /\ len suffix = 4
    /\ big_endian suffix = chunkIndex
    /\ len (firstn 8 masterNonce ++ suffix) = 12.
Proof.
  intros Hlen Hidx. exists (be32 chunkIndex).
  rewrite deriveChunkNonce_ok by lia.
  rewrite big_endian_be32, Z.mod_small by assumption.
  rewrite len_app, len_be32, (len_firstn 8) by lia.
  repeat split; reflexivity.
Qed.

Lemma deriveChunkNonce_spec_witness :
  exists suffix : bytes,
    deriveChunkNonce (map byte.of_Z [1; 2; 3; 4; 5; 6; 7; 8; 9; 10; 11; 12]) 258
    = Ok (firstn 8 (map byte.of_Z [1; 2; 3; 4; 5; 6; 7; 8; 9; 10; 11; 12])
          ++ suffix)
    /\ len suffix = 4
    /\ big_endian suffix = 258
    /\ len (firstn 8 (map byte.of_Z [1; 2; 3; 4; 5; 6; 7; 8; 9; 10; 11; 12])
            ++ suffix) = 12.
Proof. apply deriveChunkNonce_spec; [reflexivity | lia]. Defined.

(** ** Number formatting and ASCII *)

Lemma decimal_value_snoc (ds : ustring) (d : Z) :
  decimal_value (ds ++ [d]) = decimal_value ds * 10 + (d - 48).
Proof. unfold decimal_value. now rewrite fold_left_app. Qed.

Lemma digits_spec (fuel : nat) :
  forall n acc,
    0 <= n < 2 ^ Z.of_nat fuel -> (0 < fuel)%nat ->
    exists ds,
      digits fuel n acc = ds ++ acc
      /\ Forall (fun d => 48 <= d <= 57) ds
      /\ decimal_value ds = n
      /\ ds <> []
      /\ (hd 0 ds = 48 -> ds = [48]).
Proof.
  induction fuel as [|fuel IH]; intros n acc Hn Hfuel; [lia|].
  cbn [digits].
  assert (Hd : 48 <= 48 + n mod 10 <= 57) by (Z.div_mod_to_equations; lia).
  destruct (Z.eqb_spec (n / 10) 0) as [Hq|Hq].
  - exists [48 + n mod 10]. repeat split.
    + now constructor.
    + unfold decimal_value. cbn [fold_left]. Z.div_mod_to_equations. lia.
    + discriminate.
    + cbn [hd]. intros H. f_equal. lia.
  - rewrite Nat2Z.inj_succ, Z.pow_succ_r in Hn by lia.
    assert (Hfuel' : (0 < fuel)%nat).
    { destruct fuel; [|lia]. change (2 ^ Z.of_nat 0) with 1 in Hn.
      exfalso. apply Hq. Z.div_mod_to_equations. lia. }
    destruct (IH (n / 10) ((48 + n mod 10) :: acc)) as (ds & E & Hall & Hval & Hne & Hhd);
      [Z.div_mod_to_equations; lia | assumption |].
    exists (ds ++ [48 + n mod 10]). repeat split.
    + rewrite E, <- app_assoc. reflexivity.
    + apply Forall_app. split; [assumption | now constructor].
    + rewrite decimal_value_snoc, Hval. Z.div_mod_to_equations. lia.
    + now destruct ds.
    + destruct ds as [|d ds]; [congruence|]. cbn [hd app]. intros H.
      specialize (Hhd H). injection Hhd as -> ->.
      unfold decimal_value in Hval. cbn [fold_left] in Hval. lia.
Qed.

Lemma Number_toString_minimal (n : Z) :
  0 <= n -> minimal_decimal (Number_toString n) n.
Proof.
  intros Hn. unfold Number_toString.
  destruct (Z.ltb_spec n 0); [lia|].
  destruct (digits_spec (S (Z.to_nat (Z.log2 n))) n []) as (ds & E & H1 & H2 & H3 & H4).
  - rewrite Nat2Z.inj_succ, Z2Nat.id by apply Z.log2_nonneg.
    destruct (Z.eq_dec n 0) as [->|]; [cbn; lia|].
    split; [lia|]. apply Z.log2_spec. lia.
  - lia.
  - rewrite E, app_nil_r. repeat split; assumption.
Qed.

Lemma utf8_encode_ascii (s : ustring) :
  Forall (fun c => 0 <= c < 128) s -> TextEncoder_encode s = map byte.of_Z s.
Proof.
  induction 1 as [|c s Hc _ IH]; [reflexivity|].
  cbn [TextEncoder_encode flat_map map]. fold (TextEncoder_encode s).
  rewrite IH. unfold is_scalar, utf8_encode_scalar.
  destruct (Z.leb_spec 0 c); [|lia]. destruct (Z.ltb_spec c 0xD800); [|lia].
  cbn [andb orb]. destruct (Z.ltb_spec c 0x80); [|lia]. reflexivity.
Qed.

Lemma minimal_decimal_ascii (ds : ustring) (n : Z) :
  minimal_decimal ds n -> Forall (fun c => 0 <= c < 128) ds.
Proof.
  intros (H & _). eapply Forall_impl; [|exact H]. cbn. intros; lia.
Qed.

(** ** Chunk keys *)

Section ChunkKey.

Context {platform : Platform}.

Lemma deriveChunkKey_ok (masterKey : bytes) (chunkIndex : Z) :
  deriveChunkKey masterKey chunkIndex
  = Ok (sha256 (masterKey
                ++ TextEncoder_encode
                     (of_ascii "chunk-" ++ Number_toString chunkIndex))).
Proof.
  unfold deriveChunkKey.
  set (info := TextEncoder_encode _).
  pose proof (len_nonneg masterKey). pose proof (len_nonneg info).
  change (Uint8Array (len masterKey + len info))
    with ([] ++ Uint8Array (len masterKey + len info)).
  rewrite set_frontier by (reflexivity || lia). cbn [bind app].
  rewrite set_frontier by lia. cbn [bind].
  replace (len masterKey + len info - len masterKey - len info) with 0 by lia.
  change (Uint8Array 0) with (@nil Init.Byte.byte). now rewrite app_nil_r.
Qed.

(** C7. For a 32-byte master secret and a chunk index that fits 32 bits,
    [deriveChunkKey] returns, without failing, the SHA-256 digest of the
    master secret followed by the UTF-8 bytes of ["chunk-"] and of the
    minimal decimal rendering of the index (which are its ASCII bytes). *)
Theorem deriveChunkKey_spec (masterSecret : bytes) (chunkIndex : Z) :
  len masterSecret = 32 ->
  0 <= chunkIndex < 2 ^ 32 ->
  exists decimal : ustring,
    minimal_decimal decimal chunkIndex
    /\ deriveChunkKey masterSecret chunkIndex
       = Ok (sha256 (masterSecret
                     ++ TextEncoder_encode (of_ascii "chunk-" ++ decimal)))
    /\ TextEncoder_encode (of_ascii "chunk-" ++ decimal)
       = map byte.of_Z (of_ascii "chunk-" ++ decimal).
Proof.
  intros _ Hidx. exists (Number_toString chunkIndex).
  assert (Hmin : minimal_decimal (Number_toString chunkIndex) chunkIndex)
    by (apply Number_toString_minimal; lia).
  split; [exact Hmin|]. split; [apply deriveChunkKey_ok|].
  apply utf8_encode_ascii, Forall_app. split.
  - repeat constructor; cbn; lia.
  - now apply minimal_decimal_ascii with (n := chunkIndex).
Qed.

End ChunkKey.

Lemma deriveChunkKey_spec_witness :
  exists decimal : ustring,
    minimal_decimal decimal 4294967295
    /\ deriveChunkKey (platform := stand_in) (Uint8Array 32) 4294967295
       = Ok (sha256 (Uint8Array 32
                     ++ TextEncoder_encode (of_ascii "chunk-" ++ decimal)))
    /\ TextEncoder_encode (of_ascii "chunk-" ++ decimal)
       = map byte.of_Z (of_ascii "chunk-" ++ decimal).
Proof. apply deriveChunkKey_spec; [reflexivity | lia]. Defined.

(** ** UTF-8: decoding what was encoded *)

Lemma unsigned_of_Z_small (v : Z) :
  0 <= v < 256 -> byte.unsigned (byte.of_Z v) = v.
Proof.
  intros H. rewrite byte.unsigned_of_Z. unfold byte.wrap.
  now apply Z.mod_small.
Qed.

Lemma utf8_decode_start (b : Init.Byte.byte) (rest : bytes) :
  utf8_decode utf8_initial (b :: rest)
  = fst (utf8_lead (byte.unsigned b))
    ++ utf8_decode (snd (utf8_lead (byte.unsigned b))) rest.
Proof. reflexivity. Qed.

Lemma utf8_decode_continue (cp n lo hi : Z) (b : Init.Byte.byte) (rest : bytes) :
  n <> 0 -> lo <= byte.unsigned b <= hi ->
  utf8_decode {| code_point := cp; expected := n; lower := lo; upper := hi |}
              (b :: rest)
  = if n =? 1
    then (cp * 64 + byte.unsigned b mod 64) :: utf8_decode utf8_initial rest
    else utf8_decode {| code_point := cp * 64 + byte.unsigned b mod 64;
                        expected := n - 1; lower := 0x80; upper := 0xBF |} rest.
Proof.
  intros Hn Hb. cbn [utf8_decode expected lower upper code_point].
  destruct (Z.eqb_spec n 0); [contradiction|].
  destruct (Z.leb_spec lo (byte.unsigned b)); [|lia].
  destruct (Z.leb_spec (byte.unsigned b) hi); [|lia].
  reflexivity.
Qed.

Ltac arith := Z.div_mod_to_equations; lia.

Ltac split_cmp :=
  repeat match goal with
    | |- context [?a <=? ?b] => destruct (Z.leb_spec a b); try (exfalso; arith)
    | |- context [?a <? ?b] => destruct (Z.ltb_spec a b); try (exfalso; arith)
    | |- context [?a =? ?b] => destruct (Z.eqb_spec a b); try (exfalso; arith)
    end.

Lemma utf8_lead_1 (v : Z) : v <= 0x7F -> utf8_lead v = ([v], utf8_initial).
Proof. intros H. unfold utf8_lead. now split_cmp. Qed.

Lemma utf8_lead_2 (v : Z) :
  0xC2 <= v <= 0xDF ->
  utf8_lead v = ([], {| code_point := v mod 32; expected := 1;
                        lower := 0x80; upper := 0xBF |}).
Proof. intros H. unfold utf8_lead. now split_cmp. Qed.

Lemma utf8_lead_3 (v : Z) :
  0xE0 <= v <= 0xEF ->
  utf8_lead v = ([], {| code_point := v mod 16; expected := 2;
                        lower := if v =? 0xE0 then 0xA0 else 0x80;
                        upper := if v =? 0xED then 0x9F else 0xBF |}).
Proof.
  intros H. unfold utf8_lead.
  destruct (Z.leb_spec v 0x7F); [lia|].
  destruct (Z.leb_spec 0xC2 v); [|lia]. destruct (Z.leb_spec v 0xDF); [lia|].
  destruct (Z.leb_spec 0xE0 v); [|lia]. destruct (Z.leb_spec v 0xEF); [|lia].
  reflexivity.
Qed.

Lemma utf8_lead_4 (v : Z) :
  0xF0 <= v <= 0xF4 ->
  utf8_lead v = ([], {| code_point := v mod 8; expected := 3;
                        lower := if v =? 0xF0 then 0x90 else 0x80;
                        upper := if v =? 0xF4 then 0x8F else 0xBF |}).
Proof.
  intros H. unfold utf8_lead.
  destruct (Z.leb_spec v 0x7F); [lia|].
  destruct (Z.leb_spec 0xC2 v); [|lia]. destruct (Z.leb_spec v 0xDF); [lia|].
  destruct (Z.leb_spec 0xE0 v); [|lia]. destruct (Z.leb_spec v 0xEF); [lia|].
  destruct (Z.leb_spec 0xF0 v); [|lia]. destruct (Z.leb_spec v 0xF4); [|lia].
  reflexivity.
Qed.

Lemma is_scalar_range (c : Z) :
  is_scalar c = true -> 0 <= c < 0xD800 \/ 0xE000 <= c <= 0x10FFFF.
Proof.
  unfold is_scalar. intros H. apply orb_prop in H as [H|H];
    apply andb_prop in H as [H1 H2]; [left|right]; lia.
Qed.

Ltac continue_step :=
  rewrite utf8_decode_continue;
  [ try change (3 - 1) with 2; try change (2 - 1) with 1;
    try change (3 =? 1) with false; try change (2 =? 1) with false;
    try change (1 =? 1) with true; cbv iota
  | lia
  | rewrite unsigned_of_Z_small by arith; split_cmp; arith ].

Lemma utf8_decode_encode_scalar (c : Z) (rest : bytes) :
  is_scalar c = true ->
  utf8_decode utf8_initial (utf8_encode_scalar c ++ rest)
  = c :: utf8_decode utf8_initial rest.
Proof.
  intros Hc%is_scalar_range. unfold utf8_encode_scalar.
  change (2 ^ 6) with 64. change (2 ^ 12) with 4096. change (2 ^ 18) with 262144.
  destruct (Z.ltb_spec c 0x80); [|destruct (Z.ltb_spec c 0x800);
                                  [|destruct (Z.ltb_spec c 0x10000)]];
    cbn [app]; rewrite utf8_decode_start.
  - rewrite unsigned_of_Z_small, utf8_lead_1 by lia. reflexivity.
  - rewrite unsigned_of_Z_small, utf8_lead_2 by arith. cbn [fst snd app].
    continue_step.
    rewrite unsigned_of_Z_small by arith. f_equal. arith.
  - rewrite unsigned_of_Z_small, utf8_lead_3 by arith. cbn [fst snd app].
    do 2 continue_step.
    rewrite !unsigned_of_Z_small by arith. f_equal. arith.
  - rewrite unsigned_of_Z_small, utf8_lead_4 by arith. cbn [fst snd app].
    do 3 continue_step.
    rewrite !unsigned_of_Z_small by arith. f_equal. arith.
Qed.

Lemma utf8_decode_encode (s : ustring) :
  well_formed s -> utf8_decode utf8_initial (TextEncoder_encode s) = s.
Proof.
  induction 1 as [|c s Hc _ IH]; [reflexivity|].
  cbn [TextEncoder_encode flat_map]. fold (TextEncoder_encode s).
  rewrite Hc, utf8_decode_encode_scalar, IH by assumption. reflexivity.
Qed.

(** Decoding gives back an encoded string, but for a leading byte order
    mark, which [TextDecoder] drops. *)
Lemma TextDecoder_TextEncoder (s : ustring) :
  well_formed s -> hd 0 s <> BOM ->
  TextDecoder_decode (TextEncoder_encode s) = s.
Proof.
  intros Hwf Hbom. unfold TextDecoder_decode. rewrite utf8_decode_encode by assumption.
  destruct s as [|c s]; [reflexivity|]. cbn [hd] in Hbom.
  now destruct (Z.eqb_spec c BOM).
Qed.

Lemma TextDecoder_drops_BOM (s : ustring) :
  well_formed s -> TextDecoder_decode (TextEncoder_encode (BOM :: s)) = s.
Proof.
  intros Hwf. unfold TextDecoder_decode.
  rewrite utf8_decode_encode by (constructor; [reflexivity | assumption]).
  reflexivity.
Qed.

(** ** The header: what [serializeHeader] writes *)

Lemma Uint8Array_nil (n : Z) : n = 0 -> Uint8Array n = [].
Proof. now intros ->. Qed.

Section HeaderLayout.

Variable h : FileHeader.
Hypothesis Hmagic : len (magic h) = 4.
Hypothesis Hsalt : len (salt h) = 32.

Ltac lens :=
  rewrite ?len_app, ?len_cons, ?len_be16, ?len_be32, ?Hmagic, ?Hsalt;
  change (len (@nil Init.Byte.byte)) with 0;
  try lia.

Lemma serializeHeader_layout : serializeHeader h = Ok (header_layout h).
Proof.
  unfold serializeHeader. cbv zeta.
  set (filenameBytes := TextEncoder_encode (originalFilename h)).
  pose proof (len_nonneg filenameBytes) as Hf.
  match goal with
  | |- context [Uint8Array ?n] => change (Uint8Array n) with ([] ++ Uint8Array n)
  end.
  rewrite set_frontier by lens. cbn [bind].
  rewrite setUint16_frontier by lens. cbn [bind].
  rewrite setUint8_frontier by lens. cbn [bind].
  rewrite setUint8_frontier by lens. cbn [bind].
  rewrite setUint32_frontier by lens. cbn [bind].
  rewrite setUint32_frontier by lens. cbn [bind].
  rewrite setUint8_frontier by lens. cbn [bind].
  rewrite set_frontier by lens. cbn [bind].
  rewrite setUint32_frontier by lens. cbn [bind].
  rewrite setUint32_frontier by lens. cbn [bind].
  rewrite setUint32_frontier by lens. cbn [bind].
  rewrite setUint16_frontier by lens. cbn [bind].
  rewrite set_frontier by lens. cbn [bind].
  rewrite Uint8Array_nil by lens.
  rewrite app_nil_r, <- !app_assoc. reflexivity.
Qed.

Lemma len_header_layout :
  len (header_layout h) = 63 + len (TextEncoder_encode (originalFilename h)).
Proof. unfold header_layout. lens. Qed.

(** ** The header: what [getHeaderSize] reads *)

(** The sixteen bits [getHeaderSize] loads at offset 56 are the last byte of
    the original size and the first byte of the chunk count. *)
Lemma getHeaderSize_layout (rest : bytes) :
  getHeaderSize (header_layout h ++ rest)
  = Ok (63 + ((originalSize h mod 2 ^ 8) * 2 ^ 8
              + (totalChunks h / 2 ^ 24) mod 2 ^ 8)).
Proof.
  unfold getHeaderSize, header_layout. rewrite <- !app_assoc.
  do 9 (rewrite getUint16_app_skip by lens).
  match goal with
  | |- context [getUint16 _ ?off] => replace off with 3 by lens
  end.
  unfold getUint16.
  rewrite in_view_true;
    [| lia
     | lens; pose proof (len_nonneg (TextEncoder_encode (originalFilename h)));
       pose proof (len_nonneg rest); lia ].
  unfold byte_at, be32. change (Z.to_nat 3) with 3%nat.
  change (Z.to_nat (3 + 1)) with 4%nat. cbn [app nth bind].
  rewrite !byte.unsigned_of_Z. reflexivity.
Qed.

(** ** The header: what [deserializeHeader] reads *)

Lemma magic_check :
  every (fun b i =>
           match nth_error MAGIC_BYTES (Z.to_nat i) with
           | Some m => Byte.eqb b m
           | None => false
           end) MAGIC_BYTES = true.
Proof. reflexivity. Qed.

Ltac read8 :=
  repeat (rewrite getUint8_app_skip by lens);
  rewrite getUint8_here_app by lens; cbn [bind].
Ltac read16 :=
  repeat (rewrite getUint16_app_skip by lens);
  rewrite getUint16_here by lens; cbn [bind].
Ltac read32 :=
  repeat (rewrite getUint32_app_skip by lens);
  rewrite getUint32_here by lens; cbn [bind].

Lemma deserializeHeader_layout (rest : bytes) :
  magic h = MAGIC_BYTES ->
  len (TextEncoder_encode (originalFilename h)) < 2 ^ 16 ->
  deserializeHeader (header_layout h ++ rest)
  = Ok {| magic := magic h;
          version := version h mod 2 ^ 16;
          algorithm := algorithm h;
          kdf := Argon2id;
          kdfMemory := kdfMemory h mod 2 ^ 32;
          kdfIterations := kdfIterations h mod 2 ^ 32;
          kdfParallelism := kdfParallelism h mod 2 ^ 8;
          salt := salt h;
          chunkSize := chunkSize h mod 2 ^ 32;
          originalFilename :=
            TextDecoder_decode (TextEncoder_encode (originalFilename h));
          originalSize := originalSize h mod 2 ^ 32;
          totalChunks := totalChunks h mod 2 ^ 32 |}.
Proof.
  intros Hm Hf.
  pose proof (len_nonneg (TextEncoder_encode (originalFilename h))) as Hf0.
  unfold deserializeHeader, header_layout. rewrite <- !app_assoc. cbv zeta.
  rewrite slice_app_here by lens.
  rewrite Hm at 1. rewrite magic_check. cbn [negb].
  read16. read8. read8. read32. read32. read8. read32. read32. read32. read16.
  rewrite (Z.mod_small (len _)) by lia.
  f_equal. f_equal.
  - now destruct (algorithm h).
  - repeat (rewrite slice_app_skip by lens). now rewrite slice_app_here by lens.
  - f_equal. repeat (rewrite slice_app_skip by lens).
    now rewrite slice_app_here by lens.
Qed.

End HeaderLayout.

(** ** Reading a file in chunks *)

Lemma CHUNK_SIZE_pos : 0 < CHUNK_SIZE.
Proof. reflexivity. Qed.

Lemma Math_ceil_div_spec (a b : Z) :
  0 <= a -> 0 < b ->
  (Math_ceil_div a b - 1) * b < a <= Math_ceil_div a b * b
  \/ (a = 0 /\ Math_ceil_div a b = 0).
Proof.
  intros Ha Hb. unfold Math_ceil_div.
  destruct (Z.eqb_spec (a mod b) 0) as [E|E].
  - destruct (Z.eq_dec a 0) as [->|Hne].
    + right. split; [reflexivity|]. now rewrite Z.div_0_l by lia.
    + left. Z.div_mod_to_equations. nia.
  - left. Z.div_mod_to_equations. nia.
Qed.

Lemma Math_ceil_div_nonneg (a b : Z) :
  0 <= a -> 0 < b -> 0 <= Math_ceil_div a b.
Proof.
  intros Ha Hb. unfold Math_ceil_div.
  destruct (Z.eqb_spec (a mod b) 0); Z.div_mod_to_equations; nia.
Qed.

Lemma len_slice (data : bytes) (s e : Z) :
  0 <= s <= e -> e <= len data -> len (Uint8Array_slice data s e) = e - s.
Proof.
  intros Hs He. rewrite slice_within by assumption.
  unfold len in *. rewrite length_firstn, length_skipn. lia.
Qed.

Lemma firstn_add {A : Type} (n m : nat) (l : list A) :
  firstn (n + m) l = firstn n l ++ firstn m (skipn n l).
Proof.
  revert l. induction n as [|n IH]; intros l; [reflexivity|].
  destruct l as [|x l]; cbn [Nat.add firstn skipn app].
  - now rewrite firstn_nil.
  - now rewrite IH.
Qed.

Lemma slice_app_slice (data : bytes) (a b c : Z) :
  0 <= a <= b -> b <= c -> c <= len data ->
  Uint8Array_slice data a b ++ Uint8Array_slice data b c
  = Uint8Array_slice data a c.
Proof.
  intros Ha Hb Hc. rewrite !slice_within by lia.
  replace (Z.to_nat (c - a)) with (Z.to_nat (b - a) + Z.to_nat (c - b))%nat by lia.
  rewrite firstn_add, skipn_skipn. do 3 f_equal. lia.
Qed.

Lemma length_read_chunks (file : File) (fuel : nat) (i : Z) :
  List.length (read_chunks file fuel i) = fuel.
Proof.
  revert i. induction fuel as [|fuel IH]; intros i; cbn [read_chunks List.length];
    [reflexivity | now rewrite IH].
Qed.

Lemma nth_read_chunks (file : File) (fuel : nat) :
  forall (i : Z) (k : nat),
    (k < fuel)%nat ->
    nth k (read_chunks file fuel i) []
    = File_slice file ((i + Z.of_nat k) * CHUNK_SIZE)
                 (Z.min ((i + Z.of_nat k) * CHUNK_SIZE + CHUNK_SIZE) (size file)).
Proof.
  induction fuel as [|fuel IH]; intros i k Hk; [lia|].
  cbn [read_chunks]. destruct k as [|k]; cbn [nth].
  - now rewrite Z.add_0_r.
  - rewrite IH by lia. do 2 f_equal; lia.
Qed.

Lemma slice_empty (data : bytes) (s e : Z) :
  0 <= s -> 0 <= e -> e <= s \/ len data <= s -> Uint8Array_slice data s e = [].
Proof.
  intros Hs He H. pose proof (len_nonneg data).
  unfold Uint8Array_slice, relative_index.
  destruct (Z.ltb_spec s 0); [lia|]. destruct (Z.ltb_spec e 0); [lia|].
  replace (Z.to_nat (Z.min e (len data) - Z.min s (len data))) with 0%nat by lia.
  reflexivity.
Qed.

Lemma concat_read_chunks (file : File) (fuel : nat) :
  forall i : Z,
    0 <= i ->
    List.concat (read_chunks file fuel i)
    = File_slice file (Z.min (i * CHUNK_SIZE) (size file))
                 (Z.min ((i + Z.of_nat fuel) * CHUNK_SIZE) (size file)).
Proof.
  pose proof CHUNK_SIZE_pos as Hcs. pose proof (len_nonneg (content file)) as Hlen.
  unfold File_slice, size.
  induction fuel as [|fuel IH]; intros i Hi; cbn [read_chunks List.concat].
  - rewrite Z.add_0_r. symmetry. apply slice_empty; lia.
  - rewrite IH by lia. unfold File_slice, size.
    replace (i + 1 + Z.of_nat fuel) with (i + Z.of_nat (S fuel)) by lia.
    destruct (Z.le_gt_cases (i * CHUNK_SIZE) (len (content file))) as [Hle|Hgt].
    + rewrite (Z.min_l (i * CHUNK_SIZE)) by lia.
      replace (i * CHUNK_SIZE + CHUNK_SIZE) with ((i + 1) * CHUNK_SIZE) by lia.
      apply slice_app_slice; nia.
    + rewrite !slice_empty by nia. reflexivity.
Qed.

Lemma len_read_chunk (file : File) (i : Z) :
  0 <= i -> i * CHUNK_SIZE <= size file ->
  len (File_slice file (i * CHUNK_SIZE)
                  (Z.min (i * CHUNK_SIZE + CHUNK_SIZE) (size file)))
  = Z.min CHUNK_SIZE (size file - i * CHUNK_SIZE).
Proof.
  intros Hi Hsz. pose proof CHUNK_SIZE_pos. unfold File_slice, size in *.
  rewrite len_slice by nia. lia.
Qed.

(** ** Assembling buffers *)

Lemma fold_left_len (chunks : list bytes) (acc : Z) :
  fold_left (fun acc chunk => acc + len chunk) chunks acc
  = acc + len (List.concat chunks).
Proof.
  revert acc. induction chunks as [|c cs IH]; intros acc; cbn [fold_left List.concat].
  - change (len (@nil Init.Byte.byte)) with 0. lia.
  - rewrite IH, len_app. lia.
Qed.

Lemma copy_chunks_frontier (chunks : list bytes) :
  forall (pre : bytes) (n offset : Z),
    offset = len pre -> n = len (List.concat chunks) ->
    copy_chunks chunks (pre ++ Uint8Array n) offset
    = Ok (pre ++ List.concat chunks).
Proof.
  induction chunks as [|c cs IH]; intros pre n offset Hoff Hn; cbn [copy_chunks List.concat] in *.
  - subst n. now rewrite Uint8Array_nil by reflexivity.
  - rewrite len_app in Hn. pose proof (len_nonneg (List.concat cs)).
    rewrite set_frontier by lia. cbn [bind].
    rewrite IH by (rewrite ?len_app; lia). now rewrite <- app_assoc.
Qed.

Lemma combine_chunks_concat (chunks : list bytes) :
  combine_chunks chunks = Ok (List.concat chunks).
Proof.
  unfold combine_chunks. rewrite fold_left_len. cbn [Z.add].
  change (Uint8Array (len (List.concat chunks)))
    with ([] ++ Uint8Array (len (List.concat chunks))).
  now rewrite copy_chunks_frontier.
Qed.

Lemma len_generateRandomBytes (n : Z) (g : rng) :
  0 <= n -> len (fst (generateRandomBytes n g)) = n.
Proof.
  intros Hn. unfold generateRandomBytes, len. cbn [fst].
  rewrite length_map, length_seq. lia.
Qed.

Lemma chunk_record_layout (chunkNonce encryptedChunk : bytes) :
  len chunkNonce = 12 ->
  chunk_record chunkNonce encryptedChunk
  = Ok (be32 (len encryptedChunk) ++ chunkNonce ++ encryptedChunk).
Proof.
  intros Hn. unfold chunk_record. pose proof (len_nonneg encryptedChunk).
  change (Uint8Array (4 + 12 + len encryptedChunk))
    with ([] ++ Uint8Array (4 + 12 + len encryptedChunk)).
  rewrite setUint32_frontier by (reflexivity || lia). cbn [bind].
  rewrite set_frontier by (rewrite ?len_app, ?len_be32, ?Hn; reflexivity || lia).
  cbn [bind].
  rewrite set_frontier by (rewrite ?len_app, ?len_be32, ?Hn; reflexivity || lia).
  cbn [bind]. rewrite Uint8Array_nil by lia.
  rewrite app_nil_r, <- !app_assoc. reflexivity.
Qed.

(** ** The encryption pipeline *)

Section Encryption.

Context {platform : Platform}.

Lemma hashFileData_ok (file : File) :
  hashFileData file
  = let chunks :=
      read_chunks file (Z.to_nat (Math_ceil_div (size file) CHUNK_SIZE)) 0 in
    Ok (calculateHash (List.concat chunks), chunks).
Proof.
  unfold hashFileData. cbv zeta. now rewrite combine_chunks_concat.
Qed.

Lemma len_chunk_nonce (mn : bytes) (i : Z) :
  8 <= len mn -> len (chunk_nonce mn i) = 12.
Proof.
  intros H. unfold chunk_nonce. rewrite len_app, len_be32.
  change 8%nat with (Z.to_nat 8). rewrite len_firstn by lia. reflexivity.
Qed.

Lemma encrypt_chunks_records (ms mn : bytes) (a : Algorithm)
    (fileChunks : list bytes) :
  8 <= len mn ->
  forall (i : Z) (chunks : list bytes),
    encrypt_chunks ms mn a i fileChunks chunks
    = Ok (chunks ++ records_from ms mn a i fileChunks).
Proof.
  intros Hmn. induction fileChunks as [|c cs IH]; intros i chunks;
    cbn [encrypt_chunks records_from].
  - now rewrite app_nil_r.
  - rewrite deriveChunkKey_ok, deriveChunkNonce_ok by assumption. cbn [bind].
    unfold encryptChunk. cbn [bind]. fold (chunk_nonce mn i). fold (chunk_key ms i).
    rewrite chunk_record_layout by now apply len_chunk_nonce. cbn [bind].
    rewrite IH, <- app_assoc. reflexivity.
Qed.

(** What [encryptFile] assembles, when the key derivation succeeds: the
    header as laid out by the format, then the record of every chunk. *)
Lemma encryptFile_chunks_ok (file : File) (password : string) (a : Algorithm)
    (kdfMemory kdfIterations kdfParallelism : option Z) (g : rng)
    (masterKey : bytes) :
  argon2id password (fst (generateSalt g)) (default 3 kdfIterations)
           (default 65536 kdfMemory) (default 4 kdfParallelism)
  = Some masterKey ->
  let fileChunks :=
    read_chunks file (Z.to_nat (Math_ceil_div (size file) CHUNK_SIZE)) 0 in
  let header :=
    {| magic := MAGIC_BYTES; version := FORMAT_VERSION; algorithm := a;
       kdf := Argon2id; kdfMemory := default 65536 kdfMemory;
       kdfIterations := default 3 kdfIterations;
       kdfParallelism := default 4 kdfParallelism;
       salt := fst (generateSalt g); chunkSize := CHUNK_SIZE;
       originalFilename := name file; originalSize := size file;
       totalChunks := len fileChunks |} in
  encryptFile_chunks file password a kdfMemory kdfIterations kdfParallelism g
  = Ok (header_layout header
        :: records_from masterKey
             (fst (generateNonce (snd (generateSalt g)))) a 0 fileChunks,
        calculateHash (List.concat fileChunks)).
Proof.
  intros Hkdf fileChunks header. unfold encryptFile_chunks. cbv zeta.
  rewrite hashFileData_ok. cbv zeta. cbn [bind fst snd].
  unfold deriveKeyArgon2. rewrite Hkdf. cbn [bind].
  cbn [base].
  fold fileChunks. fold header.
  rewrite serializeHeader_layout
    by (try reflexivity; apply (len_generateRandomBytes 32); lia).
  cbn [bind].
  rewrite encrypt_chunks_records
    by (unfold generateNonce; rewrite len_generateRandomBytes; lia).
  reflexivity.
Qed.

End Encryption.

(** ** The records of a container *)

Lemma stand_in_tag_appended : tag_appended (platform := stand_in).
Proof.
  intros a key nonce data. cbn [seal stand_in]. rewrite len_app.
  unfold stand_in_tag, len. rewrite length_firstn, length_app, repeat_length. lia.
Qed.

Section ContainerRecords.

Context {platform : Platform}.
Variables (ms mn : bytes) (a : Algorithm).

Lemma length_records_from (chunks : list bytes) (i : Z) :
  List.length (records_from ms mn a i chunks) = List.length chunks.
Proof.
  revert i. induction chunks as [|c cs IH]; intros i; cbn [records_from List.length];
    [reflexivity | now rewrite IH].
Qed.

Lemma nth_records_from (chunks : list bytes) :
  forall (i : Z) (k : nat),
    (k < List.length chunks)%nat ->
    nth k (records_from ms mn a i chunks) []
    = record_of ms mn a (i + Z.of_nat k) (nth k chunks []).
Proof.
  induction chunks as [|c cs IH]; intros i k Hk; cbn [List.length] in Hk; [lia|].
  cbn [records_from]. destruct k as [|k]; cbn [nth].
  - now rewrite Z.add_0_r.
  - rewrite IH by lia. f_equal. lia.
Qed.

Hypothesis Htag : tag_appended.

Lemma len_record_of (i : Z) (chunk : bytes) :
  8 <= len mn -> len (record_of ms mn a i chunk) = 4 + 12 + (len chunk + 16).
Proof.
  intros Hmn. unfold record_of. cbv zeta.
  rewrite !len_app, len_be32, len_chunk_nonce, Htag by assumption. lia.
Qed.

Lemma getUint32_record_of (i : Z) (chunk : bytes) :
  len chunk + 16 < 2 ^ 32 ->
  getUint32 (record_of ms mn a i chunk) 0 = Ok (len chunk + 16).
Proof.
  intros Hc. pose proof (len_nonneg chunk). unfold record_of. cbv zeta.
  rewrite getUint32_here by reflexivity. rewrite Htag, Z.mod_small by lia.
  reflexivity.
Qed.

Lemma len_concat_records_from (chunks : list bytes) (i : Z) :
  8 <= len mn ->
  len (List.concat (records_from ms mn a i chunks))
  = 32 * len chunks + len (List.concat chunks).
Proof.
  intros Hmn. revert i.
  induction chunks as [|c cs IH]; intros i; cbn [records_from List.concat].
  - reflexivity.
  - rewrite !len_app, len_cons, IH, len_record_of by assumption. lia.
Qed.

End ContainerRecords.

Lemma read_chunks_whole (file : File) :
  List.concat
    (read_chunks file (Z.to_nat (Math_ceil_div (size file) CHUNK_SIZE)) 0)
  = content file.
Proof.
  pose proof CHUNK_SIZE_pos as Hcs. pose proof (len_nonneg (content file)) as Hlen.
  rewrite concat_read_chunks by lia. unfold File_slice, size.
  pose proof (Math_ceil_div_nonneg (len (content file)) CHUNK_SIZE Hlen Hcs).
  rewrite Z2Nat.id by assumption.
  destruct (Math_ceil_div_spec (len (content file)) CHUNK_SIZE Hlen Hcs) as [H1|[H1 H2]].
  - cbn [Z.mul Z.add]. rewrite Z.min_l, Z.min_r by lia. apply slice_all. lia.
  - rewrite H2. cbn [Z.mul Z.add]. rewrite H1. cbn [Z.min Z.compare].
    rewrite (len_zero_nil _ H1). reflexivity.
Qed.

Section ChunkCount.

Context {platform : Platform}.

(** C6. A file of at least one byte, encrypted with the default parameters
    (chunks of 4 MiB): [encryptFile] emits the header and then exactly
    ceil(originalSize / chunkSize) records, that number being the one stored
    as [totalChunks]; the records are those of the consecutive chunks of the
    file; the length field of each record is the length of its cleartext
    plus 16; and the last cleartext has originalSize - (totalChunks - 1) *
    chunkSize bytes. It holds for a platform whose key derivation accepts
    the default parameters and whose cipher appends its 16-byte tag. *)
Theorem encryptFile_chunk_records (file : File) (password : string)
    (a : Algorithm) (g : rng) (masterKey : bytes) :
  1 <= size file ->
  argon2id password (fst (generateSalt g)) 3 65536 4 = Some masterKey ->
  tag_appended ->
  exists (header : FileHeader) (records cleartexts : list bytes) (hash : string),
    encryptFile_chunks file password a None None None g
    = Ok (header_layout header :: records, hash)
    /\ encryptFile file password a None None None g
       = Ok {| EncryptResult.blob := header_layout header ++ List.concat records;
               EncryptResult.filename := name file ++ of_ascii ".skita";
               EncryptResult.originalHash := hash |}
    /\ chunkSize header = 4 * 1024 * 1024
    /\ originalSize header = size file
    /\ totalChunks header = len records
    /\ (len records - 1) * chunkSize header < size file
       <= len records * chunkSize header
    /\ List.concat cleartexts = content file
    /\ len cleartexts = len records
    /\ records
       = records_from masterKey (fst (generateNonce (snd (generateSalt g)))) a 0
                      cleartexts
    /\ (forall k : nat,
          (k < List.length records)%nat ->
          getUint32 (nth k records []) 0 = Ok (len (nth k cleartexts []) + 16))
    /\ len (nth (Z.to_nat (len records - 1)) cleartexts [])
       = size file - (len records - 1) * chunkSize header.
Proof.
  intros Hsize Hkdf Htag.
  pose proof CHUNK_SIZE_pos as Hcs. pose proof (len_nonneg (content file)) as Hlen.
  pose proof (encryptFile_chunks_ok file password a None None None g masterKey Hkdf)
    as E. cbv zeta in E.
  set (n := Math_ceil_div (size file) CHUNK_SIZE) in *.
  set (fileChunks := read_chunks file (Z.to_nat n) 0) in *.
  set (mn := fst (generateNonce (snd (generateSalt g)))) in *.
  assert (Hn : (n - 1) * CHUNK_SIZE < size file <= n * CHUNK_SIZE).
  { destruct (Math_ceil_div_spec (size file) CHUNK_SIZE) as [H|[H _]];
      [unfold size; lia | lia | exact H | lia]. }
  assert (Hn1 : 1 <= n) by nia.
  assert (Hlenc : len fileChunks = n).
  { unfold len, fileChunks. rewrite length_read_chunks. lia. }
  assert (Hlenr : len (records_from masterKey mn a 0 fileChunks) = n).
  { unfold len. rewrite length_records_from. exact Hlenc. }
  eexists _, (records_from masterKey mn a 0 fileChunks), fileChunks, _.
  split; [exact E|].
  split; [unfold encryptFile; rewrite E; reflexivity|].
  cbn [chunkSize originalSize totalChunks]. rewrite Hlenr.
  assert (Hchunk : forall k : nat, (k < Z.to_nat n)%nat ->
            len (nth k fileChunks [])
            = Z.min CHUNK_SIZE (size file - Z.of_nat k * CHUNK_SIZE)).
  { intros k Hk. unfold fileChunks. rewrite nth_read_chunks by assumption.
    cbn [Z.add]. apply len_read_chunk; nia. }
  repeat split; try reflexivity; try lia; try assumption.
  - apply read_chunks_whole.
  - intros k Hk. rewrite length_records_from in Hk.
    assert (Hk' : (k < Z.to_nat n)%nat) by (unfold len in Hlenc; lia).
    rewrite nth_records_from by assumption.
    apply getUint32_record_of; [assumption|].
    rewrite Hchunk by assumption. change CHUNK_SIZE with 4194304 in *.
    change (2 ^ 32) with 4294967296. lia.
  - rewrite Hchunk by lia. rewrite Z2Nat.id by lia. lia.
Qed.

End ChunkCount.

Lemma encryptFile_chunk_records_witness :
  1 <= size hello
  /\ exists (header : FileHeader) (records cleartexts : list bytes) (hash : string),
    encryptFile_chunks (platform := stand_in) hello "pw" AES_GCM None None None
                       zero_rng
    = Ok (header_layout header :: records, hash)
    /\ encryptFile (platform := stand_in) hello "pw" AES_GCM None None None
                    zero_rng
       = Ok {| EncryptResult.blob := header_layout header ++ List.concat records;
               EncryptResult.filename := name hello ++ of_ascii ".skita";
               EncryptResult.originalHash := hash |}
    /\ chunkSize header = 4 * 1024 * 1024
    /\ originalSize header = size hello
    /\ totalChunks header = len records
    /\ (len records - 1) * chunkSize header < size hello
       <= len records * chunkSize header
    /\ List.concat cleartexts = content hello
    /\ len cleartexts = len records
    /\ records
       = records_from (checksum (list_byte_of_string "pw" ++ Uint8Array 32))
                      (fst (generateNonce (snd (generateSalt zero_rng))))
                      AES_GCM 0 cleartexts
    /\ (forall k : nat,
          (k < List.length records)%nat ->
          getUint32 (nth k records []) 0 = Ok (len (nth k cleartexts []) + 16))
    /\ len (nth (Z.to_nat (len records - 1)) cleartexts [])
       = size hello - (len records - 1) * chunkSize header.
Proof.
  split; [now vm_compute|].
  apply encryptFile_chunk_records;
    [now vm_compute | reflexivity | exact stand_in_tag_appended].
Defined.

(** ** The decryption pipeline *)

Section Decryption.

Context {platform : Platform}.

Lemma decrypt_chunks_tag_fails (file : File) (masterKey : bytes) (a : Algorithm)
    (fuel : nat) (i offset : Z) :
  tag_fails file masterKey a fuel i offset ->
  forall decryptedChunks,
    decrypt_chunks file masterKey a fuel i offset decryptedChunks
    = Err DecryptionFailed.
Proof.
  induction 1 as [fuel i offset n Hlen Hopen
                 | fuel i offset n decrypted Hlen Hopen _ IH];
    intros decryptedChunks; cbn [decrypt_chunks];
    rewrite Hlen; cbn [bind]; rewrite deriveChunkKey_ok; cbn [bind];
    unfold decryptChunk; fold (chunk_key masterKey i); rewrite Hopen.
  - reflexivity.
  - apply IH.
Qed.

(** The loop raises the decryption error in no other case. *)
Lemma decrypt_chunks_failed_inv (file : File) (masterKey : bytes) (a : Algorithm)
    (fuel : nat) :
  forall (i offset : Z) (decryptedChunks : list bytes),
    decrypt_chunks file masterKey a fuel i offset decryptedChunks
    = Err DecryptionFailed ->
    tag_fails file masterKey a fuel i offset.
Proof.
  induction fuel as [|fuel IH]; intros i offset decryptedChunks;
    cbn [decrypt_chunks]; [discriminate|].
  destruct (getUint32 _ 0) as [n|e] eqn:Hlen; cbn [bind].
  - rewrite deriveChunkKey_ok. cbn [bind]. unfold decryptChunk.
    fold (chunk_key masterKey i).
    destruct (unseal _ _ _ _) as [decrypted|] eqn:Hopen; intros H.
    + eapply tag_fails_later; eauto.
    + eapply tag_fails_here; eauto.
  - unfold getUint32 in Hlen. destruct (in_view _ _ _); [discriminate|].
    injection Hlen as <-. discriminate.
Qed.

Lemma decrypt_chunks_errors (file : File) (masterKey : bytes) (a : Algorithm)
    (fuel : nat) :
  forall (i offset : Z) (decryptedChunks : list bytes) (e : error),
    decrypt_chunks file masterKey a fuel i offset decryptedChunks = Err e ->
    e = RangeError \/ e = DecryptionFailed.
Proof.
  induction fuel as [|fuel IH]; intros i offset decryptedChunks e;
    cbn [decrypt_chunks]; [discriminate|].
  destruct (getUint32 _ 0) as [n|e'] eqn:Hlen; cbn [bind].
  - rewrite deriveChunkKey_ok. cbn [bind].
    destruct (decryptChunk _ _ _ _); [apply IH | intros [= <-]; now right].
  - unfold getUint32 in Hlen. destruct (in_view _ _ _); [discriminate|].
    injection Hlen as <-. intros [= <-]. now left.
Qed.

(** [decryptFile], once the header is parsed and the key derived. *)
Lemma decryptFile_unfold (file : File) (password : string)
    (header : FileHeader) (headerSize : Z) (masterKey : bytes) :
  deserializeHeader (File_slice file 0 2048) = Ok header ->
  getHeaderSize (File_slice file 0 2048) = Ok headerSize ->
  argon2id password (salt header) (kdfIterations header) (kdfMemory header)
           (kdfParallelism header) = Some masterKey ->
  decryptFile file password
  = do decryptedChunks <-
       decrypt_chunks file masterKey (algorithm header)
                      (Z.to_nat (totalChunks header)) 0 headerSize [];
    Ok {| DecryptResult.blob := List.concat decryptedChunks;
          DecryptResult.filename := originalFilename header;
          DecryptResult.verified := false;
          DecryptResult.originalHash := None;
          DecryptResult.decryptedHash := None |}.
Proof.
  intros Hh Hs Hk. unfold decryptFile. cbv zeta. rewrite Hh, Hs. cbn [bind].
  unfold deriveKeyArgon2. rewrite Hk. reflexivity.
Qed.

Lemma deserializeHeader_errors (data : bytes) (e : error) :
  deserializeHeader data = Err e -> e = InvalidFileFormat \/ e = RangeError.
Proof.
  unfold deserializeHeader. cbv zeta.
  destruct (negb _); [intros [= <-]; now left|].
  unfold getUint8, getUint16, getUint32.
  repeat (destruct (in_view data _ _); cbn [bind];
          [| intros [= <-]; now right]).
  discriminate.
Qed.

Lemma getHeaderSize_errors (data : bytes) (e : error) :
  getHeaderSize data = Err e -> e = RangeError.
Proof.
  unfold getHeaderSize, getUint16. destruct (in_view _ _ _); cbn [bind];
    [discriminate | now intros [= <-]].
Qed.

(** The errors [decryptFile] can raise. *)
Lemma decryptFile_errors (file : File) (password : string) (e : error) :
  decryptFile file password = Err e ->
  e = InvalidFileFormat \/ e = RangeError \/ e = KdfFailure
  \/ e = DecryptionFailed.
Proof.
  unfold decryptFile. cbv zeta.
  destruct (deserializeHeader _) as [header|e1] eqn:Hh; cbn [bind].
  2:{ intros [= <-]. apply deserializeHeader_errors in Hh. tauto. }
  destruct (getHeaderSize _) as [headerSize|e2] eqn:Hs; cbn [bind].
  2:{ intros [= <-]. apply getHeaderSize_errors in Hs. tauto. }
  unfold deriveKeyArgon2.
  destruct (argon2id _ _ _ _ _) as [masterKey|]; cbn [bind].
  2:{ intros [= <-]. tauto. }
  destruct (decrypt_chunks _ _ _ _ _ _ _) as [chunks|e3] eqn:Hc; cbn [bind].
  - unfold property_originalHash. discriminate.
  - intros [= <-]. apply decrypt_chunks_errors in Hc. tauto.
Qed.

(** The hash of the plaintext is never compared: no header that
    [deserializeHeader] returns carries one. *)
Lemma decryptFile_never_verified (file : File) (password : string)
    (r : DecryptResult.t) :
  decryptFile file password = Ok r -> DecryptResult.verified r = false.
Proof.
  unfold decryptFile. cbv zeta.
  destruct (deserializeHeader _); cbn [bind]; [|discriminate].
  destruct (getHeaderSize _); cbn [bind]; [|discriminate].
  destruct (deriveKeyArgon2 _ _ _ _ _); cbn [bind]; [|discriminate].
  destruct (decrypt_chunks _ _ _ _ _ _ _); cbn [bind]; [|discriminate].
  unfold property_originalHash. now intros [= <-].
Qed.

(** C5. When the tag of some chunk does not verify while [decryptFile]
    runs, the call ends with the error whose message is "Dekripsi gagal:
    Password salah atau file rusak"; being an error it carries no plaintext,
    and the chunks opened before the failure are dropped with it. *)
Theorem decryptFile_tag_failure (file : File) (password : string)
    (header : FileHeader) (headerSize : Z) (masterKey : bytes) :
  deserializeHeader (File_slice file 0 2048) = Ok header ->
  getHeaderSize (File_slice file 0 2048) = Ok headerSize ->
  argon2id password (salt header) (kdfIterations header) (kdfMemory header)
           (kdfParallelism header) = Some masterKey ->
  tag_fails file masterKey (algorithm header) (Z.to_nat (totalChunks header))
            0 headerSize ->
  decryptFile file password = Err DecryptionFailed
  /\ message DecryptionFailed
     = Some "Dekripsi gagal: Password salah atau file rusak"%string.
Proof.
  intros Hh Hs Hk Hfail. split; [|reflexivity].
  rewrite (decryptFile_unfold _ _ _ _ _ Hh Hs Hk).
  now rewrite (decrypt_chunks_tag_fails _ _ _ _ _ _ Hfail).
Qed.

End Decryption.

(** A container sealed under the password "alpha" and opened with "beta". *)
Lemma decryptFile_tag_failure_witness :
  exists r : EncryptResult.t,
    encryptFile (platform := stand_in) zeroes256 "alpha" AES_GCM None None None
                zero_rng = Ok r
    /\ decryptFile (platform := stand_in) (as_file r) "beta"
       = Err DecryptionFailed
    /\ message DecryptionFailed
       = Some "Dekripsi gagal: Password salah atau file rusak"%string.
Proof.
  eexists. split; [vm_compute; reflexivity|].
  eapply decryptFile_tag_failure with (headerSize := 63).
  - vm_compute. reflexivity.
  - vm_compute. reflexivity.
  - vm_compute. reflexivity.
  - eapply tag_fails_here with (encryptedLength := 272); vm_compute; reflexivity.
Defined.

(** ** Containers of another algorithm *)

Lemma deserializeHeader_algorithm (data : bytes) (header : FileHeader) :
  deserializeHeader data = Ok header ->
  exists id : Z,
    getUint8 data 6 = Ok id
    /\ algorithm header = if id =? 0 then AES_GCM else ChaCha20_Poly1305.
Proof.
  unfold deserializeHeader. cbv zeta. change (0 + 4 + 2) with 6.
  destruct (negb _); [discriminate|].
  destruct (getUint16 data _); cbn [bind]; [|discriminate].
  destruct (getUint8 data 6) as [id|]; cbn [bind]; [|discriminate].
  repeat match goal with
    | |- context [bind ?c _] => destruct c; cbn [bind]; [|discriminate]
    end.
  intros [= <-]. exists id. split; reflexivity.
Qed.

Section OtherAlgorithm.

Context {platform : Platform}.

(** C4, as the code has it. A container whose algorithm byte is not 0 is not
    rejected for it: [deserializeHeader] reads any such byte as
    ChaCha20-Poly1305, and [decryptFile] goes on to derive the key and to
    open the chunk records under that algorithm. The errors it can raise are
    those of a bad magic number, of data that ends too early, of the key
    derivation, and "Dekripsi gagal: Password salah atau file rusak" when a
    chunk does not open; none is about the algorithm. *)
Theorem unknown_algorithm_is_decrypted (file : File) (password : string)
    (id : Z) :
  getUint8 (File_slice file 0 2048) 6 = Ok id ->
  id <> 0 ->
  (forall header : FileHeader,
      deserializeHeader (File_slice file 0 2048) = Ok header ->
      algorithm header = ChaCha20_Poly1305)
  /\ (forall (header : FileHeader) (headerSize : Z) (masterKey : bytes),
         deserializeHeader (File_slice file 0 2048) = Ok header ->
         getHeaderSize (File_slice file 0 2048) = Ok headerSize ->
         argon2id password (salt header) (kdfIterations header)
                  (kdfMemory header) (kdfParallelism header) = Some masterKey ->
         decryptFile file password
         = do decryptedChunks <-
              decrypt_chunks file masterKey ChaCha20_Poly1305
                             (Z.to_nat (totalChunks header)) 0 headerSize [];
           Ok {| DecryptResult.blob := List.concat decryptedChunks;
                 DecryptResult.filename := originalFilename header;
                 DecryptResult.verified := false;
                 DecryptResult.originalHash := None;
                 DecryptResult.decryptedHash := None |})
  /\ (forall e : error,
         decryptFile file password = Err e ->
         e = InvalidFileFormat \/ e = RangeError \/ e = KdfFailure
         \/ e = DecryptionFailed).
Proof.
  intros Hid Hne.
  assert (Halg : forall header : FileHeader,
             deserializeHeader (File_slice file 0 2048) = Ok header ->
             algorithm header = ChaCha20_Poly1305).
  { intros header Hh. apply deserializeHeader_algorithm in Hh as (id' & E & ->).
    rewrite Hid in E. injection E as <-. now destruct (Z.eqb_spec id 0). }
  split; [exact Halg|]. split.
  - intros header headerSize masterKey Hh Hs Hk.
    rewrite (decryptFile_unfold _ _ _ _ _ Hh Hs Hk). now rewrite (Halg _ Hh).
  - apply decryptFile_errors.
Qed.

End OtherAlgorithm.

Lemma unknown_algorithm_is_decrypted_witness :
  (forall header : FileHeader,
      deserializeHeader (File_slice unknown_algorithm_container 0 2048)
      = Ok header ->
      algorithm header = ChaCha20_Poly1305)
  /\ (forall (header : FileHeader) (headerSize : Z) (masterKey : bytes),
         deserializeHeader (File_slice unknown_algorithm_container 0 2048)
         = Ok header ->
         getHeaderSize (File_slice unknown_algorithm_container 0 2048)
         = Ok headerSize ->
         argon2id (Platform := stand_in) "pw" (salt header)
                  (kdfIterations header) (kdfMemory header)
                  (kdfParallelism header) = Some masterKey ->
         decryptFile (platform := stand_in) unknown_algorithm_container "pw"
         = do decryptedChunks <-
              decrypt_chunks (platform := stand_in) unknown_algorithm_container
                             masterKey ChaCha20_Poly1305
                             (Z.to_nat (totalChunks header)) 0 headerSize [];
           Ok {| DecryptResult.blob := List.concat decryptedChunks;
                 DecryptResult.filename := originalFilename header;
                 DecryptResult.verified := false;
                 DecryptResult.originalHash := None;
                 DecryptResult.decryptedHash := None |})
  /\ (forall e : error,
         decryptFile (platform := stand_in) unknown_algorithm_container "pw"
         = Err e ->
         e = InvalidFileFormat \/ e = RangeError \/ e = KdfFailure
         \/ e = DecryptionFailed).
Proof.
  apply unknown_algorithm_is_decrypted with (id := 7);
    [vm_compute; reflexivity | discriminate].
Defined.

(** C4 as the specification states it fails: a container whose algorithm
    byte is 7 is decrypted, successfully; and so is a container written
    under ChaCha20-Poly1305 (byte 1), chunk included. *)
Lemma unknown_algorithm_accepted :
  getUint8 (content unknown_algorithm_container) 6 = Ok 7
  /\ decryptFile (platform := stand_in) unknown_algorithm_container "pw"
     = Ok {| DecryptResult.blob := [];
             DecryptResult.filename := [];
             DecryptResult.verified := false;
             DecryptResult.originalHash := None;
             DecryptResult.decryptedHash := None |}
  /\ exists r : EncryptResult.t,
       encryptFile (platform := stand_in) zeroes256 "alpha" ChaCha20_Poly1305
                   None None None zero_rng = Ok r
       /\ getUint8 (EncryptResult.blob r) 6 = Ok 1
       /\ decryptFile (platform := stand_in) (as_file r) "alpha"
          = Ok {| DecryptResult.blob := content zeroes256;
                  DecryptResult.filename := [];
                  DecryptResult.verified := false;
                  DecryptResult.originalHash := None;
                  DecryptResult.decryptedHash := None |}.
Proof.
  split; [vm_compute; reflexivity|]. split; [vm_compute; reflexivity|].
  eexists. split; [vm_compute; reflexivity|].
  split; vm_compute; reflexivity.
Qed.

(** ** The length of the header, as [getHeaderSize] computes it *)

(** C2 fails on the code: [getHeaderSize] loads its sixteen bits at offset
    56, not at offset 61 where [serializeHeader] stores the length of the
    filename. What it returns for a serialized header is 63 plus the number
    made of the last byte of the original size and the first byte of the
    chunk count; the header itself has 63 bytes plus the filename. *)
Theorem getHeaderSize_serializeHeader (h : FileHeader) :
  len (magic h) = 4 ->
  len (salt h) = 32 ->
  exists data : bytes,
    serializeHeader h = Ok data
    /\ len data = 63 + len (TextEncoder_encode (originalFilename h))
    /\ getHeaderSize data
       = Ok (63 + ((originalSize h mod 2 ^ 8) * 2 ^ 8
                   + (totalChunks h / 2 ^ 24) mod 2 ^ 8)).
Proof.
  intros Hm Hs. exists (header_layout h).
  split; [now apply serializeHeader_layout|].
  split; [now apply len_header_layout|].
  rewrite <- (app_nil_r (header_layout h)). now apply getHeaderSize_layout.
Qed.

(** The header of [hello]: 72 bytes, for which [getHeaderSize] answers 1343. *)
Lemma getHeaderSize_serializeHeader_witness :
  exists data : bytes,
    serializeHeader (hello_header (Uint8Array 32)) = Ok data
    /\ len data = 72
    /\ getHeaderSize data = Ok 1343.
Proof.
  exact (getHeaderSize_serializeHeader (hello_header (Uint8Array 32))
           eq_refl eq_refl).
Defined.

(** ** The container of [hello] *)

Section Hello.

Context {platform : Platform}.
Variables (g : rng) (masterKey : bytes).


Hypothesis Hkdf : argon2id "pw" (fst (generateSalt g)) 3 65536 4 = Some masterKey.

Lemma len_salt0 : len (fst (generateSalt g)) = 32.
Proof. apply (len_generateRandomBytes 32). lia. Qed.

Lemma len_nonce0 : len (fst (generateNonce (snd (generateSalt g)))) = 12.
Proof. apply (len_generateRandomBytes 12). lia. Qed.

Lemma encryptFile_hello :
  encryptFile hello "pw" AES_GCM None None None g
  = Ok {| EncryptResult.blob :=
            header_layout (hello_header (fst (generateSalt g)))
            ++ record_of masterKey
                 (fst (generateNonce (snd (generateSalt g)))) AES_GCM 0
                 (content hello);
          EncryptResult.filename := name hello ++ of_ascii ".skita";
          EncryptResult.originalHash := calculateHash (content hello) |}.
Proof.
  unfold encryptFile.
  rewrite (encryptFile_chunks_ok hello "pw" AES_GCM None None None g masterKey Hkdf).
  cbv zeta. cbn [bind fst snd].
  assert (E : read_chunks hello
                (Z.to_nat (Math_ceil_div (size hello) CHUNK_SIZE)) 0
              = [content hello]) by (vm_compute; reflexivity).
  rewrite E. cbn [List.concat records_from]. rewrite !app_nil_r. reflexivity.
Qed.

Hypothesis Htag : tag_appended.

Lemma len_hello_header : len (header_layout (hello_header (fst (generateSalt g)))) = 72.
Proof. rewrite len_header_layout; [reflexivity | reflexivity | apply len_salt0]. Qed.

Lemma len_hello_record :
  len (record_of masterKey (fst (generateNonce (snd (generateSalt g))))
                 AES_GCM 0 (content hello)) = 37.
Proof.
  rewrite len_record_of by (assumption || (rewrite len_nonce0; lia)). reflexivity.
Qed.

End Hello.

Section HelloClaims.

Context {platform : Platform}.

(** C3 fails on the code: [serializeHeader] writes no hash. For the file
    [hello] ("hello", named hello.txt), the password "pw" and the default
    parameters, the container is the 72-byte header (63 + 9) followed at once
    by the single record of 4 + 12 + 21 bytes: 109 bytes, not 141. *)
Theorem encryptFile_hello_container (g : rng) (masterKey : bytes) :
  argon2id "pw" (fst (generateSalt g)) 3 65536 4 = Some masterKey ->
  tag_appended ->
  exists (r : EncryptResult.t) (header record : bytes),
    encryptFile hello "pw" AES_GCM None None None g = Ok r
    /\ EncryptResult.blob r = header ++ record
    /\ serializeHeader (hello_header (fst (generateSalt g))) = Ok header
    /\ len header = 63 + 9
    /\ getUint32 record 0 = Ok (5 + 16)
    /\ len record = 4 + 12 + 21
    /\ len (EncryptResult.blob r) = 109.
Proof.
  intros Hkdf Htag.
  eexists _, (header_layout (hello_header (fst (generateSalt g)))),
    (record_of masterKey (fst (generateNonce (snd (generateSalt g)))) AES_GCM 0
               (content hello)).
  split; [exact (encryptFile_hello g masterKey Hkdf)|]. cbn [EncryptResult.blob].
  split; [reflexivity|].
  split; [apply serializeHeader_layout; [reflexivity | apply len_salt0]|].
  split; [now apply len_hello_header|].
  split; [now apply getUint32_record_of|].
  split; [now apply len_hello_record|].
  rewrite !len_app, len_hello_header, len_hello_record by assumption.
  reflexivity.
Qed.

(** C1 fails on the code. Decrypting the container of [hello] with the
    password that sealed it does not give the plaintext back: [getHeaderSize]
    answers 1343 for a container of 109 bytes, the first record is looked for
    past the end of the file, and the call ends with a RangeError. *)
Theorem decryptFile_hello_container (g : rng) (masterKey : bytes) :
  argon2id "pw" (fst (generateSalt g)) 3 65536 4 = Some masterKey ->
  tag_appended ->
  exists r : EncryptResult.t,
    encryptFile hello "pw" AES_GCM None None None g = Ok r
    /\ len (EncryptResult.blob r) = 109
    /\ getHeaderSize (File_slice (as_file r) 0 2048) = Ok 1343
    /\ decryptFile (as_file r) "pw" = Err RangeError.
Proof.
  intros Hkdf Htag. eexists.
  split; [exact (encryptFile_hello g masterKey Hkdf)|].
  pose proof (len_hello_header g) as Hh.
  pose proof (len_hello_record g masterKey Htag) as Hr.
  pose proof (len_salt0 g) as Hsalt.
  set (record := record_of _ _ _ _ _) in *.
  assert (Hsize : getHeaderSize
                    (header_layout (hello_header (fst (generateSalt g))) ++ record)
                  = Ok 1343)
    by (rewrite getHeaderSize_layout; [reflexivity | reflexivity | exact Hsalt]).
  assert (Hparse := deserializeHeader_layout
                      (hello_header (fst (generateSalt g)))
                      eq_refl Hsalt record eq_refl eq_refl).
  set (hdr := header_layout _) in *.
  assert (Hlen : len (hdr ++ record) = 109) by (rewrite len_app; lia).
  unfold File_slice, as_file. cbn [content EncryptResult.blob].
  assert (Hslice : Uint8Array_slice (hdr ++ record) 0 2048 = hdr ++ record)
    by (apply slice_all; lia).
  split; [exact Hlen|]. rewrite Hslice. split; [exact Hsize|].
  match goal with |- decryptFile ?f _ = _ => set (file := f) end.
  assert (Hdata : File_slice file 0 2048 = hdr ++ record) by exact Hslice.
  rewrite <- Hdata in Hparse, Hsize.
  rewrite (decryptFile_unfold file "pw" _ 1343 masterKey Hparse Hsize Hkdf).
  cbn [totalChunks algorithm hello_header].
  change (Z.to_nat (1 mod 2 ^ 32)) with 1%nat. cbn [decrypt_chunks].
  unfold File_slice at 1. cbn [content file].
  rewrite slice_beyond by lia. reflexivity.
Qed.

End HelloClaims.

Lemma encryptFile_hello_container_witness :
  exists (r : EncryptResult.t) (header record : bytes),
    encryptFile (platform := stand_in) hello "pw" AES_GCM None None None zero_rng
    = Ok r
    /\ EncryptResult.blob r = header ++ record
    /\ serializeHeader (hello_header (fst (generateSalt zero_rng))) = Ok header
    /\ len header = 63 + 9
    /\ getUint32 record 0 = Ok (5 + 16)
    /\ len record = 4 + 12 + 21
    /\ len (EncryptResult.blob r) = 109.
Proof.
  apply encryptFile_hello_container
    with (masterKey := checksum (list_byte_of_string "pw" ++ Uint8Array 32));
    [reflexivity | exact stand_in_tag_appended].
Defined.

Lemma decryptFile_hello_container_witness :
  exists r : EncryptResult.t,
    encryptFile (platform := stand_in) hello "pw" AES_GCM None None None zero_rng
    = Ok r
    /\ len (EncryptResult.blob r) = 109
    /\ getHeaderSize (File_slice (as_file r) 0 2048) = Ok 1343
    /\ decryptFile (platform := stand_in) (as_file r) "pw" = Err RangeError.
Proof.
  apply decryptFile_hello_container
    with (masterKey := checksum (list_byte_of_string "pw" ++ Uint8Array 32));
    [reflexivity | exact stand_in_tag_appended].
Defined.

(** ** Serializing a header and parsing it back *)

(** C9, as the code has it. A header with the magic number of the format, a
    salt of exactly 32 bytes, numeric fields within their widths, and a
    filename that is a well-formed string of at most 65535 UTF-8 bytes not
    starting with a byte order mark, is serialized without error, and
    parsing the bytes gives the same header back. *)
Theorem deserializeHeader_serializeHeader (h : FileHeader) :
  magic h = MAGIC_BYTES ->
  within_field_widths h ->
  len (salt h) = 32 ->
  well_formed (originalFilename h) ->
  hd 0 (originalFilename h) <> BOM ->
  len (TextEncoder_encode (originalFilename h)) <= 65535 ->
  exists data : bytes,
    serializeHeader h = Ok data /\ deserializeHeader data = Ok h.
Proof.
  intros Hmagic (Hv & Hm & Hi & Hp & Hc & Ho & Ht) Hsalt Hwf Hbom Hlen.
  assert (Hm4 : len (magic h) = 4) by now rewrite Hmagic.
  exists (header_layout h). split; [now apply serializeHeader_layout|].
  rewrite <- (app_nil_r (header_layout h)).
  rewrite deserializeHeader_layout
    by (assumption || (change (2 ^ 16) with 65536; lia)).
  rewrite !Z.mod_small, TextDecoder_TextEncoder by assumption.
  destruct h as [? ? ? [] ? ? ? ? ? ? ? ?]. reflexivity.
Qed.

Lemma deserializeHeader_serializeHeader_witness :
  exists data : bytes,
    serializeHeader (hello_header (Uint8Array 32)) = Ok data
    /\ deserializeHeader data = Ok (hello_header (Uint8Array 32)).
Proof.
  apply deserializeHeader_serializeHeader.
  - reflexivity.
  - unfold within_field_widths. repeat split; now vm_compute.
  - reflexivity.
  - repeat constructor.
  - discriminate.
  - now vm_compute.
Defined.

(** C9 as the specification states it fails, twice. A filename that starts
    with U+FEFF comes back without it, [TextDecoder] dropping a leading byte
    order mark; and a salt of 16 bytes comes back as 32 bytes, the field
    having that width whatever the salt. *)
Lemma header_round_trip_counterexample :
  (magic bom_header = MAGIC_BYTES
   /\ within_field_widths bom_header
   /\ well_formed (originalFilename bom_header)
   /\ len (TextEncoder_encode (originalFilename bom_header)) <= 65535
   /\ exists (data : bytes) (h : FileHeader),
        serializeHeader bom_header = Ok data
        /\ deserializeHeader data = Ok h
        /\ originalFilename bom_header = BOM :: of_ascii "a.txt"
        /\ originalFilename h = of_ascii "a.txt"
        /\ h <> bom_header)
  /\ (magic short_salt_header = MAGIC_BYTES
      /\ within_field_widths short_salt_header
      /\ well_formed (originalFilename short_salt_header)
      /\ len (TextEncoder_encode (originalFilename short_salt_header)) <= 65535
      /\ exists (data : bytes) (h : FileHeader),
           serializeHeader short_salt_header = Ok data
           /\ deserializeHeader data = Ok h
           /\ len (salt short_salt_header) = 16
           /\ len (salt h) = 32
           /\ h <> short_salt_header).
Proof.
  split.
  - split; [reflexivity|]. split; [unfold within_field_widths; repeat split; now vm_compute|].
    split; [repeat constructor|]. split; [now vm_compute|].
    eexists _, _. split; [vm_compute; reflexivity|].
    split; [vm_compute; reflexivity|].
    split; [reflexivity|]. split; [reflexivity|]. discriminate.
  - split; [reflexivity|]. split; [unfold within_field_widths; repeat split; now vm_compute|].
    split; [repeat constructor|]. split; [now vm_compute|].
    eexists _, _. split; [vm_compute; reflexivity|].
    split; [vm_compute; reflexivity|].
    split; [reflexivity|]. split; [reflexivity|]. discriminate.
Qed.
(** ** The empty file *)

Section EmptyFile.

Context {platform : Platform}.

(** C10, as the code has it. An empty file is encrypted into a container
    that is its header and nothing else, with a chunk count of 0, whenever
    Argon2id accepts the password and the KDF parameters (the defaults
    65536, 3 and 4 where none is given). When the filename is a well-formed
    string of at most 1985 UTF-8 bytes (the header then fits the 2048 bytes
    [decryptFile] reads) that does not start with a byte order mark,
    [decryptFile] opens that container under any password that Argon2id
    accepts with the parameters as the header stores them (memory and
    iterations modulo 2^32, parallelism modulo 256: the parameters
    themselves when they fit their fields), and returns an empty plaintext
    and the filename. *)
Theorem empty_file_round_trip (file : File) (password password' : string)
    (a : Algorithm) (memory iterations parallelism : option Z) (g : rng)
    (masterKey masterKey' : bytes) :
  content file = [] ->
  well_formed (name file) ->
  hd 0 (name file) <> BOM ->
  len (TextEncoder_encode (name file)) <= 1985 ->
  argon2id password (fst (generateSalt g)) (default 3 iterations)
           (default 65536 memory) (default 4 parallelism)
  = Some masterKey ->
  argon2id password' (fst (generateSalt g)) (default 3 iterations mod 2 ^ 32)
           (default 65536 memory mod 2 ^ 32) (default 4 parallelism mod 2 ^ 8)
  = Some masterKey' ->
  exists (r : EncryptResult.t) (header : FileHeader) (d : DecryptResult.t),
    encryptFile file password a memory iterations parallelism g = Ok r
    /\ serializeHeader header = Ok (EncryptResult.blob r)
    /\ totalChunks header = 0
    /\ originalSize header = 0
    /\ len (EncryptResult.blob r) = 63 + len (TextEncoder_encode (name file))
    /\ decryptFile (as_file r) password' = Ok d
    /\ DecryptResult.blob d = []
    /\ DecryptResult.filename d = name file.
Proof.
  destruct file as [nm ct]. cbn [content name]. intros -> Hwf Hbom Hlen Hkdf Hkdf'.
  pose proof (len_nonneg (TextEncoder_encode nm)) as Hlen0.
  set (file := {| name := nm; content := [] |}).
  pose proof (encryptFile_chunks_ok file password a memory iterations
                parallelism g masterKey Hkdf) as E.
  cbv zeta in E.
  change (read_chunks file (Z.to_nat (Math_ceil_div (size file) CHUNK_SIZE)) 0)
    with (@nil bytes) in E.
  cbn [records_from List.concat] in E.
  set (header := Build_FileHeader _ _ _ _ _ _ _ _ _ _ _ _) in E.
  assert (Hsalt : len (salt header) = 32)
    by (apply (len_generateRandomBytes 32); lia).
  assert (Hmagic : len (magic header) = 4) by reflexivity.
  assert (Hhl : len (header_layout header) = 63 + len (TextEncoder_encode nm))
    by now rewrite len_header_layout.
  exists {| EncryptResult.blob := header_layout header ++ [];
            EncryptResult.filename := nm ++ of_ascii ".skita";
            EncryptResult.originalHash := calculateHash [] |}, header.
  eexists.
  split; [unfold encryptFile; now rewrite E|].
  cbn [EncryptResult.blob]. rewrite app_nil_r.
  split; [now apply serializeHeader_layout|].
  split; [reflexivity|]. split; [reflexivity|]. split; [exact Hhl|].
  set (container := as_file _).
  assert (Hdata : File_slice container 0 2048 = header_layout header ++ []).
  { unfold File_slice, container, as_file. cbn [content EncryptResult.blob].
    rewrite app_nil_r. apply slice_all. lia. }
  assert (Hparse := deserializeHeader_layout header Hmagic Hsalt [] eq_refl).
  rewrite <- Hdata in Hparse.
  assert (Hsize := getHeaderSize_layout header Hmagic Hsalt []).
  rewrite <- Hdata in Hsize.
  assert (Hf16 : len (TextEncoder_encode (originalFilename header)) < 2 ^ 16)
    by (change (originalFilename header) with nm; change (2 ^ 16) with 65536; lia).
  rewrite (decryptFile_unfold container password' _ _ masterKey'
             (Hparse Hf16) Hsize Hkdf').
  cbn [totalChunks]. change (Z.to_nat (len (@nil bytes) mod 2 ^ 32)) with 0%nat.
  cbn [decrypt_chunks bind List.concat originalFilename header].
  split; [reflexivity|]. cbn [DecryptResult.blob DecryptResult.filename].
  split; [reflexivity|]. now apply TextDecoder_TextEncoder.
Qed.

End EmptyFile.

Lemma empty_file_round_trip_witness :
  exists (r : EncryptResult.t) (header : FileHeader) (d : DecryptResult.t),
    encryptFile (platform := stand_in)
                {| name := of_ascii "empty.txt"; content := [] |} "alpha"
                AES_GCM (Some 1024) None (Some 257) zero_rng = Ok r
    /\ serializeHeader header = Ok (EncryptResult.blob r)
    /\ totalChunks header = 0
    /\ originalSize header = 0
    /\ len (EncryptResult.blob r)
       = 63 + len (TextEncoder_encode (of_ascii "empty.txt"))
    /\ decryptFile (platform := stand_in) (as_file r) "beta" = Ok d
    /\ DecryptResult.blob d = []
    /\ DecryptResult.filename d = of_ascii "empty.txt".
Proof.
  apply (empty_file_round_trip
           {| name := of_ascii "empty.txt"; content := [] |} "alpha" "beta"
           AES_GCM (Some 1024) None (Some 257) zero_rng
           (checksum (list_byte_of_string "alpha" ++ Uint8Array 32))
           (checksum (list_byte_of_string "beta" ++ Uint8Array 32))).
  - reflexivity.
  - repeat constructor.
  - discriminate.
  - now vm_compute.
  - reflexivity.
  - reflexivity.
Defined.

(** C10 as the specification states it fails in five ways, each on an empty
    file. [decryptFile] parses the header out of the first 2048 bytes of the
    container, so of a filename of 1986 bytes it returns the first 1985. A
    filename that starts with U+FEFF comes back without it, and one that
    holds a lone surrogate comes back with U+FFFD in its place. A
    parallelism of 256 is stored as 0, which Argon2id refuses: the container
    [encryptFile] returned cannot be opened, with any password. And
    [encryptFile] itself fails when Argon2id refuses the parameters it is
    given, here 0 iterations. *)
Lemma empty_file_counterexamples :
  (content long_name = []
   /\ well_formed (name long_name)
   /\ len (TextEncoder_encode (name long_name)) = 1986
   /\ exists (r : EncryptResult.t) (d : DecryptResult.t),
        encryptFile (platform := stand_in) long_name "alpha" AES_GCM
                    None None None zero_rng = Ok r
        /\ decryptFile (platform := stand_in) (as_file r) "beta" = Ok d
        /\ DecryptResult.blob d = []
        /\ DecryptResult.filename d = repeat 97 1985
        /\ DecryptResult.filename d <> name long_name)
  /\ (exists (r : EncryptResult.t) (d : DecryptResult.t),
        encryptFile (platform := stand_in)
                    {| name := BOM :: of_ascii "a.txt"; content := [] |}
                    "alpha" AES_GCM None None None zero_rng = Ok r
        /\ decryptFile (platform := stand_in) (as_file r) "alpha" = Ok d
        /\ DecryptResult.filename d = of_ascii "a.txt"
        /\ DecryptResult.filename d <> BOM :: of_ascii "a.txt")
  /\ (exists (r : EncryptResult.t) (d : DecryptResult.t),
        encryptFile (platform := stand_in)
                    {| name := [0xD800]; content := [] |}
                    "alpha" AES_GCM None None None zero_rng = Ok r
        /\ decryptFile (platform := stand_in) (as_file r) "alpha" = Ok d
        /\ DecryptResult.filename d = [REPLACEMENT]
        /\ DecryptResult.filename d <> [0xD800])
  /\ (exists r : EncryptResult.t,
        encryptFile (platform := stand_in)
                    {| name := of_ascii "empty.txt"; content := [] |}
                    "alpha" AES_GCM None None (Some 256) zero_rng = Ok r
        /\ getUint8 (EncryptResult.blob r) 16 = Ok 0
        /\ forall password' : string,
             decryptFile (platform := stand_in) (as_file r) password'
             = Err KdfFailure)
  /\ encryptFile (platform := stand_in)
                 {| name := of_ascii "empty.txt"; content := [] |}
                 "alpha" AES_GCM None (Some 0) None zero_rng
     = Err KdfFailure.
Proof.
  split; [|split; [|split; [|split]]].
  - split; [reflexivity|].
    split; [apply Forall_forall; intros c Hc; apply repeat_spec in Hc; now subst|].
    split; [vm_compute; reflexivity|].
    eexists _, _. split; [vm_compute; reflexivity|].
    split; [vm_compute; reflexivity|].
    split; [reflexivity|]. split; [reflexivity|].
    cbn [DecryptResult.filename]. intros H.
    apply (f_equal (@List.length Z)) in H. unfold long_name in H. cbn [name] in H.
    rewrite !repeat_length in H. discriminate.
  - eexists _, _. split; [vm_compute; reflexivity|].
    split; [vm_compute; reflexivity|]. split; [reflexivity|]. discriminate.
  - eexists _, _. split; [vm_compute; reflexivity|].
    split; [vm_compute; reflexivity|]. split; [reflexivity|]. discriminate.
  - eexists. split; [vm_compute; reflexivity|].
    split; [vm_compute; reflexivity|].
    intros password'. unfold decryptFile, as_file. cbv zeta.
    cbn [content name EncryptResult.blob EncryptResult.filename File_slice].
    unfold File_slice. cbn [content].
    match goal with
    | |- context [deserializeHeader ?d] =>
        let h := eval vm_compute in (deserializeHeader d) in
        change (deserializeHeader d) with h
    end.
    cbn [bind].
    match goal with
    | |- context [getHeaderSize ?d] =>
        let h := eval vm_compute in (getHeaderSize d) in
        change (getHeaderSize d) with h
    end.
    cbn [bind]. reflexivity.
  - vm_compute. reflexivity.
Qed.

(* ================================================================= *)
(** * Further properties of the engine *)

(** ** [deserializeHeader]: which inputs it accepts *)

Lemma Byte_eqb_iff (x y : Init.Byte.byte) : Byte.eqb x y = true <-> x = y.
Proof. split; [apply Byte.byte_dec_bl | apply Byte.byte_dec_lb]. Qed.

(** The test on the magic looks at the bytes that are there: it compares
    [data.slice(0, 4)], which is shorter than four bytes when [data] is. *)
Lemma magic_check_spec (data : bytes) :
  every (fun b i =>
           match nth_error MAGIC_BYTES (Z.to_nat i) with
           | Some m => Byte.eqb b m
           | None => false
           end) (Uint8Array_slice data 0 (0 + 4)) = true
  <-> firstn 4 data = firstn (List.length data) MAGIC_BYTES.
Proof.
  rewrite slice_prefix by lia. change (Z.to_nat (0 + 4)) with 4%nat.
  destruct data as [|a [|b [|c [|d rest]]]]; cbn.
  all: change (Pos.to_nat 1) with 1%nat; change (Pos.to_nat 2) with 2%nat;
    change (Pos.to_nat 3) with 3%nat; cbn [nth_error MAGIC_BYTES];
    rewrite ?firstn_nil, ?andb_true_r, ?andb_true_iff, ?Byte_eqb_iff.
  - tauto.
  - split; [now intros -> | now intros [= ->]].
  - split; [now intros [-> ->] | now intros [= -> ->]].
  - split; [now intros (-> & -> & ->) | now intros [= -> -> ->]].
  - split; [now intros (-> & -> & -> & ->) | now intros [= -> -> -> ->]].
Qed.

Lemma in_view_spec (data : bytes) (off n : Z) :
  0 <= off -> in_view data off n = (off + n <=? len data).
Proof.
  intros H. unfold in_view. destruct (Z.leb_spec 0 off); [reflexivity | lia].
Qed.

(** What [deserializeHeader] returns when it returns: the bytes of [data] at
    the offsets of the format. *)
Lemma deserializeHeader_inv (data : bytes) (h : FileHeader) :
  deserializeHeader data = Ok h ->
  63 <= len data
  /\ firstn 4 data = MAGIC_BYTES
  /\ Ok (version h) = getUint16 data 4
  /\ (exists id, Ok id = getUint8 data 6
                 /\ algorithm h = if id =? 0 then AES_GCM else ChaCha20_Poly1305)
  /\ Ok (kdfMemory h) = getUint32 data 8
  /\ Ok (kdfIterations h) = getUint32 data 12
  /\ Ok (kdfParallelism h) = getUint8 data 16
  /\ salt h = Uint8Array_slice data 17 49
  /\ Ok (chunkSize h) = getUint32 data 49
  /\ Ok (originalSize h) = getUint32 data 53
  /\ Ok (totalChunks h) = getUint32 data 57
  /\ (exists n, Ok n = getUint16 data 61
                /\ originalFilename h
                   = TextDecoder_decode (Uint8Array_slice data 63 (63 + n)))
  /\ magic h = MAGIC_BYTES.
Proof.
  unfold deserializeHeader. cbv zeta.
  destruct (every _ _) eqn:Hm; cbn [negb]; [|discriminate].
  apply magic_check_spec in Hm.
  change (0 + 4) with 4. change (4 + 2) with 6. change (6 + 1) with 7.
  change (7 + 1) with 8. change (8 + 4) with 12. change (12 + 4) with 16.
  change (16 + 1) with 17. change (17 + 32) with 49. change (49 + 4) with 53.
  change (53 + 4) with 57. change (57 + 4) with 61. change (61 + 2) with 63.
  destruct (getUint16 data 4) as [v|] eqn:H4; cbn [bind]; [|discriminate].
  destruct (getUint8 data 6) as [a|] eqn:H6; cbn [bind]; [|discriminate].
  destruct (getUint8 data 7) as [k|] eqn:H7; cbn [bind]; [|discriminate].
  destruct (getUint32 data 8) as [m|] eqn:H8; cbn [bind]; [|discriminate].
  destruct (getUint32 data 12) as [it|] eqn:H12; cbn [bind]; [|discriminate].
  destruct (getUint8 data 16) as [p|] eqn:H16; cbn [bind]; [|discriminate].
  destruct (getUint32 data 49) as [cs|] eqn:H49; cbn [bind]; [|discriminate].
  destruct (getUint32 data 53) as [os|] eqn:H53; cbn [bind]; [|discriminate].
  destruct (getUint32 data 57) as [tc|] eqn:H57; cbn [bind]; [|discriminate].
  destruct (getUint16 data 61) as [fl|] eqn:H61; cbn [bind]; [|discriminate].
  intros [= <-]. cbn [magic version algorithm kdfMemory kdfIterations
                      kdfParallelism salt chunkSize originalSize totalChunks
                      originalFilename].
  assert (Hlen : 63 <= len data).
  { unfold getUint16 in H61. rewrite in_view_spec in H61 by lia.
    destruct (Z.leb_spec (61 + 2) (len data)); [lia | discriminate]. }
  assert (Hmagic : firstn 4 data = MAGIC_BYTES).
  { rewrite Hm. apply firstn_all2. unfold len in Hlen. cbn. lia. }
  repeat split; try easy.
  - now exists a.
  - now exists fl.
  - rewrite slice_prefix by lia. exact Hmagic.
Qed.

(** X1. [deserializeHeader] rejects its input as not being a .skita file
    exactly when the first four bytes that are present differ from the
    magic, raises a RangeError exactly when they agree with it and the input
    is shorter than the 63 bytes of the fixed part, and parses every other
    input, whatever its version, algorithm and KDF bytes are. *)
Theorem deserializeHeader_outcome (data : bytes) :
  (deserializeHeader data = Err InvalidFileFormat
   <-> firstn 4 data <> firstn (List.length data) MAGIC_BYTES)
  /\ (deserializeHeader data = Err RangeError
      <-> firstn 4 data = firstn (List.length data) MAGIC_BYTES
          /\ len data < 63)
  /\ ((exists h : FileHeader, deserializeHeader data = Ok h)
      <-> firstn 4 data = MAGIC_BYTES /\ 63 <= len data).
Proof.
  assert (Hbad : firstn 4 data <> firstn (List.length data) MAGIC_BYTES ->
                 deserializeHeader data = Err InvalidFileFormat).
  { intros H. unfold deserializeHeader. cbv zeta.
    destruct (every _ _) eqn:Hm; [|reflexivity].
    now apply magic_check_spec in Hm. }
  assert (Hshort : firstn 4 data = firstn (List.length data) MAGIC_BYTES ->
                   len data < 63 -> deserializeHeader data = Err RangeError).
  { intros H Hlen. apply magic_check_spec in H.
    unfold deserializeHeader. cbv zeta. rewrite H. cbn [negb].
    unfold getUint8, getUint16, getUint32. rewrite !in_view_spec by lia.
    repeat match goal with
      | |- context [?a <=? len data] =>
          destruct (Z.leb_spec a (len data)); cbn [bind]; [|reflexivity]
      end.
    lia. }
  assert (Hok : firstn 4 data = MAGIC_BYTES -> 63 <= len data ->
                exists h, deserializeHeader data = Ok h).
  { intros H Hlen.
    assert (H' : firstn 4 data = firstn (List.length data) MAGIC_BYTES).
    { rewrite H. symmetry. apply firstn_all2. unfold len in Hlen. cbn. lia. }
    apply magic_check_spec in H'.
    unfold deserializeHeader. cbv zeta. rewrite H'. cbn [negb].
    unfold getUint8, getUint16, getUint32. rewrite !in_view_spec by lia.
    repeat match goal with
      | |- context [?a <=? len data] =>
          destruct (Z.leb_spec a (len data)); cbn [bind]; [|lia]
      end.
    eexists. reflexivity. }
  destruct (list_eq_dec Byte.byte_eq_dec (firstn 4 data)
                        (firstn (List.length data) MAGIC_BYTES)) as [Heq|Hne].
  - destruct (Z.lt_ge_cases (len data) 63) as [Hlt|Hge].
    + rewrite (Hshort Heq Hlt). split; [|split]; split.
      * discriminate.
      * intros H. contradiction.
      * now intros _.
      * reflexivity.
      * intros (h & Hh). discriminate.
      * intros (_ & H). lia.
    + assert (H4 : firstn 4 data = MAGIC_BYTES).
      { rewrite Heq. apply firstn_all2. unfold len in Hge. cbn. lia. }
      destruct (Hok H4 Hge) as (h & Hh). rewrite Hh. split; [|split]; split.
      * discriminate.
      * intros H. contradiction.
      * discriminate.
      * intros (_ & H). lia.
      * now intros _.
      * intros _. now exists h.
  - rewrite (Hbad Hne). split; [|split]; split.
    + now intros _.
    + reflexivity.
    + discriminate.
    + intros (H & _). contradiction.
    + intros (h & Hh). discriminate.
    + intros (H4 & Hge). exfalso. apply Hne. rewrite H4. symmetry.
      apply firstn_all2. unfold len in Hge. cbn. lia.
Qed.

Lemma byte_at_range (data : bytes) (i : Z) : 0 <= byte_at data i < 256.
Proof. unfold byte_at. apply byte.unsigned_range. Qed.

Lemma getUint8_range (data : bytes) (off v : Z) :
  Ok v = getUint8 data off -> 0 <= v < 2 ^ 8.
Proof.
  unfold getUint8. destruct (in_view _ _ _); [|discriminate].
  intros [= ->]. apply byte_at_range.
Qed.

Lemma getUint16_range (data : bytes) (off v : Z) :
  Ok v = getUint16 data off -> 0 <= v < 2 ^ 16.
Proof.
  unfold getUint16. destruct (in_view _ _ _); [|discriminate].
  intros [= ->].
  pose proof (byte_at_range data off). pose proof (byte_at_range data (off + 1)).
  lia.
Qed.

Lemma getUint32_range (data : bytes) (off v : Z) :
  Ok v = getUint32 data off -> 0 <= v < 2 ^ 32.
Proof.
  unfold getUint32. destruct (in_view _ _ _); [|discriminate].
  intros [= ->].
  pose proof (byte_at_range data off). pose proof (byte_at_range data (off + 1)).
  pose proof (byte_at_range data (off + 2)).
  pose proof (byte_at_range data (off + 3)).
  lia.
Qed.

(** X2. Whatever bytes it is given, a header that [deserializeHeader]
    returns has the magic of the format, a salt of exactly 32 bytes, and
    numeric fields within the widths of the format. *)
Theorem deserializeHeader_fields_in_range (data : bytes) (h : FileHeader) :
  deserializeHeader data = Ok h ->
  magic h = MAGIC_BYTES /\ len (salt h) = 32 /\ within_field_widths h.
Proof.
  intros H. apply deserializeHeader_inv in H.
  destruct H as (Hlen & _ & Hv & _ & Hm & Hi & Hp & Hs & Hc & Ho & Ht & _ & Hmg).
  split; [exact Hmg|]. split.
  - rewrite Hs. rewrite len_slice by lia. reflexivity.
  - unfold within_field_widths.
    apply getUint16_range in Hv. apply getUint32_range in Hm, Hi, Hc, Ho, Ht.
    apply getUint8_range in Hp. tauto.
Qed.

Lemma deserializeHeader_fields_in_range_witness :
  magic (hello_header (Uint8Array 32)) = MAGIC_BYTES
  /\ len (salt (hello_header (Uint8Array 32))) = 32
  /\ within_field_widths (hello_header (Uint8Array 32)).
Proof.
  apply (deserializeHeader_fields_in_range
           (header_layout (hello_header (Uint8Array 32)))).
  reflexivity.
Defined.

(** X3. For every input that [deserializeHeader] accepts, [getHeaderSize]
    returns a size too, and it is 63 plus the number whose high byte is the
    low byte of the original size and whose low byte is the high byte of the
    chunk count, while the filename of the header ends at 63 plus the
    sixteen bits stored at offset 61. *)
Theorem getHeaderSize_of_parsed (data : bytes) (h : FileHeader) :
  deserializeHeader data = Ok h ->
  getHeaderSize data
  = Ok (63 + ((originalSize h mod 2 ^ 8) * 2 ^ 8 + totalChunks h / 2 ^ 24))
  /\ exists filenameLength : Z,
       getUint16 data 61 = Ok filenameLength
       /\ originalFilename h
          = TextDecoder_decode (Uint8Array_slice data 63 (63 + filenameLength)).
Proof.
  intros H. apply deserializeHeader_inv in H.
  destruct H as (Hlen & _ & _ & _ & _ & _ & _ & _ & _ & Ho & Ht & Hf & _).
  split.
  - unfold getHeaderSize, getUint16. unfold getUint32 in Ho, Ht.
    rewrite in_view_true in Ho, Ht |- * by lia. cbn [bind].
    injection Ho as ->. injection Ht as ->.
    change (53 + 3) with 56. change (56 + 1) with 57.
    pose proof (byte_at_range data 53). pose proof (byte_at_range data 54).
    pose proof (byte_at_range data 55). pose proof (byte_at_range data 56).
    pose proof (byte_at_range data 57). pose proof (byte_at_range data 58).
    pose proof (byte_at_range data 59). pose proof (byte_at_range data 60).
    f_equal. change (4 + 2 + 1 + 1 + 4 + 4 + 1 + 32 + 4 + 4 + 4 + 2) with 63.
    f_equal. change (Z.pow_pos 2 24) with (2 ^ 24).
    change (Z.pow_pos 2 16) with (2 ^ 16). change (Z.pow_pos 2 8) with (2 ^ 8).
    arith.
  - destruct Hf as (n & Hn & Hname). now exists n.
Qed.

Lemma getHeaderSize_of_parsed_witness :
  getHeaderSize (header_layout (hello_header (Uint8Array 32)))
  = Ok (63 + ((originalSize (hello_header (Uint8Array 32)) mod 2 ^ 8) * 2 ^ 8
              + totalChunks (hello_header (Uint8Array 32)) / 2 ^ 24))
  /\ exists filenameLength : Z,
       getUint16 (header_layout (hello_header (Uint8Array 32))) 61
       = Ok filenameLength
       /\ originalFilename (hello_header (Uint8Array 32))
          = TextDecoder_decode
              (Uint8Array_slice (header_layout (hello_header (Uint8Array 32)))
                                63 (63 + filenameLength)).
Proof.
  apply (getHeaderSize_of_parsed
           (header_layout (hello_header (Uint8Array 32)))).
  reflexivity.
Defined.

(** ** [serializeHeader]: when it throws *)

Lemma len_skipn {A : Type} (n : Z) (l : list A) :
  0 <= n <= len l -> len (skipn (Z.to_nat n) l) = len l - n.
Proof. intros H. unfold len in *. rewrite length_skipn. lia. Qed.

Lemma len_splice (buf src : bytes) (off : Z) :
  0 <= off -> off + len src <= len buf -> len (splice buf src off) = len buf.
Proof.
  intros H0 H1. pose proof (len_nonneg src). unfold splice.
  rewrite !len_app, len_firstn, len_skipn by lia. lia.
Qed.

Lemma set_fits (buf src : bytes) (off : Z) :
  0 <= off -> off + len src <= len buf ->
  exists buf', Uint8Array_set buf src off = Ok buf' /\ len buf' = len buf
               /\ buf' = splice buf src off.
Proof.
  intros H0 H1. exists (splice buf src off). unfold Uint8Array_set.
  destruct (Z.leb_spec 0 off); [|lia].
  destruct (Z.leb_spec (off + len src) (len buf)); [|lia].
  cbn [andb]. now rewrite len_splice.
Qed.

Lemma set_overflows (buf src : bytes) (off : Z) :
  len buf < off + len src -> Uint8Array_set buf src off = Err RangeError.
Proof.
  intros H. unfold Uint8Array_set.
  destruct (Z.leb_spec (off + len src) (len buf)); [lia|].
  now rewrite andb_false_r.
Qed.

Lemma setUint8_fits (buf : bytes) (off v : Z) :
  0 <= off -> off + 1 <= len buf ->
  exists buf', setUint8 buf off v = Ok buf' /\ len buf' = len buf.
Proof.
  intros H0 H1. unfold setUint8. rewrite in_view_true by lia.
  eexists. split; [reflexivity|]. now rewrite len_splice.
Qed.

Lemma setUint16_fits (buf : bytes) (off v : Z) :
  0 <= off -> off + 2 <= len buf ->
  exists buf', setUint16 buf off v = Ok buf' /\ len buf' = len buf.
Proof.
  intros H0 H1. unfold setUint16. rewrite in_view_true by lia.
  eexists. split; [reflexivity|]. rewrite len_splice; rewrite ?len_be16; lia.
Qed.

Lemma setUint32_fits (buf : bytes) (off v : Z) :
  0 <= off -> off + 4 <= len buf ->
  exists buf', setUint32 buf off v = Ok buf' /\ len buf' = len buf.
Proof.
  intros H0 H1. unfold setUint32. rewrite in_view_true by lia.
  eexists. split; [reflexivity|]. rewrite len_splice; rewrite ?len_be32; lia.
Qed.

Ltac fits lemma :=
  match goal with
  | |- context [bind (?f ?buf ?a ?b) _] =>
      let buf' := fresh "buf" in
      let E := fresh "E" in
      let L := fresh "L" in
      destruct (lemma buf a b) as (buf' & E & L); [lia | lia |];
      rewrite E; cbn [bind]; clear E
  end.

(** X4. [serializeHeader] throws, a RangeError, exactly when the magic or
    the salt of the header it is given is too long for the buffer of
    63 + F bytes it allocates (F the UTF-8 length of the filename): a magic
    of more than 63 + F bytes, or a salt of more than 46 + F. In every other
    case it returns 63 + F bytes that end with the UTF-8 filename, whatever
    the numeric fields hold. *)
Theorem serializeHeader_outcome (h : FileHeader) :
  let F := len (TextEncoder_encode (originalFilename h)) in
  if (len (magic h) <=? 63 + F) && (len (salt h) <=? 46 + F)
  then exists fixed : bytes,
         serializeHeader h
         = Ok (fixed ++ TextEncoder_encode (originalFilename h))
         /\ len fixed = 63
  else serializeHeader h = Err RangeError.
Proof.
  cbv zeta. unfold serializeHeader. cbv zeta.
  set (filenameBytes := TextEncoder_encode (originalFilename h)).
  pose proof (len_nonneg filenameBytes) as Hf.
  pose proof (len_nonneg (magic h)) as Hm.
  pose proof (len_nonneg (salt h)) as Hs.
  change (4 + 2 + 1 + 1 + 4 + 4 + 1 + 32 + 4 + 4 + 4 + 2 + len filenameBytes)
    with (63 + len filenameBytes).
  assert (L0 : len (Uint8Array (63 + len filenameBytes)) = 63 + len filenameBytes)
    by (apply len_Uint8Array; lia).
  set (buf0 := Uint8Array (63 + len filenameBytes)) in *. clearbody buf0.
  destruct (Z.leb_spec (len (magic h)) (63 + len filenameBytes)) as [Hmf|Hmf];
    cbn [andb].
  2:{ rewrite set_overflows by lia. reflexivity. }
  destruct (set_fits buf0 (magic h) 0) as (buf1 & E & L1 & _); [lia | lia |].
  rewrite E. cbn [bind]. clear E.
  fits setUint16_fits. fits setUint8_fits. fits setUint8_fits.
  fits setUint32_fits. fits setUint32_fits. fits setUint8_fits.
  destruct (Z.leb_spec (len (salt h)) (46 + len filenameBytes)) as [Hsf|Hsf].
  2:{ rewrite set_overflows by lia. reflexivity. }
  match goal with
  | |- context [bind (Uint8Array_set ?buf ?a ?b) _] =>
      destruct (set_fits buf a b) as (buf' & E & L' & _); [lia | lia |];
      rewrite E; cbn [bind]; clear E
  end.
  fits setUint32_fits. fits setUint32_fits. fits setUint32_fits.
  fits setUint16_fits.
  match goal with
  | |- context [bind (Uint8Array_set ?buf ?a ?b) _] =>
      destruct (set_fits buf a b) as (last & E & L'' & ->); [lia | lia |];
      rewrite E; cbn [bind]; clear E
  end.
  match goal with
  | |- context [splice ?buf _ _] => exists (firstn 63 buf); unfold splice
  end.
  split.
  - rewrite skipn_all2 by (unfold len in *; lia).
    now rewrite app_nil_r.
  - change 63%nat with (Z.to_nat 63). apply len_firstn. lia.
Qed.

(** ** What comes back from a header whose fields do not fit *)

Ltac field_lens Hmagic Hsalt :=
  rewrite ?len_app, ?len_cons, ?len_be16, ?len_be32, ?Hmagic, ?Hsalt;
  change (len (@nil Init.Byte.byte)) with 0;
  try lia.

(** X5. For every header with the magic of the format and a 32-byte salt,
    whatever its other fields hold, [serializeHeader] succeeds and
    [deserializeHeader] reads its output back as the same header with each
    number reduced modulo the width of its field, and with a filename that
    is decoded from the first F mod 65536 bytes of its UTF-8 form only (F
    being the length of that form): a filename of 65536 bytes or more is
    cut without an error. *)
Theorem deserializeHeader_serializeHeader_wraps (h : FileHeader) :
  magic h = MAGIC_BYTES ->
  len (salt h) = 32 ->
  exists data : bytes,
    serializeHeader h = Ok data
    /\ deserializeHeader data
       = Ok {| magic := magic h;
               version := version h mod 2 ^ 16;
               algorithm := algorithm h;
               kdf := kdf h;
               kdfMemory := kdfMemory h mod 2 ^ 32;
               kdfIterations := kdfIterations h mod 2 ^ 32;
               kdfParallelism := kdfParallelism h mod 2 ^ 8;
               salt := salt h;
               chunkSize := chunkSize h mod 2 ^ 32;
               originalFilename :=
                 TextDecoder_decode
                   (firstn (Z.to_nat (len (TextEncoder_encode
                                             (originalFilename h)) mod 2 ^ 16))
                           (TextEncoder_encode (originalFilename h)));
               originalSize := originalSize h mod 2 ^ 32;
               totalChunks := totalChunks h mod 2 ^ 32 |}.
Proof.
  intros Hm Hsalt.
  assert (Hmagic : len (magic h) = 4) by now rewrite Hm.
  exists (header_layout h). split; [now apply serializeHeader_layout|].
  pose proof (len_nonneg (TextEncoder_encode (originalFilename h))) as Hf0.
  assert (Hmod : 0 <= len (TextEncoder_encode (originalFilename h)) mod 2 ^ 16
                 <= len (TextEncoder_encode (originalFilename h))) by arith.
  unfold deserializeHeader, header_layout. cbv zeta.
  rewrite slice_app_here by easy.
  rewrite Hm at 1. rewrite magic_check. cbn [negb].
  repeat (rewrite getUint16_app_skip by field_lens Hmagic Hsalt).
  rewrite getUint16_here by field_lens Hmagic Hsalt. cbn [bind].
  repeat (rewrite getUint8_app_skip by field_lens Hmagic Hsalt).
  rewrite getUint8_here_app by field_lens Hmagic Hsalt. cbn [bind].
  repeat (rewrite getUint8_app_skip by field_lens Hmagic Hsalt).
  rewrite getUint8_here_app by field_lens Hmagic Hsalt. cbn [bind].
  do 2 (repeat (rewrite getUint32_app_skip by field_lens Hmagic Hsalt);
        rewrite getUint32_here by field_lens Hmagic Hsalt; cbn [bind]).
  repeat (rewrite getUint8_app_skip by field_lens Hmagic Hsalt).
  rewrite getUint8_here_app by field_lens Hmagic Hsalt. cbn [bind].
  do 3 (repeat (rewrite getUint32_app_skip by field_lens Hmagic Hsalt);
        rewrite getUint32_here by field_lens Hmagic Hsalt; cbn [bind]).
  repeat (rewrite getUint16_app_skip by field_lens Hmagic Hsalt).
  rewrite getUint16_here by field_lens Hmagic Hsalt. cbn [bind].
  f_equal. f_equal.
  - now destruct (algorithm h).
  - now destruct (kdf h).
  - repeat (rewrite slice_app_skip by field_lens Hmagic Hsalt).
    now rewrite slice_app_here by field_lens Hmagic Hsalt.
  - f_equal. repeat (rewrite slice_app_skip by field_lens Hmagic Hsalt).
    match goal with
    | |- Uint8Array_slice _ ?s ?e = _ =>
        replace s with 0 by field_lens Hmagic Hsalt;
        replace e
          with (len (TextEncoder_encode (originalFilename h)) mod 2 ^ 16)
          by field_lens Hmagic Hsalt
    end.
    apply slice_prefix. lia.
Qed.

Lemma deserializeHeader_serializeHeader_wraps_witness :
  exists data : bytes,
    serializeHeader overflowing_header = Ok data
    /\ deserializeHeader data
       = Ok {| magic := MAGIC_BYTES; version := 1;
               algorithm := ChaCha20_Poly1305; kdf := Argon2id;
               kdfMemory := 65536; kdfIterations := 3; kdfParallelism := 4;
               salt := Uint8Array 32; chunkSize := CHUNK_SIZE;
               originalFilename := of_ascii "a"; originalSize := 5;
               totalChunks := 1 |}.
Proof.
  destruct (deserializeHeader_serializeHeader_wraps overflowing_header
              eq_refl eq_refl) as (data & Hs & Hd).
  exists data. split; [exact Hs|]. rewrite Hd. vm_compute. reflexivity.
Defined.

(** ** Chunk nonces and chunk keys *)

Lemma of_Z_wrap (v : Z) : byte.of_Z v = byte.of_Z (v mod 2 ^ 8).
Proof.
  rewrite <- (byte.of_Z_unsigned (byte.of_Z v)) at 1.
  now rewrite byte.unsigned_of_Z.
Qed.

Lemma be32_wrap (v : Z) : be32 v = be32 (v mod 2 ^ 32).
Proof.
  unfold be32.
  rewrite (of_Z_wrap (v / 2 ^ 24)), (of_Z_wrap (v / 2 ^ 16)),
    (of_Z_wrap (v / 2 ^ 8)), (of_Z_wrap v).
  rewrite (of_Z_wrap (v mod 2 ^ 32 / 2 ^ 24)),
    (of_Z_wrap (v mod 2 ^ 32 / 2 ^ 16)), (of_Z_wrap (v mod 2 ^ 32 / 2 ^ 8)),
    (of_Z_wrap (v mod 2 ^ 32)).
  replace ((v mod 2 ^ 32 / 2 ^ 24) mod 2 ^ 8) with ((v / 2 ^ 24) mod 2 ^ 8)
    by arith.
  replace ((v mod 2 ^ 32 / 2 ^ 16) mod 2 ^ 8) with ((v / 2 ^ 16) mod 2 ^ 8)
    by arith.
  replace ((v mod 2 ^ 32 / 2 ^ 8) mod 2 ^ 8) with ((v / 2 ^ 8) mod 2 ^ 8)
    by arith.
  replace ((v mod 2 ^ 32) mod 2 ^ 8) with (v mod 2 ^ 8) by arith.
  reflexivity.
Qed.

Lemma be32_eq_iff (v w : Z) : be32 v = be32 w <-> v mod 2 ^ 32 = w mod 2 ^ 32.
Proof.
  split; intros H.
  - now rewrite <- !big_endian_be32, H.
  - now rewrite (be32_wrap v), (be32_wrap w), H.
Qed.

Lemma firstn_repeat_min {A : Type} (x : A) (n m : nat) :
  firstn n (repeat x m) = repeat x (Nat.min n m).
Proof.
  revert m. induction n as [|n IH]; intros [|m]; cbn; try reflexivity.
  now rewrite IH.
Qed.

Lemma firstn_8_padded (masterNonce : bytes) :
  len masterNonce < 8 ->
  firstn 8 (masterNonce ++ Uint8Array 8)
  = masterNonce ++ Uint8Array (8 - len masterNonce).
Proof.
  intros H. unfold len in *. rewrite firstn_app.
  rewrite firstn_all2 by lia. f_equal. unfold Uint8Array.
  rewrite firstn_repeat_min. f_equal. lia.
Qed.

Lemma deriveChunkNonce_total (masterNonce : bytes) (chunkIndex : Z) :
  deriveChunkNonce masterNonce chunkIndex
  = Ok (firstn 8 (masterNonce ++ Uint8Array 8) ++ be32 chunkIndex).
Proof.
  destruct (Z.le_gt_cases 8 (len masterNonce)) as [Hlong|Hshort].
  - rewrite deriveChunkNonce_ok by exact Hlong. do 2 f_equal.
    unfold len in Hlong. rewrite firstn_app.
    replace (8 - List.length masterNonce)%nat with 0%nat by lia.
    cbn [firstn]. now rewrite app_nil_r.
  - pose proof (len_nonneg masterNonce) as H0.
    rewrite firstn_8_padded by lia.
    unfold deriveChunkNonce. cbv zeta.
    rewrite slice_all by lia.
    change (Uint8Array 12) with ([] ++ Uint8Array 12).
    rewrite set_frontier by (cbn; lia). cbn [bind app].
    rewrite (Uint8Array_split (12 - len masterNonce) (8 - len masterNonce))
      by lia.
    rewrite app_assoc.
    rewrite setUint32_frontier by (rewrite ?len_app, ?len_Uint8Array; lia).
    cbn [bind].
    replace (12 - len masterNonce - (8 - len masterNonce) - 4) with 0 by lia.
    now rewrite app_nil_r.
Qed.

Lemma firstn_app_firstn {A : Type} (n : nat) (x z : list A) :
  firstn n (x ++ z) = firstn n (firstn n x ++ z).
Proof.
  rewrite !firstn_app, firstn_firstn, Nat.min_id, length_firstn.
  f_equal. f_equal. lia.
Qed.

(** X6. [deriveChunkNonce] never throws, whatever the length of the master
    nonce and whatever the index: it returns twelve bytes, the first eight
    bytes of the master nonce (followed by zeros when the master nonce has
    fewer than eight) and the index on four bytes. The bytes of the master
    nonce after the eighth have no influence on the result. *)
Theorem deriveChunkNonce_always_12_bytes (masterNonce : bytes)
    (chunkIndex : Z) :
  exists nonce : bytes,
    deriveChunkNonce masterNonce chunkIndex = Ok nonce
    /\ len nonce = 12
    /\ nonce = firstn 8 (masterNonce ++ Uint8Array 8) ++ be32 chunkIndex
    /\ deriveChunkNonce (firstn 8 masterNonce) chunkIndex = Ok nonce.
Proof.
  exists (firstn 8 (masterNonce ++ Uint8Array 8) ++ be32 chunkIndex).
  split; [apply deriveChunkNonce_total|]. split; [|split; [reflexivity|]].
  - rewrite len_app, len_be32. change 8%nat with (Z.to_nat 8).
    rewrite len_firstn; [lia|].
    rewrite len_app, len_Uint8Array by lia.
    pose proof (len_nonneg masterNonce). lia.
  - rewrite deriveChunkNonce_total.
    now rewrite <- (firstn_app_firstn 8 masterNonce).
Qed.

(** X7. Two chunk indices get the same nonce under a master nonce exactly
    when they are congruent modulo 2^32: the nonces of the chunks of one
    file are pairwise distinct as long as it has at most 2^32 chunks, and
    the nonce of chunk 2^32 would be that of chunk 0. *)
Theorem deriveChunkNonce_eq_iff (masterNonce : bytes) (i j : Z) :
  deriveChunkNonce masterNonce i = deriveChunkNonce masterNonce j
  <-> i mod 2 ^ 32 = j mod 2 ^ 32.
Proof.
  rewrite !deriveChunkNonce_total. rewrite <- be32_eq_iff. split.
  - intros [= H]. now apply app_inv_head in H.
  - now intros ->.
Qed.

Lemma unsigned_of_Z_ascii (s : ustring) :
  Forall (fun c => 0 <= c < 128) s ->
  map byte.unsigned (map byte.of_Z s) = s.
Proof.
  induction 1 as [|c s Hc _ IH]; cbn [map]; [reflexivity|].
  rewrite IH, unsigned_of_Z_small by lia. reflexivity.
Qed.

Lemma chunk_info_ascii (i : Z) :
  0 <= i ->
  Forall (fun c => 0 <= c < 128) (of_ascii "chunk-" ++ Number_toString i).
Proof.
  intros H. apply Forall_app. split.
  - repeat constructor; cbn; lia.
  - eapply minimal_decimal_ascii. now apply Number_toString_minimal.
Qed.

Lemma chunk_info_injective (i j : Z) :
  0 <= i -> 0 <= j ->
  TextEncoder_encode (of_ascii "chunk-" ++ Number_toString i)
  = TextEncoder_encode (of_ascii "chunk-" ++ Number_toString j) ->
  i = j.
Proof.
  intros Hi Hj H.
  rewrite !utf8_encode_ascii in H by now apply chunk_info_ascii.
  apply (f_equal (map byte.unsigned)) in H.
  rewrite !unsigned_of_Z_ascii in H by now apply chunk_info_ascii.
  apply app_inv_head in H.
  destruct (Number_toString_minimal i Hi) as (_ & <- & _).
  destruct (Number_toString_minimal j Hj) as (_ & <- & _).
  now rewrite H.
Qed.

Section ChunkKeys.

Context {platform : Platform}.

(** X8. The keys of two chunks are SHA-256 digests of different inputs
    unless the chunks have the same index and the same master key: for
    master keys of one length and indices that are safe integers, from 0 to
    2^53 - 1 (where the template literal prints an index as its decimal
    digits), [deriveChunkKey] hashes the master key followed by a label
    that determines the index. *)
Theorem deriveChunkKey_inputs_distinct (masterKey masterKey' : bytes)
    (i j : Z) :
  len masterKey = len masterKey' ->
  0 <= i < 2 ^ 53 ->
  0 <= j < 2 ^ 53 ->
  exists input input' : bytes,
    deriveChunkKey masterKey i = Ok (sha256 input)
    /\ deriveChunkKey masterKey' j = Ok (sha256 input')
    /\ (input = input' <-> masterKey = masterKey' /\ i = j).
Proof.
  intros Hlen Hi Hj.
  exists (masterKey
          ++ TextEncoder_encode (of_ascii "chunk-" ++ Number_toString i)),
         (masterKey'
          ++ TextEncoder_encode (of_ascii "chunk-" ++ Number_toString j)).
  split; [apply deriveChunkKey_ok|]. split; [apply deriveChunkKey_ok|].
  split.
  - intros H.
    assert (Hk : masterKey = masterKey').
    { rewrite <- (firstn_len_app masterKey
                    (TextEncoder_encode
                       (of_ascii "chunk-" ++ Number_toString i))
                    (len masterKey) eq_refl).
      rewrite H. now apply firstn_len_app. }
    split; [exact Hk|]. subst masterKey'. apply app_inv_head in H.
    apply chunk_info_injective; [lia | lia | exact H].
  - now intros [-> ->].
Qed.

End ChunkKeys.

Lemma deriveChunkKey_inputs_distinct_witness :
  exists input input' : bytes,
    deriveChunkKey (platform := stand_in) (Uint8Array 32) 1
    = Ok (sha256 input)
    /\ deriveChunkKey (platform := stand_in) (Uint8Array 32)
                      9007199254740991
       = Ok (sha256 input')
    /\ (input = input'
        <-> Uint8Array 32 = Uint8Array 32 /\ 1 = 9007199254740991).
Proof.
  apply (deriveChunkKey_inputs_distinct (platform := stand_in)
           (Uint8Array 32) (Uint8Array 32) 1 9007199254740991);
    [reflexivity | lia | lia].
Defined.

(** ** The worker: reading and encrypting *)

Section Chunking.

Context {platform : Platform}.

(** What [hashFileData] returns when nothing interrupts it: the hash of
    the whole content, and the content cut into ceil(size / 4 MiB) chunks,
    none empty, all but the last of 4 MiB. *)
Lemma hashFileData_partition (file : File) :
  exists chunks : list bytes,
    hashFileData file = Ok (calculateHash (content file), chunks)
    /\ List.concat chunks = content file
    /\ len chunks = Math_ceil_div (size file) CHUNK_SIZE
    /\ (forall k : nat,
          (k < List.length chunks)%nat ->
          1 <= len (nth k chunks []) <= CHUNK_SIZE)
    /\ (forall k : nat,
          (S k < List.length chunks)%nat ->
          len (nth k chunks []) = CHUNK_SIZE).
Proof.
  pose proof CHUNK_SIZE_pos as Hc.
  pose proof (len_nonneg (content file)) as Hs. fold (size file) in Hs.
  pose proof (Math_ceil_div_nonneg (size file) CHUNK_SIZE Hs Hc) as Hn.
  pose proof (Math_ceil_div_spec (size file) CHUNK_SIZE Hs Hc) as Hceil.
  set (n := Math_ceil_div (size file) CHUNK_SIZE) in *.
  exists (read_chunks file (Z.to_nat n) 0).
  rewrite hashFileData_ok. cbv zeta. fold n. rewrite read_chunks_whole.
  split; [reflexivity|]. split; [reflexivity|].
  unfold len at 1. rewrite length_read_chunks.
  split; [lia|].
  split; intros k Hk.
  - rewrite nth_read_chunks by lia. rewrite len_read_chunk by nia. nia.
  - rewrite nth_read_chunks by lia. rewrite len_read_chunk by nia. nia.
Qed.

End Chunking.

Section EncryptOutcome.

Context {platform : Platform}.

(** Without the callback, [encryptFile] fails exactly when the key
    derivation does. *)
Lemma encryptFile_kdf (file : File) (password : string) (a : Algorithm)
    (kdfMemory kdfIterations kdfParallelism : option Z) (g : rng) :
  match argon2id password (fst (generateSalt g)) (default 3 kdfIterations)
                 (default 65536 kdfMemory) (default 4 kdfParallelism) with
  | Some masterKey =>
      exists blob : bytes,
        encryptFile file password a kdfMemory kdfIterations kdfParallelism g
        = Ok {| EncryptResult.blob := blob;
                EncryptResult.filename := name file ++ of_ascii ".skita";
                EncryptResult.originalHash := calculateHash (content file) |}
  | None =>
      encryptFile file password a kdfMemory kdfIterations kdfParallelism g
      = Err KdfFailure
  end.
Proof.
  destruct (argon2id _ _ _ _ _) as [masterKey|] eqn:Hkdf.
  - unfold encryptFile.
    rewrite (encryptFile_chunks_ok file password a kdfMemory kdfIterations
               kdfParallelism g masterKey Hkdf).
    cbv zeta. cbn [bind fst snd]. rewrite read_chunks_whole.
    eexists. reflexivity.
  - unfold encryptFile, encryptFile_chunks. cbv zeta.
    rewrite hashFileData_ok. cbv zeta. cbn [bind].
    unfold deriveKeyArgon2. rewrite Hkdf. reflexivity.
Qed.

(** X11. The length of a container: for every file, when the key
    derivation succeeds and the AEAD appends its 16-byte tag, the blob
    [encryptFile] returns has 63 + F + 32 n + size bytes, F being the UTF-8
    length of the filename, size the length of the file and n the number of
    its chunks, ceil(size / 4 MiB): each chunk costs 32 bytes, the header
    63 + F, and nothing else is stored. *)
Theorem encryptFile_blob_length (file : File) (password : string)
    (a : Algorithm) (kdfMemory kdfIterations kdfParallelism : option Z)
    (g : rng) (masterKey : bytes) :
  argon2id password (fst (generateSalt g)) (default 3 kdfIterations)
           (default 65536 kdfMemory) (default 4 kdfParallelism)
  = Some masterKey ->
  tag_appended ->
  exists r : EncryptResult.t,
    encryptFile file password a kdfMemory kdfIterations kdfParallelism g = Ok r
    /\ len (EncryptResult.blob r)
       = 63 + len (TextEncoder_encode (name file))
         + 32 * Math_ceil_div (size file) CHUNK_SIZE + size file.
Proof.
  intros Hkdf Htag.
  pose proof CHUNK_SIZE_pos as Hc.
  pose proof (len_nonneg (content file)) as Hs. fold (size file) in Hs.
  pose proof (Math_ceil_div_nonneg (size file) CHUNK_SIZE Hs Hc) as Hn.
  unfold encryptFile.
  rewrite (encryptFile_chunks_ok file password a kdfMemory kdfIterations
             kdfParallelism g masterKey Hkdf).
  cbv zeta. cbn [bind fst snd]. eexists. split; [reflexivity|].
  cbn [EncryptResult.blob List.concat]. rewrite len_app.
  rewrite len_header_layout;
    [| reflexivity | cbn [salt]; apply len_generateRandomBytes; lia ].
  cbn [originalFilename].
  rewrite len_concat_records_from;
    [| exact Htag
     | unfold generateNonce; rewrite len_generateRandomBytes; lia ].
  rewrite read_chunks_whole. unfold len at 2. rewrite length_read_chunks.
  fold (size file). lia.
Qed.

End EncryptOutcome.

Lemma encryptFile_blob_length_witness :
  exists r : EncryptResult.t,
    encryptFile (platform := stand_in) hello "pw" AES_GCM None None None
                zero_rng = Ok r
    /\ len (EncryptResult.blob r)
       = 63 + len (TextEncoder_encode (name hello))
         + 32 * Math_ceil_div (size hello) CHUNK_SIZE + size hello.
Proof.
  apply (encryptFile_blob_length (platform := stand_in) hello "pw" AES_GCM
           None None None zero_rng
           (checksum (list_byte_of_string "pw" ++ Uint8Array 32))).
  - reflexivity.
  - exact stand_in_tag_appended.
Defined.

(** ** The worker with its callbacks *)

Section Reports.

Context {platform : Platform} {arithmetic : Arithmetic}.
Context {refusals : Refusals}.

(** The reading loop gives the chunks [hashFileData] is modelled with, unless
    the callback throws or a read is refused. *)
Lemma Reporting_read_chunks (file : File) (totalChunks : Z)
    (onProgress : option (Number -> outcome unit)) (fuel : nat) :
  forall (i : Z) (chunks : list bytes),
    match Reporting.read_chunks file totalChunks onProgress fuel i chunks with
    | Returned chunks' => chunks' = chunks ++ read_chunks file fuel i
    | Threw x =>
        (exists p, call1 onProgress p = Threw x) \/ read_refused file x
    end.
Proof.
  induction fuel as [|fuel IH]; intros i chunks;
    cbn [Reporting.read_chunks read_chunks].
  - now rewrite app_nil_r.
  - cbv zeta. unfold Reporting.arrayBuffer.
    destruct (arrayBuffer_rejects file _ _) as [x|] eqn:Hread;
      cbn [and_then]; [right; eexists _, _; exact Hread|].
    destruct (call1 onProgress _) as [[]|x] eqn:Hcall; cbn [and_then].
    + specialize (IH (i + 1)
                     (chunks ++ [File_slice file (i * CHUNK_SIZE)
                                   (Z.min (i * CHUNK_SIZE + CHUNK_SIZE)
                                          (size file))])).
      destruct (Reporting.read_chunks _ _ _ _ _ _); [|exact IH].
      rewrite IH, <- app_assoc. reflexivity.
    + left. eexists. exact Hcall.
Qed.

Lemma Reporting_hashFileData (file : File)
    (onProgress : option (Number -> outcome unit)) :
  match Reporting.hashFileData file onProgress with
  | Returned hashed => hashFileData file = Ok hashed
  | Threw x => (exists p, call1 onProgress p = Threw x) \/ read_refused file x
  end.
Proof.
  unfold Reporting.hashFileData. cbv zeta.
  pose proof (Reporting_read_chunks file
                (Math_ceil_div (size file) CHUNK_SIZE) onProgress
                (Z.to_nat (Math_ceil_div (size file) CHUNK_SIZE)) 0 []) as H.
  destruct (Reporting.read_chunks _ _ _ _ _ _) as [chunks|x]; cbn [and_then];
    [|exact H].
  cbn [app] in H. subst chunks. rewrite combine_chunks_concat. cbn [lift and_then].
  now rewrite hashFileData_ok.
Qed.

Lemma Reporting_encrypt_chunks (ms mn : bytes) (a : Algorithm)
    (totalChunks : Z) (onProgress : option (Number -> ustring -> outcome unit))
    (fileChunks : list bytes) :
  8 <= len mn ->
  forall (i : Z) (chunks : list bytes),
    match Reporting.encrypt_chunks ms mn a totalChunks onProgress i fileChunks
                                   chunks with
    | Returned chunks' => chunks' = chunks ++ records_from ms mn a i fileChunks
    | Threw x =>
        (exists p stage, call2 onProgress p stage = Threw x)
        \/ seal_refused x
    end.
Proof.
  intros Hmn. induction fileChunks as [|chunk rest IH]; intros i chunks;
    cbn [Reporting.encrypt_chunks records_from].
  - now rewrite app_nil_r.
  - rewrite deriveChunkKey_ok, deriveChunkNonce_ok by exact Hmn.
    cbn [lift and_then]. unfold Reporting.encryptChunk.
    destruct (encrypt_rejects a _ _ _) as [x|] eqn:Hseal;
      cbn [and_then]; [right; eexists _, _, _, _; exact Hseal|].
    unfold encryptChunk. cbn [lift and_then].
    rewrite chunk_record_layout
      by (fold (chunk_nonce mn i); now apply len_chunk_nonce).
    cbn [lift and_then]. cbv zeta.
    destruct (call2 onProgress _ _) as [[]|x] eqn:Hcall; cbn [and_then].
    + match goal with
      | |- context [Reporting.encrypt_chunks _ _ _ _ _ _ _ ?acc] =>
          specialize (IH (i + 1) acc)
      end.
      destruct (Reporting.encrypt_chunks _ _ _ _ _ _ _ _); [|exact IH].
      rewrite IH, <- app_assoc. reflexivity.
    + left. eexists _, _. exact Hcall.
Qed.

(** [encryptFile] with its callback against [encryptFile] without: the
    same result when it returns; when it throws, the failure of the key
    derivation, what the callback threw, or what the platform refused a
    read or a chunk with. *)
Lemma Reporting_encryptFile (file : File) (password : string) (a : Algorithm)
    (memory iterations parallelism : option Z)
    (onProgress : option (Number -> ustring -> outcome unit)) (g : rng) :
  match fst (Reporting.encryptFile file password a memory iterations
                                   parallelism onProgress g) with
  | Returned r =>
      encryptFile file password a memory iterations parallelism g = Ok r
      /\ snd (Reporting.encryptFile file password a memory iterations
                                    parallelism onProgress g)
         = rng_after_encryptFile g
  | Threw x =>
      (x = engine KdfFailure
       /\ encryptFile file password a memory iterations parallelism g
          = Err KdfFailure
       /\ snd (Reporting.encryptFile file password a memory iterations
                                     parallelism onProgress g)
          = rng_after_encryptFile g)
      \/ (exists p stage, call2 onProgress p stage = Threw x)
      \/ read_refused file x
      \/ seal_refused x
  end.
Proof.
  unfold Reporting.encryptFile. cbv zeta.
  destruct (call2 onProgress (Number_of_Z 0) _) as [[]|x] eqn:H0;
    cbn [and_then fst snd]; [|right; left; eexists _, _; exact H0].
  pose proof (Reporting_hashFileData file
                (Some (fun p => call2 onProgress (Number_mul p Number_0_1)
                                      (of_ascii "Menghitung hash file asli..."))))
    as Hhash.
  destruct (Reporting.hashFileData file _) as [hashed|x]; cbn [and_then fst snd].
  2:{ right. destruct Hhash as [(p & Hp)|Hread]; [left|right; left; exact Hread].
      cbn [call1] in Hp. eexists _, _. exact Hp. }
  rewrite hashFileData_ok in Hhash. cbv zeta in Hhash. injection Hhash as <-.
  destruct (call2 onProgress (Number_of_Z 10) _) as [[]|x] eqn:H10;
    cbn [and_then fst snd]; [|right; left; eexists _, _; exact H10].
  destruct (call2 onProgress (Number_of_Z 12) _) as [[]|x] eqn:H12;
    cbn [and_then fst snd]; [|right; left; eexists _, _; exact H12].
  unfold encryptFile, encryptFile_chunks. cbv zeta.
  rewrite hashFileData_ok. cbv zeta. cbn [bind fst snd].
  unfold deriveKeyArgon2.
  destruct (argon2id _ _ _ _ _) as [masterKey|]; cbn [lift and_then bind].
  2:{ left. repeat split. }
  destruct (call2 onProgress (Number_of_Z 20) _) as [[]|x] eqn:H20;
    cbn [and_then fst snd]; [|right; left; eexists _, _; exact H20].
  cbn [base].
  assert (Hsalt : len (fst (generateSalt g)) = 32)
    by (apply len_generateRandomBytes; lia).
  assert (Hnonce : 8 <= len (fst (generateNonce (snd (generateSalt g))))).
  { unfold generateNonce. rewrite len_generateRandomBytes; lia. }
  match goal with
  | |- context [serializeHeader ?h] =>
      rewrite (serializeHeader_layout h eq_refl Hsalt)
  end.
  cbn [lift and_then bind].
  rewrite encrypt_chunks_records by exact Hnonce. cbn [bind].
  match goal with
  | |- context [Reporting.encrypt_chunks ?ms ?mn ?a' ?tc ?cb ?i ?fc ?acc] =>
      pose proof (Reporting_encrypt_chunks ms mn a' tc cb fc Hnonce i acc)
        as Hloop
  end.
  destruct (Reporting.encrypt_chunks _ _ _ _ _ _ _ _) as [chunks|x];
    cbn [and_then].
  2:{ right. destruct Hloop as [Hcb|Hseal]; [left; exact Hcb|].
      right; right; exact Hseal. }
  subst chunks.
  destruct (call2 onProgress (Number_of_Z 100) _) as [[]|x] eqn:H100;
    cbn [and_then fst snd]; [|right; left; eexists _, _; exact H100].
  split; reflexivity.
Qed.



(** A callback that returns leaves no trace, on a platform that refuses
    nothing. *)
Lemma Reporting_hashFileData_quiet (file : File)
    (onProgress : option (Number -> outcome unit)) :
  returns1 onProgress -> reads_succeed ->
  Reporting.hashFileData file onProgress = lift (hashFileData file).
Proof.
  intros Hq Hreads. pose proof (Reporting_hashFileData file onProgress) as H.
  destruct (Reporting.hashFileData file onProgress) as [hashed|x].
  - now rewrite H.
  - destruct H as [(p & Hp)|(s & e & Hr)].
    + rewrite Hq in Hp. discriminate.
    + rewrite Hreads in Hr. discriminate.
Qed.



End Reports.

Section ReportedOutcomes.

Context {platform : Platform} {arithmetic : Arithmetic}.
Context {refusals : Refusals}.

(** X9. [hashFileData] ends in one of three ways. Its progress callback
    throws, and the call ends with what the callback threw; or the platform
    refuses to read a slice of the file, and the call ends with what that
    read was rejected with; or it returns the hash of the whole content of
    the file together with the content cut into ceil(size / 4 MiB) chunks:
    their concatenation is the content, none is empty, none exceeds 4 MiB,
    and every chunk but the last has exactly 4 MiB (the copy of the chunks
    into the buffer that is hashed stays within it). It returns whenever
    every read goes through and the callback returns from every call or is
    not given. *)
Theorem hashFileData_chunks (file : File)
    (onProgress : option (Number -> outcome unit)) :
  match Reporting.hashFileData file onProgress with
  | Returned (hash, chunks) =>
      hash = calculateHash (content file)
      /\ List.concat chunks = content file
      /\ len chunks = Math_ceil_div (size file) CHUNK_SIZE
      /\ (forall k : nat,
            (k < List.length chunks)%nat ->
            1 <= len (nth k chunks []) <= CHUNK_SIZE)
      /\ (forall k : nat,
            (S k < List.length chunks)%nat ->
            len (nth k chunks []) = CHUNK_SIZE)
  | Threw x =>
      (exists p, call1 onProgress p = Threw x)
      \/ (exists s e, arrayBuffer_rejects file s e = Some x)
  end
  /\ (returns1 onProgress ->
      (forall s e, arrayBuffer_rejects file s e = None) ->
      exists hashed, Reporting.hashFileData file onProgress = Returned hashed).
Proof.
  pose proof (Reporting_hashFileData file onProgress) as H.
  split.
  - destruct (Reporting.hashFileData file onProgress) as [[hash chunks]|x];
      [|exact H].
    destruct (hashFileData_partition file) as (chunks' & Hh & Hrest).
    rewrite Hh in H. injection H as <- <-. split; [reflexivity | exact Hrest].
  - intros Hq Hreads.
    destruct (Reporting.hashFileData file onProgress) as [hashed|x];
      [now exists hashed|].
    destruct H as [(p & Hp)|(s & e & Hr)].
    + rewrite Hq in Hp. discriminate.
    + rewrite Hreads in Hr. discriminate.
Qed.

(** X10. Whatever [encryptFile] throws is the failure of the key
    derivation, what its progress callback threw, what a read of the file
    was rejected with, or what the AEAD refused a chunk with: none of the
    writes into the header, into the input of a chunk key, into a nonce or
    into a record goes out of range, whatever the file, its name and the
    parameters. When the call returns, Argon2id has accepted the salt drawn
    and the parameters (the defaults 65536, 3 and 4 where none is given),
    the result is named after the file with .skita appended and carries the
    hash of the content, and the salt and the master nonce have been drawn.
    When every read and every chunk goes through and the callback returns
    from every call or is not given, the call returns exactly when Argon2id
    accepts, and throws the error of the key derivation otherwise. *)
Theorem encryptFile_outcome (file : File) (password : string) (a : Algorithm)
    (memory iterations parallelism : option Z)
    (onProgress : option (Number -> ustring -> outcome unit)) (g : rng) :
  match fst (Reporting.encryptFile file password a memory iterations
                                   parallelism onProgress g) with
  | Returned r =>
      (exists masterKey : bytes,
          argon2id password (fst (generateSalt g)) (default 3 iterations)
                   (default 65536 memory) (default 4 parallelism)
          = Some masterKey)
      /\ EncryptResult.filename r = name file ++ of_ascii ".skita"
      /\ EncryptResult.originalHash r = calculateHash (content file)
      /\ snd (Reporting.encryptFile file password a memory iterations
                                    parallelism onProgress g)
         = rng_after_encryptFile g
  | Threw x =>
      (x = engine KdfFailure
       /\ argon2id password (fst (generateSalt g)) (default 3 iterations)
                   (default 65536 memory) (default 4 parallelism) = None)
      \/ (exists p stage, call2 onProgress p stage = Threw x)
      \/ (exists s e, arrayBuffer_rejects file s e = Some x)
      \/ (exists a' key nonce data,
            encrypt_rejects a' key nonce data = Some x)
  end
  /\ (returns2 onProgress ->
      (forall s e, arrayBuffer_rejects file s e = None) ->
      (forall a' key nonce data, encrypt_rejects a' key nonce data = None) ->
      match argon2id password (fst (generateSalt g)) (default 3 iterations)
                     (default 65536 memory) (default 4 parallelism) with
      | Some _ =>
          exists r : EncryptResult.t,
            fst (Reporting.encryptFile file password a memory iterations
                                       parallelism onProgress g)
            = Returned r
      | None =>
          fst (Reporting.encryptFile file password a memory iterations
                                     parallelism onProgress g)
          = Threw (engine KdfFailure)
      end).
Proof.
  pose proof (encryptFile_kdf file password a memory iterations parallelism g)
    as Hplain.
  pose proof (Reporting_encryptFile file password a memory iterations
                parallelism onProgress g) as H.
  split.
  - destruct (fst (Reporting.encryptFile _ _ _ _ _ _ _ _)) as [r|x].
    + destruct H as (Hr & Hg).
      destruct (argon2id _ _ _ _ _) as [masterKey|].
      * destruct Hplain as (blob & Hb). rewrite Hb in Hr. injection Hr as <-.
        split; [now exists masterKey|]. now repeat split.
      * rewrite Hplain in Hr. discriminate.
    + destruct H as [(-> & He & _)|Hother]; [left|right; exact Hother].
      split; [reflexivity|].
      destruct (argon2id _ _ _ _ _) as [masterKey|]; [|reflexivity].
      destruct Hplain as (blob & Hb). rewrite Hb in He. discriminate.
  - intros Hq Hreads Hseals.
    destruct (fst (Reporting.encryptFile _ _ _ _ _ _ _ _)) as [r|x].
    + destruct H as (Hr & _).
      destruct (argon2id _ _ _ _ _) as [masterKey|]; [now exists r|].
      rewrite Hplain in Hr. discriminate.
    + destruct H as [(-> & He & _)|[(p & stage & Hp)|[(s & e & Hr)|Hs]]].
      * destruct (argon2id _ _ _ _ _) as [masterKey|]; [|reflexivity].
        destruct Hplain as (blob & Hb). rewrite Hb in He. discriminate.
      * rewrite Hq in Hp. discriminate.
      * rewrite Hreads in Hr. discriminate.
      * destruct Hs as (a' & key & nonce & data & Hs).
        rewrite Hseals in Hs. discriminate.
Qed.

End ReportedOutcomes.

(** ** The worker: decrypting what was encrypted *)

Lemma slice_app_prefix (a l : bytes) (e : Z) :
  len a <= e ->
  Uint8Array_slice (a ++ l) 0 e = a ++ Uint8Array_slice l 0 (e - len a).
Proof.
  intros H. pose proof (len_nonneg a) as Ha.
  rewrite !slice_prefix by lia. unfold len in *. rewrite firstn_app.
  rewrite firstn_all2 by lia. f_equal. f_equal. lia.
Qed.

Section RoundTrip.

Context {platform : Platform}.
Variables (file : File) (ms mn : bytes) (a : Algorithm).
Hypothesis Htag : tag_appended.
Hypothesis Hopen : opens_what_it_sealed.
Hypothesis Hmn : 8 <= len mn.

(** The decryption loop on a file that holds, from [offset] on, the records
    of [chunks]: it returns the chunks. What follows the records is not
    read. *)
Lemma decrypt_chunks_records (chunks : list bytes) :
  Forall (fun chunk => len chunk + 16 < 2 ^ 32) chunks ->
  forall (pre tail : bytes) (i : Z) (acc : list bytes),
    content file
    = pre ++ List.concat (records_from ms mn a i chunks) ++ tail ->
    decrypt_chunks file ms a (List.length chunks) i (len pre) acc
    = Ok (acc ++ chunks).
Proof.
  induction 1 as [|chunk chunks Hsmall _ IH]; intros pre tail i acc Hfile.
  - cbn. now rewrite app_nil_r.
  - cbn [List.length decrypt_chunks]. unfold File_slice.
    cbn [records_from List.concat] in Hfile.
    unfold record_of in Hfile. cbv zeta in Hfile.
    set (nonce := chunk_nonce mn i) in *.
    set (sealed := seal a (chunk_key ms i) nonce chunk) in *.
    assert (Hn : len nonce = 12) by now apply len_chunk_nonce.
    assert (Hs : len sealed = len chunk + 16) by apply Htag.
    pose proof (len_nonneg chunk) as Hc.
    pose proof (len_nonneg pre) as Hp.
    assert (Hhead : Uint8Array_slice (content file) (len pre) (len pre + 16)
                    = be32 (len sealed) ++ nonce).
    { rewrite Hfile. rewrite slice_app_skip by lia.
      rewrite <- !app_assoc.
      rewrite (app_assoc (be32 _) nonce).
      apply slice_app_here; [lia|]. rewrite len_app, len_be32. lia. }
    rewrite Hhead. rewrite getUint32_here by reflexivity. cbn [bind].
    rewrite Z.mod_small by lia.
    rewrite deriveChunkKey_ok. cbn [bind]. fold (chunk_key ms i).
    assert (Hnonce : Uint8Array_slice (be32 (len sealed) ++ nonce) 4 16
                     = nonce).
    { rewrite slice_app_skip by (rewrite ?len_be32; lia).
      rewrite len_be32. apply slice_all. lia. }
    rewrite Hnonce.
    assert (Hbody : Uint8Array_slice (content file) (len pre + 16)
                      (len pre + 16 + len sealed) = sealed).
    { rewrite Hfile. rewrite slice_app_skip by lia.
      rewrite <- !app_assoc.
      rewrite slice_app_skip by (rewrite ?len_be32; lia).
      rewrite slice_app_skip by (rewrite ?len_be32; lia).
      apply slice_app_here; rewrite ?len_be32; lia. }
    rewrite Hbody. unfold decryptChunk. unfold sealed at 1.
    rewrite Hopen.
    replace (len pre + 16 + len sealed)
      with (len (pre ++ record_of ms mn a i chunk)).
    2:{ rewrite len_app. unfold record_of. cbv zeta. fold nonce. fold sealed.
        rewrite !len_app, len_be32. lia. }
    rewrite (IH (pre ++ record_of ms mn a i chunk) tail (i + 1)
                (acc ++ [chunk])).
    + now rewrite <- app_assoc.
    + rewrite Hfile. unfold record_of. cbv zeta. fold nonce. fold sealed.
      now rewrite <- !app_assoc.
Qed.

End RoundTrip.

Lemma len_slice_le (data : bytes) (s e : Z) :
  0 <= s <= e -> len (Uint8Array_slice data s e) <= e - s.
Proof.
  intros H. unfold Uint8Array_slice, relative_index. cbv zeta.
  destruct (Z.ltb_spec s 0); [lia|]. destruct (Z.ltb_spec e 0); [lia|].
  unfold len. rewrite length_firstn. lia.
Qed.

Lemma read_chunks_bounded (file : File) (fuel : nat) :
  forall i : Z,
    0 <= i ->
    Forall (fun chunk => len chunk <= CHUNK_SIZE) (read_chunks file fuel i).
Proof.
  pose proof CHUNK_SIZE_pos as Hc.
  pose proof (len_nonneg (content file)) as Hs. fold (size file) in Hs.
  induction fuel as [|fuel IH]; intros i Hi; cbn [read_chunks];
    constructor; [|apply IH; lia].
  unfold File_slice.
  destruct (Z.le_gt_cases (i * CHUNK_SIZE) (size file)) as [Hin|Hout].
  - etransitivity; [apply len_slice_le; nia|]. lia.
  - rewrite slice_empty by (unfold size in *; nia).
    change (len (@nil Init.Byte.byte)) with 0. lia.
Qed.

Section RoundTripOfAFile.

Context {platform : Platform}.

(** X12. Decrypting what was encrypted gives the file back when the length
    F of the UTF-8 filename happens to be 256 times the low byte of the
    file size (so that the offset [getHeaderSize] computes is the true end
    of the header) and the header fits the 2048 bytes [decryptFile] reads:
    for every file below 4 GiB with such a name, well formed and not
    starting with U+FEFF, every password and KDF parameters within their
    fields that Argon2id accepts, and an AEAD that appends a 16-byte tag and
    opens what it sealed, [decryptFile] applied to the container
    [encryptFile] returned, with the same password, returns the content and
    the name of the file, with [verified] false. *)
Theorem decryptFile_encryptFile (file : File) (password : string)
    (a : Algorithm) (memory iterations parallelism : option Z)
    (g : rng) (masterKey : bytes) :
  tag_appended ->
  opens_what_it_sealed ->
  argon2id password (fst (generateSalt g)) (default 3 iterations)
           (default 65536 memory) (default 4 parallelism)
  = Some masterKey ->
  0 <= default 65536 memory < 2 ^ 32 ->
  0 <= default 3 iterations < 2 ^ 32 ->
  0 <= default 4 parallelism < 2 ^ 8 ->
  well_formed (name file) ->
  hd 0 (name file) <> BOM ->
  size file < 2 ^ 32 ->
  len (TextEncoder_encode (name file)) = (size file mod 2 ^ 8) * 2 ^ 8 ->
  len (TextEncoder_encode (name file)) <= 1985 ->
  exists r : EncryptResult.t,
    encryptFile file password a memory iterations parallelism g = Ok r
    /\ decryptFile (as_file r) password
       = Ok {| DecryptResult.blob := content file;
               DecryptResult.filename := name file;
               DecryptResult.verified := false;
               DecryptResult.originalHash := None;
               DecryptResult.decryptedHash := None |}.
Proof.
  intros Htag Hopen Hkdf Hmem Hit Hpar Hwf Hbom Hsize HF HF2.
  pose proof CHUNK_SIZE_pos as Hc.
  pose proof (len_nonneg (content file)) as Hs. fold (size file) in Hs.
  pose proof (Math_ceil_div_nonneg (size file) CHUNK_SIZE Hs Hc) as Hn.
  pose proof (Math_ceil_div_spec (size file) CHUNK_SIZE Hs Hc) as Hceil.
  assert (Hsalt : len (fst (generateSalt g)) = 32)
    by (apply len_generateRandomBytes; lia).
  assert (Hnonce : len (fst (generateNonce (snd (generateSalt g)))) = 12)
    by (apply len_generateRandomBytes; lia).
  unfold encryptFile.
  rewrite (encryptFile_chunks_ok file password a memory iterations
             parallelism g masterKey Hkdf).
  cbv zeta. cbn [bind fst snd]. eexists. split; [reflexivity|].
  set (n := Math_ceil_div (size file) CHUNK_SIZE) in *.
  set (chunks := read_chunks file (Z.to_nat n) 0).
  assert (Hchunks : len chunks = n).
  { unfold len, chunks. rewrite length_read_chunks. lia. }
  assert (Hnsmall : n < 2 ^ 24).
  { unfold CHUNK_SIZE in *. lia. }
  set (header := {| magic := MAGIC_BYTES; version := FORMAT_VERSION;
                    algorithm := a; kdf := Argon2id;
                    kdfMemory := default 65536 memory;
                    kdfIterations := default 3 iterations;
                    kdfParallelism := default 4 parallelism;
                    salt := fst (generateSalt g); chunkSize := CHUNK_SIZE;
                    originalFilename := name file;
                    originalSize := size file;
                    totalChunks := len chunks |}).
  set (records := records_from masterKey
                    (fst (generateNonce (snd (generateSalt g)))) a 0 chunks).
  cbn [List.concat].
  assert (Hhl : len (header_layout header)
                = 63 + len (TextEncoder_encode (name file))).
  { apply (len_header_layout header); [reflexivity | exact Hsalt]. }
  assert (Hslice :
            File_slice
              (as_file {| EncryptResult.blob :=
                            header_layout header ++ List.concat records;
                          EncryptResult.filename :=
                            name file ++ of_ascii ".skita";
                          EncryptResult.originalHash :=
                            calculateHash (List.concat chunks) |}) 0 2048
            = header_layout header
              ++ Uint8Array_slice (List.concat records) 0
                   (2048 - len (header_layout header))).
  { unfold File_slice, as_file. cbn [content EncryptResult.blob].
    apply slice_app_prefix. lia. }
  erewrite decryptFile_unfold; cycle 1.
  - rewrite Hslice.
    apply (deserializeHeader_layout header eq_refl Hsalt); [reflexivity|].
    cbn [originalFilename header]. lia.
  - rewrite Hslice.
    apply (getHeaderSize_layout header eq_refl Hsalt).
  - cbn [salt kdfIterations kdfMemory kdfParallelism header].
    rewrite !Z.mod_small by lia. exact Hkdf.
  - cbn [algorithm totalChunks originalFilename header originalSize].
    rewrite (Z.mod_small (len chunks)) by lia.
    replace (Z.to_nat (len chunks)) with (List.length chunks)
      by (unfold len; lia).
    replace (63 + (size file mod 2 ^ 8 * 2 ^ 8 + (len chunks / 2 ^ 24) mod 2 ^ 8))
      with (len (header_layout header)).
    2:{ rewrite Hhl, HF, Hchunks. rewrite (Z.div_small n) by lia.
        rewrite Z.mod_0_l by lia. lia. }
    rewrite (decrypt_chunks_records _ masterKey
               (fst (generateNonce (snd (generateSalt g)))) a Htag Hopen
               ltac:(lia) chunks) with (tail := []).
    + cbn [bind app]. fold chunks.
      unfold chunks, n. rewrite read_chunks_whole.
      rewrite TextDecoder_TextEncoder by assumption. reflexivity.
    + eapply Forall_impl; [|apply read_chunks_bounded; lia].
      cbn beta. intros chunk Hle. unfold CHUNK_SIZE in Hle. lia.
    + unfold as_file. cbn [content EncryptResult.blob].
      now rewrite app_nil_r.
Qed.

End RoundTripOfAFile.

Lemma forallb_combine_refl (l : bytes) :
  forallb (fun p => Byte.eqb (fst p) (snd p)) (combine l l) = true.
Proof.
  induction l as [|b l IH]; cbn; [reflexivity|].
  rewrite IH, andb_true_r. now apply Byte_eqb_iff.
Qed.

Lemma stand_in_opens_what_it_sealed :
  opens_what_it_sealed (platform := stand_in).
Proof.
  intros a key nonce data. cbn [seal unseal stand_in].
  unfold stand_in_unseal.
  assert (Ht : List.length (stand_in_tag key) = 16%nat).
  { unfold stand_in_tag. rewrite length_firstn, length_app, repeat_length. lia. }
  rewrite len_app. unfold len. rewrite length_app, Ht.
  replace (List.length data + 16 - 16)%nat with (List.length data) by lia.
  rewrite skipn_app, skipn_all, Nat.sub_diag. cbn [skipn app].
  rewrite forallb_combine_refl, andb_true_r.
  destruct (Z.leb_spec 16 (Z.of_nat (List.length data) + Z.of_nat 16));
    [|lia].
  rewrite firstn_app, firstn_all, Nat.sub_diag. cbn [firstn].
  now rewrite app_nil_r.
Qed.

Lemma decryptFile_encryptFile_witness :
  exists r : EncryptResult.t,
    encryptFile (platform := stand_in) zeroes256 "alpha" ChaCha20_Poly1305
                None (Some 2) None zero_rng = Ok r
    /\ decryptFile (platform := stand_in) (as_file r) "alpha"
       = Ok {| DecryptResult.blob := content zeroes256;
               DecryptResult.filename := name zeroes256;
               DecryptResult.verified := false;
               DecryptResult.originalHash := None;
               DecryptResult.decryptedHash := None |}.
Proof.
  apply (decryptFile_encryptFile (platform := stand_in) zeroes256 "alpha"
           ChaCha20_Poly1305 None (Some 2) None zero_rng
           (checksum (list_byte_of_string "alpha" ++ Uint8Array 32))).
  - exact stand_in_tag_appended.
  - exact stand_in_opens_what_it_sealed.
  - reflexivity.
  - cbn; lia.
  - cbn; lia.
  - cbn; lia.
  - constructor.
  - cbn. discriminate.
  - vm_compute. reflexivity.
  - vm_compute. reflexivity.
  - vm_compute. discriminate.
Defined.

(** ** The worker: what [decryptFile] reports *)

Section DecryptReports.

Context {platform : Platform}.

(** X13. [decryptFile] never reports a verified plaintext and never raises
    its verification error: whatever the file and the password, a result it
    returns has [verified] false and neither hash, and an error it raises
    is the format error, a RangeError, the failure of the key derivation or
    the decryption error. *)
Theorem decryptFile_reports (file : File) (password : string) :
  match decryptFile file password with
  | Ok r =>
      DecryptResult.verified r = false
      /\ DecryptResult.originalHash r = None
      /\ DecryptResult.decryptedHash r = None
  | Err e =>
      e = InvalidFileFormat \/ e = RangeError \/ e = KdfFailure
      \/ e = DecryptionFailed
  end.
Proof.
  destruct (decryptFile file password) as [r|e] eqn:H.
  - revert H. unfold decryptFile. cbv zeta.
    destruct (deserializeHeader _); cbn [bind]; [|discriminate].
    destruct (getHeaderSize _); cbn [bind]; [|discriminate].
    destruct (deriveKeyArgon2 _ _ _ _ _); cbn [bind]; [|discriminate].
    destruct (decrypt_chunks _ _ _ _ _ _ _); cbn [bind]; [|discriminate].
    unfold property_originalHash. now intros [= <-].
  - now apply decryptFile_errors in H.
Qed.

(** X14. [decryptFile] raises its decryption error exactly when the loop
    reaches a chunk that the AEAD refuses: the call ends with that error if
    and only if the header was parsed, a header size was computed, the key
    was derived, and, every chunk before it having been opened, the bytes
    read for some chunk do not open under its key and nonce. The cause may
    be a wrong password as well as a damaged, shifted or shortened record;
    a header that does not parse, a record whose length cannot be read and
    a key derivation that fails are reported with other errors. *)
Theorem decryptFile_failure_is_a_tag (file : File) (password : string) :
  decryptFile file password = Err DecryptionFailed
  <-> exists (header : FileHeader) (headerSize : Z) (masterKey : bytes),
        deserializeHeader (File_slice file 0 2048) = Ok header
        /\ getHeaderSize (File_slice file 0 2048) = Ok headerSize
        /\ argon2id password (salt header) (kdfIterations header)
                    (kdfMemory header) (kdfParallelism header)
           = Some masterKey
        /\ tag_fails file masterKey (algorithm header)
                     (Z.to_nat (totalChunks header)) 0 headerSize.
Proof.
  split.
  - unfold decryptFile. cbv zeta.
    destruct (deserializeHeader _) as [header|e1] eqn:Hh; cbn [bind].
    2:{ intros [= ->]. apply deserializeHeader_errors in Hh.
        destruct Hh; discriminate. }
    destruct (getHeaderSize _) as [headerSize|e2] eqn:Hs; cbn [bind].
    2:{ intros [= ->]. apply getHeaderSize_errors in Hs. discriminate. }
    unfold deriveKeyArgon2.
    destruct (argon2id _ _ _ _ _) as [masterKey|] eqn:Hk; cbn [bind];
      [|discriminate].
    destruct (decrypt_chunks _ _ _ _ _ _ _) as [chunks|e3] eqn:Hc; cbn [bind].
    + unfold property_originalHash. discriminate.
    + intros [= ->]. exists header, headerSize, masterKey.
      split; [reflexivity|]. split; [reflexivity|]. split; [exact Hk|].
      eapply decrypt_chunks_failed_inv. exact Hc.
  - intros (header & headerSize & masterKey & Hh & Hs & Hk & Hfail).
    rewrite (decryptFile_unfold file password header headerSize masterKey
               Hh Hs Hk).
    now rewrite (decrypt_chunks_tag_fails _ _ _ _ _ _ Hfail).
Qed.

End DecryptReports.

Lemma decryptFile_failure_is_a_tag_witness :
  exists (header : FileHeader) (headerSize : Z) (masterKey : bytes),
    deserializeHeader (File_slice zeroes256_container_cut 0 2048) = Ok header
    /\ getHeaderSize (File_slice zeroes256_container_cut 0 2048)
       = Ok headerSize
    /\ argon2id (Platform := stand_in) "alpha" (salt header)
                (kdfIterations header) (kdfMemory header)
                (kdfParallelism header) = Some masterKey
    /\ tag_fails (platform := stand_in) zeroes256_container_cut masterKey
                 (algorithm header) (Z.to_nat (totalChunks header)) 0
                 headerSize.
Proof.
  apply (proj1 (decryptFile_failure_is_a_tag (platform := stand_in)
                  zeroes256_container_cut "alpha")).
  vm_compute. reflexivity.
Defined.

(** ** The two versions of the worker *)

Section TwoWorkers.

Context {platform : Platform}.



End TwoWorkers.











Section TwoDecryptions.

Context {platform : Platform}.


End TwoDecryptions.


(** ** Batches *)





Section BatchEncrypt.

Context {platform : Platform} {arithmetic : Arithmetic}.
Context {refusals : Refusals}.
Variables (password : string) (a : Algorithm).
Variables (memory iterations parallelism : option Z).
Variable onFileProgress : option (Z -> Number -> ustring -> outcome unit).
Variable onFileComplete : option (Z -> EncryptResult.t -> outcome unit).
Variable onFileError : option (Z -> exception -> outcome unit).





End BatchEncrypt.

Section BatchEncryptEntries.

Context {platform : Platform} {arithmetic : Arithmetic}.
Context {refusals : Refusals}.



End BatchEncryptEntries.


(** X28. One file can have two entries. With an [onFileComplete] that
    throws the string stop, the batch of the single file hello returns
    [results] = [result, null] and [errors] = [null, Error: stop], with
    [totalSuccess] = 1 and [totalFailed] = 1: the result was pushed before
    the callback was called in the [try], and the [catch] pushed again. *)
Example batchEncryptFiles_two_entries_for_one_file :
  exists result : EncryptResult.t,
    encryptFile (platform := stand_in) hello "alpha" AES_GCM None None None
                zero_rng = Ok result
    /\ batchEncryptFiles (platform := stand_in) (arithmetic := binary64)
         (refusals := no_refusal) [hello] "alpha" AES_GCM None None None None
         (Some (fun _ _ => Threw (not_an_Error (of_ascii "stop")))) None
         zero_rng
       = Returned
           {| BatchEncryptResult.results := [Some result; None];
              BatchEncryptResult.errors :=
                [None; Some (an_Error (of_ascii "stop"))];
              BatchEncryptResult.totalSuccess := 1;
              BatchEncryptResult.totalFailed := 1 |}.
Proof. eexists. split; vm_compute; reflexivity. Qed.


Section BatchDecrypt.

Context {platform : Platform} {arithmetic : Arithmetic}.
Context {refusals : Refusals}.
Variable password : string.
Variable onFileProgress : option (Z -> Number -> ustring -> outcome unit).
Variable onFileComplete : option (Z -> DecryptResult.t -> outcome unit).
Variable onFileError : option (Z -> exception -> outcome unit).



End BatchDecrypt.

Section BatchDecryptEntries.

Context {platform : Platform} {arithmetic : Arithmetic}.
Context {refusals : Refusals}.



End BatchDecryptEntries.


(** ** The password meter *)

(** The score as the sum of its parts. The cap at 100 never cuts: the parts
    add up to 100 at most. *)
Lemma score_parts (password : ustring) :
  score (checkPasswordStrength password)
  = (if 8 <=? String_length password then 20 else 0)
    + (if 12 <=? String_length password then 10 else 0)
    + (if 16 <=? String_length password then 10 else 0)
    + (if 20 <=? String_length password then 10 else 0)
    + (if RegExp_test lowercase password then 10 else 0)
    + (if RegExp_test uppercase password then 10 else 0)
    + (if RegExp_test digit password then 10 else 0)
    + (if RegExp_test symbol password then 10 else 0)
    + (if includes_space password && (3 <=? split_space_length password)
       then 10 else 0).
Proof.
  unfold checkPasswordStrength. cbv zeta. cbn [score].
  destruct (8 <=? _), (12 <=? _), (16 <=? _), (20 <=? _),
    (RegExp_test lowercase _), (RegExp_test uppercase _),
    (RegExp_test digit _), (RegExp_test symbol _),
    (includes_space _ && _); reflexivity.
Qed.

Lemma label_thresholds (password : ustring) :
  label (checkPasswordStrength password)
  = let score := score (checkPasswordStrength password) in
    if score <? 30 then Sangat_Lemah
    else if score <? 50 then Lemah
    else if score <? 70 then Sedang
    else if score <? 90 then Kuat
    else Sangat_Kuat.
Proof. reflexivity. Qed.

Lemma String_length_app (s t : ustring) :
  String_length (s ++ t) = String_length s + String_length t.
Proof.
  induction s as [|c s IH]; cbn [app String_length]; [reflexivity|].
  rewrite IH. lia.
Qed.

Lemma String_length_nonneg (s : ustring) : 0 <= String_length s.
Proof.
  induction s as [|c s IH]; cbn [String_length]; [lia|].
  destruct (0x10000 <=? c); lia.
Qed.

Lemma RegExp_test_insert (class : Z -> bool) (s t u : ustring) :
  RegExp_test class (s ++ u) = true -> RegExp_test class (s ++ t ++ u) = true.
Proof.
  unfold RegExp_test. rewrite !existsb_app, !orb_true_iff. tauto.
Qed.

Lemma split_space_length_insert (s t u : ustring) :
  split_space_length (s ++ u) <= split_space_length (s ++ t ++ u).
Proof.
  unfold split_space_length. rewrite !filter_app, !len_app.
  pose proof (len_nonneg (filter (Z.eqb 32) t)). lia.
Qed.

(** X19. Adding characters to a password never lowers its score: for all
    strings s, t and u, the score of s t u (t inserted anywhere into s u)
    is at least the score of s u. *)
Theorem checkPasswordStrength_monotone (s t u : ustring) :
  score (checkPasswordStrength (s ++ u))
  <= score (checkPasswordStrength (s ++ t ++ u)).
Proof.
  rewrite !score_parts.
  pose proof (String_length_nonneg t) as Ht.
  assert (Hlen : String_length (s ++ u) <= String_length (s ++ t ++ u))
    by (rewrite !String_length_app; lia).
  pose proof (RegExp_test_insert lowercase s t u) as Hl.
  pose proof (RegExp_test_insert uppercase s t u) as Hu.
  pose proof (RegExp_test_insert digit s t u) as Hd.
  pose proof (RegExp_test_insert symbol s t u) as Hs.
  pose proof (RegExp_test_insert (Z.eqb 32) s t u) as Hi.
  fold (includes_space (s ++ u)) in Hi.
  fold (includes_space (s ++ t ++ u)) in Hi.
  pose proof (split_space_length_insert s t u) as Hsp.
  assert (Hb : includes_space (s ++ u) && (3 <=? split_space_length (s ++ u))
               = true ->
               includes_space (s ++ t ++ u)
               && (3 <=? split_space_length (s ++ t ++ u)) = true).
  { rewrite !andb_true_iff, !Z.leb_le. intros (H1 & H2).
    split; [now apply Hi | lia]. }
  assert (T : forall b b' : bool,
             (b = true -> b' = true) ->
             (if b then 10 else 0) <= (if b' then 10 else 0)).
  { intros [|] b' H; [rewrite H by reflexivity | destruct b']; lia. }
  assert (L : forall k v : Z,
             0 <= v ->
             (if k <=? String_length (s ++ u) then v else 0)
             <= (if k <=? String_length (s ++ t ++ u) then v else 0)).
  { intros k v Hv.
    destruct (Z.leb_spec k (String_length (s ++ u)));
      destruct (Z.leb_spec k (String_length (s ++ t ++ u))); lia. }
  pose proof (L 8 20 ltac:(lia)). pose proof (L 12 10 ltac:(lia)).
  pose proof (L 16 10 ltac:(lia)). pose proof (L 20 10 ltac:(lia)).
  pose proof (T _ _ Hl). pose proof (T _ _ Hu). pose proof (T _ _ Hd).
  pose proof (T _ _ Hs). pose proof (T _ _ Hb).
  lia.
Qed.

(** Every character is a lowercase letter, an uppercase letter, a digit or
    a symbol: only the empty password is in none of the four classes. *)
Lemma some_class (password : ustring) :
  password <> [] ->
  RegExp_test lowercase password = true
  \/ RegExp_test uppercase password = true
  \/ RegExp_test digit password = true
  \/ RegExp_test symbol password = true.
Proof.
  destruct password as [|c rest]; [congruence|]. intros _.
  unfold RegExp_test. cbn [existsb]. unfold symbol.
  destruct (lowercase c), (uppercase c), (digit c); cbn; tauto.
Qed.

Lemma String_length_zero (password : ustring) :
  String_length password = 0 -> password = [].
Proof.
  destruct password as [|c rest]; [reflexivity|]. cbn [String_length].
  pose proof (String_length_nonneg rest). destruct (0x10000 <=? c); lia.
Qed.

(** X20. The score is a multiple of ten between two bounds that the length
    of the password (in UTF-16 code units) sets: below 8 units it is at most
    50, below 12 at most 70, below 16 at most 80, below 20 at most 90; from 8
    units on it is at least 30, from 12 at least 40, from 16 at least 50,
    from 20 at least 60, and any non-empty password scores at least 10. So
    the label 'Sangat Kuat' needs 16 units, the label 'Kuat' needs 8, and
    no password of 8 units or more is 'Sangat Lemah'. *)
Theorem checkPasswordStrength_bounds (password : ustring) :
  let r := checkPasswordStrength password in
  let L := String_length password in
  (if L <? 8 then (if L =? 0 then 0 else 10)
   else if L <? 12 then 30 else if L <? 16 then 40
   else if L <? 20 then 50 else 60) <= score r
  /\ score r <= (if L <? 8 then 50 else if L <? 12 then 70
                 else if L <? 16 then 80 else if L <? 20 then 90 else 100)
  /\ score r mod 10 = 0
  /\ match label r with
     | Sangat_Kuat => 16 <= L
     | Kuat => 8 <= L
     | Sangat_Lemah => L < 8
     | Lemah | Sedang => True
     end.
Proof.
  cbv zeta. rewrite label_thresholds. cbv zeta. rewrite score_parts.
  pose proof (String_length_nonneg password) as H0.
  assert (Hclass : String_length password <> 0 ->
            10 <= (if RegExp_test lowercase password then 10 else 0)
                  + (if RegExp_test uppercase password then 10 else 0)
                  + (if RegExp_test digit password then 10 else 0)
                  + (if RegExp_test symbol password then 10 else 0)).
  { intros Hne.
    destruct (some_class password) as [H|[H|[H|H]]];
      [ intros ->; now apply Hne
      | rewrite H; repeat match goal with
                     | |- context [if ?b then _ else _] => destruct b
                     end; lia .. ]. }
  assert (Hsum : exists c : Z,
            (if RegExp_test lowercase password then 10 else 0)
            + (if RegExp_test uppercase password then 10 else 0)
            + (if RegExp_test digit password then 10 else 0)
            + (if RegExp_test symbol password then 10 else 0)
            + (if includes_space password
                  && (3 <=? split_space_length password) then 10 else 0)
            = 10 * c /\ 0 <= c <= 5
            /\ (String_length password <> 0 -> 1 <= c)).
  { revert Hclass.
    destruct (RegExp_test lowercase password),
      (RegExp_test uppercase password), (RegExp_test digit password),
      (RegExp_test symbol password), (includes_space password && _);
      intros Hclass;
      match goal with
      | |- exists c, ?n = _ /\ _ => exists (n / 10)
      end; cbn; (split; [reflexivity | split; [lia | intros Hne]]);
      try lia; specialize (Hclass Hne); cbn in Hclass; lia. }
  destruct Hsum as (c & Hc & Hrange & Hpos).
  match goal with
  | |- context [?A + ?B + ?C + ?D + ?l + ?u + ?d + ?s + ?b] =>
      replace (A + B + C + D + l + u + d + s + b)
        with (A + B + C + D + 10 * c) by (rewrite <- Hc; ring)
  end.
  clear Hc Hclass.
  repeat match goal with
    | |- context [?a <=? String_length password] =>
        destruct (Z.leb_spec a (String_length password))
    | |- context [String_length password <? ?a] =>
        destruct (Z.ltb_spec (String_length password) a)
    | |- context [String_length password =? ?a] =>
        destruct (Z.eqb_spec (String_length password) a)
    end; try lia.
  all: try (assert (Hc1 : 1 <= c) by (apply Hpos; lia)); clear Hpos.
  all: (split; [lia | split; [lia | split; [arith|]]]).
  all: repeat match goal with
         | |- context [?a <? ?b] => destruct (Z.ltb_spec a b)
         end; lia.
Qed.

Lemma includes_space_filter (password : ustring) :
  includes_space password = true <-> 1 <= len (filter (Z.eqb 32) password).
Proof.
  unfold includes_space.
  induction password as [|c rest IH]; cbn [existsb filter].
  - change (len (@nil Z)) with 0. split; [discriminate | lia].
  - destruct (32 =? c); cbn [orb].
    + rewrite len_cons. pose proof (len_nonneg (filter (Z.eqb 32) rest)).
      split; [lia | reflexivity].
    + exact IH.
Qed.

(** The bonus of the source, [password.includes(' ') &&
    password.split(' ').length >= 3], is for two spaces or more. *)
Lemma passphrase_bonus (password : ustring) :
  includes_space password && (3 <=? split_space_length password) = true
  <-> 2 <= len (filter (Z.eqb 32) password).
Proof.
  rewrite andb_true_iff, includes_space_filter, Z.leb_le.
  unfold split_space_length. lia.
Qed.

Lemma suggestions_parts (password : ustring) :
  suggestions (checkPasswordStrength password)
  = firstn 3
      ((if 8 <=? String_length password then [] else [Minimal_8_karakter])
       ++ (if RegExp_test lowercase password then []
           else [Tambahkan_huruf_kecil])
       ++ (if RegExp_test uppercase password then []
           else [Tambahkan_huruf_besar])
       ++ (if RegExp_test digit password then [] else [Tambahkan_angka])
       ++ (if RegExp_test symbol password then [] else [Tambahkan_simbol])
       ++ (if includes_space password
              && (3 <=? split_space_length password) then []
           else if String_length password <? 16 then [Coba_passphrase]
                else [])).
Proof.
  unfold checkPasswordStrength. cbv zeta. cbn [suggestions].
  destruct (8 <=? _), (RegExp_test lowercase _), (RegExp_test uppercase _),
    (RegExp_test digit _), (RegExp_test symbol _), (includes_space _ && _),
    (String_length password <? 16); reflexivity.
Qed.

(** X21. The suggestions: there are at most three of them; the advice to
    use at least 8 characters is given exactly to the passwords shorter
    than 8 code units, and then comes first; and no suggestion at all is
    made exactly when the password has 8 units or more, a lowercase letter,
    an uppercase letter, a digit and a symbol, and either 16 units or two
    spaces. A password without suggestions scores 70 at least, not
    necessarily 100. *)
Theorem checkPasswordStrength_suggestions (password : ustring) :
  let r := checkPasswordStrength password in
  len (suggestions r) <= 3
  /\ (hd_error (suggestions r) = Some Minimal_8_karakter
      <-> String_length password < 8)
  /\ (In Minimal_8_karakter (suggestions r) <-> String_length password < 8)
  /\ (suggestions r = []
      <-> 8 <= String_length password
          /\ RegExp_test lowercase password = true
          /\ RegExp_test uppercase password = true
          /\ RegExp_test digit password = true
          /\ RegExp_test symbol password = true
          /\ (16 <= String_length password
              \/ 2 <= len (filter (Z.eqb 32) password)))
  /\ (if is_nil (suggestions r) then 70 <= score r else True).
Proof.
  cbv zeta. rewrite score_parts, suggestions_parts.
  pose proof (passphrase_bonus password) as Hb.
  split; [unfold len; rewrite length_firstn; lia|].
  destruct (includes_space password && _).
  - assert (H2 : 2 <= len (filter (Z.eqb 32) password)) by now apply Hb.
    clear Hb.
    destruct (RegExp_test lowercase password),
      (RegExp_test uppercase password), (RegExp_test digit password),
      (RegExp_test symbol password);
      destruct (Z.leb_spec 8 (String_length password));
      cbn [app firstn hd_error In is_nil];
      repeat match goal with
        | |- context [?a <=? String_length password] =>
            destruct (Z.leb_spec a (String_length password)); try lia
        end;
      intuition (try discriminate; try lia).
  - assert (H2 : ~ 2 <= len (filter (Z.eqb 32) password)).
    { intros H. apply Hb in H. discriminate. }
    clear Hb.
    destruct (RegExp_test lowercase password),
      (RegExp_test uppercase password), (RegExp_test digit password),
      (RegExp_test symbol password);
      destruct (Z.leb_spec 8 (String_length password));
      destruct (Z.ltb_spec (String_length password) 16);
      cbn [app firstn hd_error In is_nil];
      repeat match goal with
        | |- context [?a <=? String_length password] =>
            destruct (Z.leb_spec a (String_length password)); try lia
        end;
      intuition (try discriminate; try lia).
Qed.

(** ** Passphrases *)

Lemma WORD_LIST_words :
  forallb is_short_lowercase_word (map of_ascii WORD_LIST) = true.
Proof. vm_compute. reflexivity. Qed.

Lemma passphrase_word (value : Init.Byte.byte) :
  In (of_ascii (nth (Z.to_nat (byte.unsigned value mod len WORD_LIST))
                    WORD_LIST ""%string))
     (map of_ascii WORD_LIST).
Proof.
  apply in_map, nth_In.
  pose proof (byte.unsigned_range value) as Hv.
  change (len WORD_LIST) with 40. change (List.length WORD_LIST) with 40%nat.
  assert (0 <= byte.unsigned value mod 40 < 40) by arith. lia.
Qed.

Lemma word_shape (word : ustring) :
  In word (map of_ascii WORD_LIST) ->
  Forall (fun c => lowercase c = true) word /\ 4 <= len word <= 7.
Proof.
  intros H. pose proof WORD_LIST_words as Hall.
  rewrite forallb_forall in Hall. specialize (Hall word H).
  unfold is_short_lowercase_word in Hall.
  rewrite !andb_true_iff, !Z.leb_le, forallb_forall in Hall.
  destruct Hall as ((Hl & H4) & H7). split; [|lia].
  now apply Forall_forall.
Qed.

Lemma join_cons (word : ustring) (rest : list ustring) :
  rest <> [] ->
  join (of_ascii " ") (word :: rest)
  = word ++ of_ascii " " ++ join (of_ascii " ") rest.
Proof. destruct rest; [congruence | reflexivity]. Qed.

Lemma join_characters (words : list ustring) :
  Forall (fun word => In word (map of_ascii WORD_LIST)) words ->
  Forall (fun c => lowercase c = true \/ c = 32) (join (of_ascii " ") words).
Proof.
  induction 1 as [|word rest Hw _ IH]; [constructor|].
  assert (Hword : Forall (fun c => lowercase c = true \/ c = 32) word).
  { destruct (word_shape word Hw) as (Hl & _).
    eapply Forall_impl; [|exact Hl]. cbn beta. tauto. }
  destruct rest as [|word' rest]; [exact Hword|].
  rewrite join_cons by discriminate.
  apply Forall_app. split; [exact Hword|].
  apply Forall_app. split; [|exact IH].
  change (of_ascii " ") with [32]. constructor; [now right | constructor].
Qed.

Lemma no_space_in_letters (word : ustring) :
  Forall (fun c => lowercase c = true) word -> filter (Z.eqb 32) word = [].
Proof.
  induction 1 as [|c word Hc _ IH]; [reflexivity|].
  cbn [filter]. rewrite IH.
  unfold lowercase in Hc. rewrite andb_true_iff, !Z.leb_le in Hc.
  destruct (Z.eqb_spec 32 c); [lia | reflexivity].
Qed.

Lemma no_space_in_word (word : ustring) :
  In word (map of_ascii WORD_LIST) -> filter (Z.eqb 32) word = [].
Proof.
  intros Hw. apply no_space_in_letters. now apply word_shape.
Qed.

Lemma join_spaces (words : list ustring) :
  Forall (fun word => In word (map of_ascii WORD_LIST)) words ->
  len (filter (Z.eqb 32) (join (of_ascii " ") words))
  = Z.max 0 (len words - 1).
Proof.
  induction 1 as [|word rest Hw _ IH].
  - reflexivity.
  - destruct rest as [|word' rest].
    + cbn [join]. rewrite no_space_in_word by exact Hw. reflexivity.
    + rewrite join_cons by discriminate.
      rewrite !filter_app, no_space_in_word by exact Hw.
      cbn [app]. change (filter (Z.eqb 32) (of_ascii " ")) with [32].
      cbn [app]. rewrite len_cons, IH, !len_cons.
      pose proof (len_nonneg rest). lia.
Qed.

Lemma join_length (words : list ustring) :
  Forall (fun word => In word (map of_ascii WORD_LIST)) words ->
  words <> [] ->
  5 * len words - 1 <= len (join (of_ascii " ") words) <= 8 * len words - 1.
Proof.
  induction 1 as [|word rest Hw _ IH]; [congruence|]. intros _.
  destruct (word_shape word Hw) as (_ & Hlen).
  destruct rest as [|word' rest].
  - cbn [join]. rewrite len_cons. change (len (@nil ustring)) with 0. lia.
  - rewrite join_cons by discriminate. rewrite !len_app.
    change (len (of_ascii " ")) with 1.
    specialize (IH ltac:(discriminate)). rewrite len_cons. lia.
Qed.

Lemma String_length_basic (s : ustring) :
  Forall (fun c => c < 0x10000) s -> String_length s = len s.
Proof.
  induction 1 as [|c s Hc _ IH]; [reflexivity|].
  cbn [String_length]. rewrite len_cons, IH.
  destruct (Z.leb_spec 0x10000 c); lia.
Qed.

Lemma RegExp_test_none (class : Z -> bool) (s : ustring) :
  Forall (fun c => class c = false) s -> RegExp_test class s = false.
Proof.
  induction 1 as [|c s Hc _ IH]; [reflexivity|].
  unfold RegExp_test in *. cbn [existsb]. now rewrite Hc, IH.
Qed.

Lemma generatePassphrase_join (wordCount : Z) (g : rng) :
  exists words : list ustring,
    fst (generatePassphrase wordCount g) = join (of_ascii " ") words
    /\ List.length words = Z.to_nat wordCount
    /\ Forall (fun word => In word (map of_ascii WORD_LIST)) words.
Proof.
  unfold generatePassphrase. cbv zeta. cbn [fst].
  eexists. split; [reflexivity|]. split.
  - unfold generateRandomBytes. cbn [fst].
    now rewrite !length_map, length_seq.
  - apply Forall_forall. intros word Hin. apply in_map_iff in Hin.
    destruct Hin as (value & <- & _). apply passphrase_word.
Qed.

Lemma RegExp_test_first (class : Z -> bool) (c : Z) (s : ustring) :
  class c = true -> RegExp_test class (c :: s) = true.
Proof. intros H. unfold RegExp_test. cbn [existsb]. now rewrite H. Qed.

Lemma join_has_lowercase (words : list ustring) :
  Forall (fun word => In word (map of_ascii WORD_LIST)) words ->
  words <> [] ->
  RegExp_test lowercase (join (of_ascii " ") words) = true.
Proof.
  intros Hall Hne. destruct Hall as [|word rest Hw _]; [congruence|].
  destruct (word_shape word Hw) as (Hl & Hlen).
  destruct Hl as [|c word Hc _].
  { change (len (@nil Z)) with 0 in Hlen. lia. }
  destruct rest as [|word' rest].
  - now apply RegExp_test_first.
  - rewrite join_cons by discriminate. now apply RegExp_test_first.
Qed.

(** X22. A passphrase of [wordCount] words, for a count from 0 to 65536,
    is made of that many words of the list joined by single spaces: every
    word is one of the forty (the index computed from a random byte is
    always within the list), the passphrase holds lowercase letters and
    spaces only, one space fewer than words, and the call consumes one
    random byte per word. *)
Theorem generatePassphrase_words (wordCount : Z) (g : rng) :
  0 <= wordCount <= 65536 ->
  exists words : list ustring,
    fst (generatePassphrase wordCount g) = join (of_ascii " ") words
    /\ len words = wordCount
    /\ Forall (fun word => In word (map of_ascii WORD_LIST)) words
    /\ Forall (fun c => lowercase c = true \/ c = 32)
              (fst (generatePassphrase wordCount g))
    /\ len (filter (Z.eqb 32) (fst (generatePassphrase wordCount g)))
       = Z.max 0 (wordCount - 1)
    /\ cursor (snd (generatePassphrase wordCount g))
       = (cursor g + Z.to_nat wordCount)%nat
    /\ stream (snd (generatePassphrase wordCount g)) = stream g.
Proof.
  intros Hcount.
  destruct (generatePassphrase_join wordCount g) as (words & Hp & Hlen & Hall).
  exists words. rewrite Hp.
  assert (Hn : len words = wordCount) by (unfold len; lia).
  split; [reflexivity|]. split; [exact Hn|]. split; [exact Hall|].
  split; [now apply join_characters|].
  split; [now rewrite join_spaces, Hn|].
  split; reflexivity.
Qed.

Lemma generatePassphrase_words_witness :
  exists words : list ustring,
    fst (generatePassphrase 4 zero_rng) = join (of_ascii " ") words
    /\ len words = 4
    /\ Forall (fun word => In word (map of_ascii WORD_LIST)) words
    /\ Forall (fun c => lowercase c = true \/ c = 32)
              (fst (generatePassphrase 4 zero_rng))
    /\ len (filter (Z.eqb 32) (fst (generatePassphrase 4 zero_rng)))
       = Z.max 0 (4 - 1)
    /\ cursor (snd (generatePassphrase 4 zero_rng))
       = (cursor zero_rng + Z.to_nat 4)%nat
    /\ stream (snd (generatePassphrase 4 zero_rng)) = stream zero_rng.
Proof. apply (generatePassphrase_words 4 zero_rng). lia. Defined.

(** X23. The meter on the generator: every passphrase of four words or
    more that [generatePassphrase] produces is rated 'Kuat', with a score of
    70 or 80, never 'Sangat Kuat', and gets the two suggestions to add an
    uppercase letter and to add a digit. *)
Theorem generatePassphrase_strength (wordCount : Z) (g : rng) :
  4 <= wordCount <= 65536 ->
  let r := checkPasswordStrength (fst (generatePassphrase wordCount g)) in
  label r = Kuat
  /\ (score r = 70 \/ score r = 80)
  /\ suggestions r = [Tambahkan_huruf_besar; Tambahkan_angka].
Proof.
  intros Hcount. cbv zeta.
  destruct (generatePassphrase_join wordCount g) as (words & Hp & Hlen & Hall).
  rewrite Hp. set (p := join (of_ascii " ") words).
  assert (Hn : len words = wordCount) by (unfold len; lia).
  assert (Hne : words <> []) by (intros ->; cbn in Hlen; lia).
  pose proof (join_characters words Hall) as Hchars. fold p in Hchars.
  pose proof (join_spaces words Hall) as Hspaces. fold p in Hspaces.
  pose proof (join_length words Hall Hne) as Hsize. fold p in Hsize.
  assert (HL : String_length p = len p).
  { apply String_length_basic. eapply Forall_impl; [|exact Hchars].
    cbn beta. intros c [Hc| ->]; [|lia].
    unfold lowercase in Hc. rewrite andb_true_iff, !Z.leb_le in Hc. lia. }
  assert (Hlower : RegExp_test lowercase p = true)
    by now apply join_has_lowercase.
  assert (Hupper : RegExp_test uppercase p = false).
  { apply RegExp_test_none. eapply Forall_impl; [|exact Hchars].
    cbn beta. intros c [Hc| ->]; [|reflexivity].
    unfold lowercase in Hc. rewrite andb_true_iff, !Z.leb_le in Hc.
    unfold uppercase. destruct (Z.leb_spec c 90); [lia|].
    apply andb_false_r. }
  assert (Hdigit : RegExp_test digit p = false).
  { apply RegExp_test_none. eapply Forall_impl; [|exact Hchars].
    cbn beta. intros c [Hc| ->]; [|reflexivity].
    unfold lowercase in Hc. rewrite andb_true_iff, !Z.leb_le in Hc.
    unfold digit. destruct (Z.leb_spec c 57); [lia|].
    apply andb_false_r. }
  assert (Hbonus : includes_space p && (3 <=? split_space_length p) = true).
  { apply passphrase_bonus. lia. }
  assert (Hsymbol : RegExp_test symbol p = true).
  { assert (Hs : includes_space p = true)
      by (apply includes_space_filter; lia).
    unfold includes_space in Hs. apply existsb_exists in Hs.
    destruct Hs as (c & Hin & Hc). apply Z.eqb_eq in Hc. subst c.
    unfold RegExp_test. apply existsb_exists. exists 32. now split. }
  rewrite label_thresholds. cbv zeta.
  rewrite score_parts, suggestions_parts.
  rewrite Hlower, Hupper, Hdigit, Hsymbol, Hbonus, HL.
  destruct (Z.leb_spec 8 (len p)); [|lia].
  destruct (Z.leb_spec 12 (len p)); [|lia].
  destruct (Z.leb_spec 16 (len p)); [|lia].
  destruct (Z.leb_spec 20 (len p)); cbn; auto.
Qed.

Lemma generatePassphrase_strength_witness :
  let r := checkPasswordStrength (fst (generatePassphrase 4 zero_rng)) in
  label r = Kuat
  /\ (score r = 70 \/ score r = 80)
  /\ suggestions r = [Tambahkan_huruf_besar; Tambahkan_angka].
Proof. apply (generatePassphrase_strength 4 zero_rng). lia. Defined.

Lemma ustring_eqb_eq (s t : ustring) : ustring_eqb s t = true <-> s = t.
Proof.
  revert t. induction s as [|c s IH]; intros [|d t]; cbn [ustring_eqb];
    try (split; [discriminate | congruence]); [tauto|].
  rewrite andb_true_iff, Z.eqb_eq, IH. split; [now intros [-> ->]|].
  now intros [= -> ->].
Qed.

(** X24. The words of a passphrase are not drawn uniformly. A word is
    chosen by a random byte modulo 40, and 256 is not a multiple of 40: of
    the 256 values of the byte, seven select each of the first sixteen words
    of the list and six each of the other twenty-four. *)
Theorem generatePassphrase_bias (k : Z) :
  0 <= k < 40 ->
  len (filter
         (fun b =>
            ustring_eqb (fst (generatePassphrase 1 (constant_rng b)))
                        (of_ascii (nth (Z.to_nat k) WORD_LIST ""%string)))
         all_bytes)
  = if k <? 16 then 7 else 6.
Proof.
  intros Hk.
  assert (Hall :
            forallb
              (fun n =>
                 len (filter
                        (fun b =>
                           ustring_eqb
                             (fst (generatePassphrase 1 (constant_rng b)))
                             (of_ascii (nth n WORD_LIST ""%string)))
                        all_bytes)
                 =? (if Z.of_nat n <? 16 then 7 else 6))
              (seq 0 40) = true)
    by (vm_compute; reflexivity).
  rewrite forallb_forall in Hall.
  specialize (Hall (Z.to_nat k)).
  rewrite Z2Nat.id in Hall by lia.
  apply Z.eqb_eq, Hall, in_seq. lia.
Qed.

Lemma generatePassphrase_bias_witness :
  len (filter
         (fun b =>
            ustring_eqb (fst (generatePassphrase 1 (constant_rng b)))
                        (of_ascii (nth (Z.to_nat 39) WORD_LIST ""%string)))
         all_bytes)
  = if 39 <? 16 then 7 else 6.
Proof. apply (generatePassphrase_bias 39). lia. Defined.

(** ** Where [decryptFile] looks for the first record *)


Section FirstRecord.

Context {platform : Platform}.


End FirstRecord.

